(** * artudis-oadoi-report: the enrichment pipeline and its helpers

    A shallow embedding of [main.go] (and of its later revision, which adds
    [makeSherpaLink] and a larger scanner buffer) together with the
    properties stated about it.

    Go strings are byte sequences: they are modelled by [string] (a list of
    8-bit [ascii]).  Go [int] values that the program only counts with are
    modelled by [Z].  A run-time panic is modelled by [None]. *)

From Stdlib Require Import ZArith List String Ascii Bool Lia.
Import ListNotations.

Local Open Scope list_scope.
Local Open Scope string_scope.

(** ** The part of package [strings] that the program uses *)

Module GoStrings.

(** [strings.Split(s, sep)] for a separator of one byte: every substring
    between two separators, in order; a string without separator is
    returned whole, so the result is never empty. *)
Fixpoint Split (s : string) (sep : ascii) : list string :=
  match s with
  | EmptyString => [EmptyString]
  | String c rest =>
      if Ascii.eqb c sep then EmptyString :: Split rest sep
      else match Split rest sep with
           | [] => [String c EmptyString]
           | hd :: tl => String c hd :: tl
           end
  end.

(** [strings.Join(elems, sep)]. *)
Fixpoint Join (elems : list string) (sep : string) : string :=
  match elems with
  | [] => EmptyString
  | e :: rest =>
      match rest with
      | [] => e
      | _ :: _ => e ++ sep ++ Join rest sep
      end
  end.

(** [strings.TrimPrefix(s, prefix)]. *)
Definition TrimPrefix (s pre : string) : string :=
  if String.prefix pre s
  then String.substring (String.length pre) (String.length s - String.length pre) s
  else s.

(** The conversion [string(b)] of a byte [b]: the UTF-8 encoding of the
    code point [b].  Bytes below 0x80 give a one-byte string, the others
    a two-byte one. *)
Definition string_of_byte (b : ascii) : string :=
  let n := N_of_ascii b in
  if (n <? 128)%N then String b EmptyString
  else String (ascii_of_N (192 + n / 64))
         (String (ascii_of_N (128 + n mod 64)) EmptyString).

(** [strconv.FormatBool]. *)
Definition FormatBool (b : bool) : string := if b then "true" else "false".

(** [c] does not occur in [s]. *)
Fixpoint absent (c : ascii) (s : string) : Prop :=
  match s with
  | EmptyString => True
  | String d rest => d <> c /\ absent c rest
  end.

End GoStrings.
Import GoStrings.

(** ** Registry links: [makeSherpaLink] *)

Definition SHERPAURI : string := "http://www.sherpa.ac.uk/romeo/issn/".

(** The body of the [range issnsSplit] loop for one segment.  [issn[4]] is
    evaluated first: on a non-empty segment of fewer than five bytes the
    index is out of range and the program panics ([None]). *)
Definition sherpaSegment (sherpaLinks : list string) (issn : string)
  : option (list string) :=
  if issn =? "" then Some sherpaLinks
  else
    match String.get 4 issn with
    | None => None
    | Some b =>
        if (string_of_byte b =? "-") && (String.length issn =? 9)%nat
        then Some (sherpaLinks ++ [(SHERPAURI ++ issn ++ "/")%string])%list
        else if (String.length issn =? 8)%nat
        then
          let repaired :=
            String.substring 0 4 issn ++ "-" ++ String.substring 4 4 issn in
          Some (sherpaLinks ++ [(SHERPAURI ++ repaired ++ "/")%string])%list
        else Some sherpaLinks
    end.

Fixpoint sherpaRange (issnsSplit : list string) (sherpaLinks : list string)
  : option (list string) :=
  match issnsSplit with
  | [] => Some sherpaLinks
  | issn :: rest =>
      match sherpaSegment sherpaLinks issn with
      | None => None
      | Some links => sherpaRange rest links
      end
  end.

Definition makeSherpaLink (issns : string) : option string :=
  if issns =? "" then Some ""
  else
    match sherpaRange (Split issns ",") [] with
    | None => None
    | Some sherpaLinks => Some (Join sherpaLinks ",")
    end.

(** ** Data model *)

(** A value decoded into an [interface{}] (the attachment's
    [external_url]). *)
#[warnings="-register-all"]
Inductive jsonValue : Type :=
| JNull
| JBool (b : bool)
| JNumber (literal : string)
| JString (s : string)
| JArray (elems : list jsonValue)
| JObject (members : list (string * jsonValue)).

(** The anonymous element type of [Publication.Identifier]. *)
Record IdentifierEntry : Type := {
  Scheme : string;
  Value : string
}.

(** The anonymous element type of [Publication.Attachment]; its field
    [Type] is [AttachmentType] here. *)
Record AttachmentEntry : Type := {
  OpenAccess : string;
  BlobKey : string;
  ExternalURL : jsonValue;
  AttachmentType : string
}.

(** [Publication]; its field [Type] is [PublicationType] here. *)
Record Publication : Type := {
  Identifier : list IdentifierEntry;
  ID : string;
  PublicationType : string;
  Attachment : list AttachmentEntry
}.

Record BestOaLocationT : Type := {
  Evidence : string;
  HostType : string;
  LocationID : string;
  URL : string;
  URLForLandingPage : string;
  URLForPdf : string;
  Version : string
}.

Record APIResponseBody : Type := {
  BestOaLocation : BestOaLocationT;
  DataStandard : Z;
  Doi : string;
  DoiURL : string;
  IsOa : bool;
  JournalIsOa : bool;
  JournalIssns : string;
  JournalName : string;
  Publisher : string;
  Title : string;
  Updated : string;
  Year : Z
}.

(** [APIResponse]; the embedded [APIResponseBody] is the field [Body]. *)
Record APIResponse : Type := {
  HTTPStatus : string;
  Body : APIResponseBody;
  JSONDecodeError : string;
  GETError : string
}.

(** The Go type [Record]: the embedded [Publication] and the responses,
    one per DOI looked up. *)
Record EnrichedRecord : Type := {
  Pub : Publication;
  APIResponses : list APIResponse
}.

(** Zero values, as [var apiResponse APIResponse] gives them. *)
Definition zeroBestOaLocation : BestOaLocationT :=
  {| Evidence := ""; HostType := ""; LocationID := ""; URL := "";
     URLForLandingPage := ""; URLForPdf := ""; Version := "" |}.

Definition zeroAPIResponseBody : APIResponseBody :=
  {| BestOaLocation := zeroBestOaLocation; DataStandard := 0; Doi := "";
     DoiURL := ""; IsOa := false; JournalIsOa := false; JournalIssns := "";
     JournalName := ""; Publisher := ""; Title := ""; Updated := "";
     Year := 0 |}.

Definition zeroAPIResponse : APIResponse :=
  {| HTTPStatus := ""; Body := zeroAPIResponseBody; JSONDecodeError := "";
     GETError := "" |}.

Definition OADOIURL : string := "https://api.oadoi.org/v2/".

(** [attachmentTypeToWeightMap], in source order. *)
Definition attachmentTypeToWeightMap : list (string * Z) :=
  [ ("missing", 0%Z);
    ("other", 1%Z);
    ("submittedManuscript", 2%Z);
    ("acceptedManuscript", 3%Z);
    ("finalVersion", 4%Z) ].

(** Indexing a Go map: the value stored under the key, the zero value of
    the element type when the key is absent. *)
Fixpoint mapIndex (m : list (string * Z)) (key : string) : Z :=
  match m with
  | [] => 0%Z
  | (k, v) :: rest => if k =? key then v else mapIndex rest key
  end.

(** ** The enrichment client: what [doAPIRequest] returns *)

(** What [json.NewDecoder(resp.Body).Decode(&apiResponse.APIResponseBody)]
    did: it failed with [err], leaving the body as far as it was filled, or
    it succeeded. *)
Inductive decodeResult : Type :=
| DecodeFailed (filled : APIResponseBody) (err : string)
| Decoded (body : APIResponseBody).

(** What [http.Get(url)] did: it failed with [err], or it gave a response
    with the status line [status] whose body then went to the decoder. *)
Inductive getResult : Type :=
| GetFailed (err : string)
| GetOK (status : string) (decode : decodeResult).

Definition requestURL (email doi : string) : string :=
  OADOIURL ++ TrimPrefix doi "http://dx.doi.org/" ++ "?email=" ++ email.

(** Lines 225 to 244 of [doAPIRequest]: the value returned on each of the
    three exits, from the zero [apiResponse] on.  The ticket is taken before
    and handed back after this part; see [wstep] below. *)
Definition doAPIRequest (r : getResult) : APIResponse :=
  let apiResponse := zeroAPIResponse in
  match r with
  | GetFailed err =>
      {| HTTPStatus := HTTPStatus apiResponse;
         Body := Body apiResponse;
         JSONDecodeError := JSONDecodeError apiResponse;
         GETError := err |}
  | GetOK status (DecodeFailed filled err) =>
      {| HTTPStatus := status;
         Body := filled;
         JSONDecodeError := err;
         GETError := GETError apiResponse |}
  | GetOK status (Decoded body) =>
      {| HTTPStatus := status;
         Body := body;
         JSONDecodeError := JSONDecodeError apiResponse;
         GETError := GETError apiResponse |}
  end.

(** ** The writer's derived fields and rows *)

(** One turn of the loop over [record.Attachment], on the pair
    ([artudisOA], [highestLevel]). *)
Definition attachmentStep (st : bool * string) (attachment : AttachmentEntry)
  : bool * string :=
  let (artudisOA, highestLevel) := st in
  if OpenAccess attachment =? "true"
  then
    (true,
     if (mapIndex attachmentTypeToWeightMap (AttachmentType attachment)
         >? mapIndex attachmentTypeToWeightMap highestLevel)%Z
     then AttachmentType attachment
     else highestLevel)
  else (artudisOA, highestLevel).

(** The two derived fields of a record: [artudisOA] and [highestLevel]. *)
Definition localOA (attachments : list AttachmentEntry) : bool * string :=
  fold_left attachmentStep attachments (false, "missing").

Definition header : list string :=
  [ "API - Available OA";
    "Artudis - Available OA";
    "Artudis - Best Type OA";
    "Artudis - ID";
    "API - Best OA Location URL";
    "API - Best OA Location Version";
    "Artudis - Publication Type";
    "API - HTTP Response Status";
    "API - JSON Decode Error";
    "API - GET Error";
    "API - DOI";
    "API - Title" ].

Definition toCSVOutput (record : EnrichedRecord) (artudisOA : bool)
    (highestLevel : string) (apiresponse : APIResponse) : list string :=
  [ FormatBool (IsOa (Body apiresponse));
    FormatBool artudisOA;
    highestLevel;
    ID (Pub record);
    URL (BestOaLocation (Body apiresponse));
    Version (BestOaLocation (Body apiresponse));
    PublicationType (Pub record);
    HTTPStatus apiresponse;
    JSONDecodeError apiresponse;
    GETError apiresponse;
    Doi (Body apiresponse);
    Title (Body apiresponse) ].

(** ** The line reader *)

(** [bufio.MaxScanTokenSize], the limit of a scanner on which [Buffer] was
    not called ([main.go]). *)
Definition MaxScanTokenSize : Z := 64 * 1024.

(** The limit given to [fileScanner.Buffer] in the later revision. *)
Definition bufferedTokenSize : Z := 1024 * 1024 * 32.

(** A carriage return. *)
Definition CR : string := String "013" EmptyString.

(** [dropCR] of package [bufio]: the split function [bufio.ScanLines], which
    a scanner uses unless told otherwise, drops one carriage return at the
    end of a line. *)
Fixpoint dropCR (data : string) : string :=
  match data with
  | EmptyString => EmptyString
  | String c rest =>
      match rest with
      | EmptyString => if Ascii.eqb c "013" then EmptyString else data
      | String _ _ => String c (dropCR rest)
      end
  end.

(** The tokens that successive calls of [fileScanner.Scan()] deliver for a
    file given as its lines (the bytes between two newlines, and those
    after the last one when there are any), and whether the scan stopped on
    [bufio.ErrTooLong].  A line, with its carriage return when it has one,
    must be shorter than the scanner's maximal token size; the token
    delivered for it is the line without that carriage return.  At the first
    line that is too long [Scan] returns false and the loop of [processFile]
    ends.  [main.go] never looks at [fileScanner.Err()]; the later revision
    ends the process on it with [log.Fatalln]. *)
Fixpoint scanLines (maxTokenSize : Z) (file : list string)
  : list string * bool :=
  match file with
  | [] => ([], false)
  | line :: rest =>
      if (Z.of_nat (String.length line) <? maxTokenSize)%Z
      then let (tokens, tooLong) := scanLines maxTokenSize rest in
           (dropCR line :: tokens, tooLong)
      else ([], true)
  end.

(** ** The concurrent pipeline of one file

    [processFile] launches one goroutine [processPublication] per line and
    one goroutine [processOutput].  They are modelled as a transition system
    whose states hold, for every goroutine, the point of the source it stands
    at; one transition is one step of one goroutine, or a hand-over on a
    channel between two of them. *)

(** Where a goroutine [processPublication] stands; the call of
    [doAPIRequest] is inlined. *)
Inductive worker : Type :=
| WUnmarshal (publicationBytes : string)
    (* before json.Unmarshal *)
| WRange (record : EnrichedRecord) (rest : list IdentifierEntry)
    (* head of the loop over record.Publication.Identifier *)
| WTicket (record : EnrichedRecord) (rest : list IdentifierEntry) (doi : string)
    (* in doAPIRequest, at <-ticketToHTTP *)
| WGet (record : EnrichedRecord) (rest : list IdentifierEntry) (doi : string)
    (* in doAPIRequest with a ticket, at http.Get *)
| WReturn (record : EnrichedRecord) (rest : list IdentifierEntry)
    (apiResponse : APIResponse)
    (* at a return of doAPIRequest: the deferred ticketToHTTP <- true *)
| WSend (record : EnrichedRecord)
    (* at output <- record *)
| WDone.
    (* returned; the deferred waitgroupLines.Done() has run *)

(** What a step of a worker does to its surroundings. *)
Inductive wlabel : Type :=
| LTau
| LLog (msg : string)                   (* log.Println(err) *)
| LAcquire                              (* <-ticketToHTTP *)
| LGet (url : string) (r : getResult)   (* http.Get(url) and the decoding *)
| LRelease                              (* ticketToHTTP <- true *)
| LSend (record : EnrichedRecord).      (* output <- record *)

(** The test [identifier.Scheme == "doi"]. *)
Definition isDoi (identifier : IdentifierEntry) : bool :=
  Scheme identifier =? "doi".

(** [record.APIResponses = append(record.APIResponses, apiResponse)]. *)
Definition appendResponse (record : EnrichedRecord) (apiResponse : APIResponse)
  : EnrichedRecord :=
  {| Pub := Pub record;
     APIResponses := APIResponses record ++ [apiResponse] |}.

(** Where the goroutine [processOutput] stands. *)
Inductive writerpc : Type :=
| OHeader
    (* before w.Write(header) *)
| ORange
    (* at for record := range output *)
| ORows (record : EnrichedRecord) (artudisOA : bool) (highestLevel : string)
    (rest : list APIResponse)
    (* head of the loop over record.APIResponses *)
| OFlush
    (* output is closed: at w.Flush() *)
| ODone.
    (* returned; the deferred waitgroupOutput.Done() has run *)

(** What a step of the writer does to its surroundings. *)
Inductive olabel : Type :=
| LHeader (written : bool)          (* w.Write(header), its error dropped *)
| LRecv (record : EnrichedRecord)   (* a record arrives on output *)
| LClosed                           (* output is closed and empty *)
| LWrite (row : list string)        (* w.Write(toCSVOutput) returned nil *)
| LWriteErr (err : string)          (* w.Write(toCSVOutput) returned err *)
| LNext                             (* the record has no response left *)
| LFlush (err : option string).     (* w.Flush() and w.Error() *)

(** The rows a step of the writer hands to the CSV writer with success. *)
Definition rowsOf (l : olabel) : list (list string) :=
  match l with
  | LHeader true => [header]
  | LWrite row => [row]
  | _ => []
  end.

(** The lines a step of the writer logs. *)
Definition logOf (l : olabel) : list string :=
  match l with
  | LWriteErr err => ["error writing record to csv: " ++ err]
  | LFlush (Some err) => ["error writing record to csv: " ++ err]
  | _ => []
  end.

(** Steps that the writer takes on its own: neither a record arriving nor
    the end of the channel [output]. *)
Definition ownStep (l : olabel) : bool :=
  match l with
  | LRecv _ | LClosed => false
  | _ => true
  end.

Inductive ostep : writerpc -> olabel -> writerpc -> Prop :=
| o_header written :
    ostep OHeader (LHeader written) ORange
| o_recv record :
    ostep ORange (LRecv record)
      (ORows record (fst (localOA (Attachment (Pub record))))
         (snd (localOA (Attachment (Pub record)))) (APIResponses record))
| o_closed :
    ostep ORange LClosed OFlush
| o_write record artudisOA highestLevel apiresponse rest :
    ostep (ORows record artudisOA highestLevel (apiresponse :: rest))
      (LWrite (toCSVOutput record artudisOA highestLevel apiresponse))
      (ORows record artudisOA highestLevel rest)
| o_write_err record artudisOA highestLevel apiresponse rest err :
    ostep (ORows record artudisOA highestLevel (apiresponse :: rest))
      (LWriteErr err) ODone
| o_next record artudisOA highestLevel :
    ostep (ORows record artudisOA highestLevel []) LNext ORange
| o_flush err :
    ostep OFlush (LFlush err) ODone.

(** Where [processFile] itself stands. *)
Inductive mainpc : Type :=
| MScan (lines : list string)
    (* in the loop over fileScanner.Scan(); lines still to be delivered *)
| MWaitLines
    (* at waitgroupLines.Wait() *)
| MWaitOutput
    (* output and ticketToHTTP closed; at waitgroupOutput.Wait() *)
| MDone.

Record state : Type := St {
  main : mainpc;
  tickets : Z;                      (* len(ticketToHTTP) *)
  workers : list worker;            (* in launch order *)
  writer : option writerpc;         (* None until go processOutput *)
  closed : bool;                    (* close(output) has run *)
  csvRows : list (list string);     (* rows accepted by the CSV writer *)
  logged : list string
}.

(** A worker that holds a ticket: it is between [<-ticketToHTTP] and the
    deferred [ticketToHTTP <- true]. *)
Definition holding (w : worker) : bool :=
  match w with
  | WGet _ _ _ | WReturn _ _ _ => true
  | _ => false
  end.

(** The number of lookups in flight. *)
Fixpoint inflight (ws : list worker) : Z :=
  match ws with
  | [] => 0
  | w :: rest => ((if holding w then 1 else 0) + inflight rest)%Z
  end.

Definition finished (w : worker) : bool :=
  match w with
  | WDone => true
  | _ => false
  end.

Section Pipeline.

Variable email : string.      (* the flag -email *)
Variable httplimit : Z.       (* the flag -httplimit *)

(** [json.Unmarshal(publicationBytes, &record.Publication)]: the decoded
    publication, or the text of the error. *)
Variable Unmarshal : string -> Publication + string.

(** The largest capacity with which [make(chan bool, n)] returns: above it
    the runtime panics (makechan: size out of range).  On linux/amd64 it is
    a little less than 2^48. *)
Variable maxChanCap : Z.

Inductive wstep : worker -> wlabel -> worker -> Prop :=
| w_unmarshal_err publicationBytes err :
    Unmarshal publicationBytes = inr err ->
    wstep (WUnmarshal publicationBytes) (LLog err) WDone
| w_unmarshal publicationBytes publication :
    Unmarshal publicationBytes = inl publication ->
    wstep (WUnmarshal publicationBytes) LTau
      (WRange {| Pub := publication; APIResponses := [] |}
         (Identifier publication))
| w_range_other record identifier rest :
    isDoi identifier = false ->
    wstep (WRange record (identifier :: rest)) LTau (WRange record rest)
| w_range_doi record identifier rest :
    isDoi identifier = true ->
    wstep (WRange record (identifier :: rest)) LTau
      (WTicket record rest (Value identifier))
| w_ticket record rest doi :
    wstep (WTicket record rest doi) LAcquire (WGet record rest doi)
| w_get record rest doi r :
    wstep (WGet record rest doi) (LGet (requestURL email doi) r)
      (WReturn record rest (doAPIRequest r))
| w_return record rest apiResponse :
    wstep (WReturn record rest apiResponse) LRelease
      (WRange (appendResponse record apiResponse) rest)
| w_range_end record :
    wstep (WRange record []) LTau (WSend record)
| w_send record :
    wstep (WSend record) (LSend record) WDone.

(** The tickets left after a step of a worker, when the channel
    [ticketToHTTP] lets the step happen: a receive needs a ticket in the
    buffer, a send needs room in it.  A send on [output] is not the
    worker's alone (see [s_publish]). *)
Definition ticketsAfter (l : wlabel) (t : Z) : option Z :=
  match l with
  | LAcquire => if (0 <? t)%Z then Some (t - 1)%Z else None
  | LRelease => if (t <? httplimit)%Z then Some (t + 1)%Z else None
  | LSend _ => None
  | _ => Some t
  end.

Definition wlogOf (l : wlabel) : list string :=
  match l with
  | LLog msg => [msg]
  | _ => []
  end.

Inductive step : state -> state -> Prop :=
(* Scan() delivers a line: go processPublication(publicationBytes, ...) *)
| s_go_line line lines t ws o c rows lg :
    step (St (MScan (line :: lines)) t ws o c rows lg)
         (St (MScan lines) t (ws ++ [WUnmarshal line]) o c rows lg)
(* Scan() returns false: go processOutput(output, ...) *)
| s_go_output t ws c rows lg :
    step (St (MScan []) t ws None c rows lg)
         (St MWaitLines t ws (Some OHeader) c rows lg)
(* a worker steps, taking or giving back a ticket where it does *)
| s_worker m t t' ws1 w l w' ws2 o c rows lg :
    wstep w l w' ->
    ticketsAfter l t = Some t' ->
    step (St m t (ws1 ++ w :: ws2) o c rows lg)
         (St m t' (ws1 ++ w' :: ws2) o c rows (lg ++ wlogOf l))
(* output is unbuffered: a worker sends when the writer receives *)
| s_publish m t ws1 w record w' ws2 o o' rows lg :
    wstep w (LSend record) w' ->
    ostep o (LRecv record) o' ->
    step (St m t (ws1 ++ w :: ws2) (Some o) false rows lg)
         (St m t (ws1 ++ w' :: ws2) (Some o') false rows lg)
(* waitgroupLines.Wait() returns; close(output); close(ticketToHTTP) *)
| s_wait_lines t ws o rows lg :
    forallb finished ws = true ->
    step (St MWaitLines t ws o false rows lg)
         (St MWaitOutput t ws o true rows lg)
(* the writer steps on its own *)
| s_writer m t ws o l o' c rows lg :
    ostep o l o' ->
    ownStep l = true ->
    step (St m t ws (Some o) c rows lg)
         (St m t ws (Some o') c (rows ++ rowsOf l) (lg ++ logOf l))
(* the writer finds output closed *)
| s_writer_closed m t ws o o' rows lg :
    ostep o LClosed o' ->
    step (St m t ws (Some o) true rows lg)
         (St m t ws (Some o') true rows lg)
(* waitgroupOutput.Wait() returns *)
| s_wait_output t ws c rows lg :
    step (St MWaitOutput t ws (Some ODone) c rows lg)
         (St MDone t ws (Some ODone) c rows lg).

Inductive steps (s0 : state) : state -> Prop :=
| steps_refl : steps s0 s0
| steps_step s s' : steps s0 s -> step s s' -> steps s0 s'.

(** The state of [processFile] when the loop over the lines starts, for
    the lines that the scanner delivers.  [make(chan bool, *httplimit)]
    panics on a negative size and on one above [maxChanCap] ([None]); the
    loop after it sends [*httplimit] tickets. *)
Definition processFile (lines : list string) : option state :=
  if ((httplimit <? 0) || (maxChanCap <? httplimit))%Z then None
  else
    Some (St (MScan lines) (Nat.iter (Z.to_nat httplimit) Z.succ 0%Z)
            [] None false [] []).

(** *** The batch: [main] calls [processFile] on one file after the other *)

(** An input file: its name, and the error of [os.Open] when it fails
    ([inl]), else the lines that the scanner delivers ([inr]). *)
Record file : Type := File {
  fileName : string;
  content : string + list string
}.

(** [main]'s loop over the files.  [batchLog] is the log of the process up
    to the call of [processFile] under way, whose own lines are in
    [logged]. *)
Record batch : Type := Batch {
  current : option state;      (* the call of processFile under way *)
  pending : list file;         (* the files not yet started *)
  batchLog : list string
}.

Inductive bstep : batch -> batch -> Prop :=
(* log.Println("Processing", fileName); os.Open fails: log.Println(err) *)
| b_open_err name err files lg :
    bstep (Batch None (File name (inl err) :: files) lg)
          (Batch None files (lg ++ ["Processing " ++ name; err]))
(* log.Println("Processing", fileName); processFile starts on the file *)
| b_open name lines files s lg :
    processFile lines = Some s ->
    bstep (Batch None (File name (inr lines) :: files) lg)
          (Batch (Some s) files (lg ++ ["Processing " ++ name]))
| b_step s s' files lg :
    step s s' ->
    bstep (Batch (Some s) files lg) (Batch (Some s') files lg)
(* processFile returns *)
| b_return s files lg :
    main s = MDone ->
    bstep (Batch (Some s) files lg) (Batch None files (lg ++ logged s)).

Inductive bsteps (b0 : batch) : batch -> Prop :=
| bsteps_refl : bsteps b0 b0
| bsteps_step b b' : bsteps b0 b -> bstep b b' -> bsteps b0 b'.

(** *** Runs of one goroutine, with what they do *)

Inductive wrun : worker -> list wlabel -> worker -> Prop :=
| wrun_nil w : wrun w [] w
| wrun_cons w1 l w2 ls w3 :
    wstep w1 l w2 -> wrun w2 ls w3 -> wrun w1 (l :: ls) w3.

(** The worker [w] is the goroutine launched on [line], after some of its
    steps. *)
Definition launchedOn (line : string) (w : worker) : Prop :=
  exists tr, wrun (WUnmarshal line) tr w.

(** The line decodes. *)
Definition wellformed (line : string) : bool :=
  match Unmarshal line with
  | inl _ => true
  | inr _ => false
  end.

(** *** A writer that has returned too early *)

(** A worker that has a record still to send: it has decoded its line, or
    will decode it, and has not returned. *)
Definition unsent (w : worker) : bool :=
  match w with
  | WDone => false
  | WUnmarshal line => wellformed line
  | _ => true
  end.

(** [processFile] waits for the workers, the writer has returned, and a
    worker has a record still to send. *)
Definition blocked (s : state) : Prop :=
  main s = MWaitLines /\
  writer s = Some ODone /\
  existsb unsent (workers s) = true.

(** *** Comparing a file with the same file without its malformed lines *)

(** A worker that has returned, or one launched on a malformed line that
    has not yet looked at it. *)
Definition idle (w : worker) : Prop :=
  w = WDone \/ exists line, w = WUnmarshal line /\ wellformed line = false.

(** The second list is the first without some of its idle workers. *)
Inductive lessIdle : list worker -> list worker -> Prop :=
| lessIdle_nil : lessIdle [] []
| lessIdle_both w ws ws' :
    lessIdle ws ws' -> lessIdle (w :: ws) (w :: ws')
| lessIdle_idle w ws ws' :
    idle w -> lessIdle ws ws' -> lessIdle (w :: ws) ws'.

Definition sameMain (m m' : mainpc) : Prop :=
  match m, m' with
  | MScan lines, MScan lines' => lines' = filter wellformed lines
  | MWaitLines, MWaitLines => True
  | MWaitOutput, MWaitOutput => True
  | MDone, MDone => True
  | _, _ => False
  end.

(** A state of the run on all the lines and a state of the run on the
    well-formed lines that differ in idle workers and in the log only. *)
Definition related (s s' : state) : Prop :=
  sameMain (main s) (main s') /\
  tickets s = tickets s' /\
  lessIdle (workers s) (workers s') /\
  writer s = writer s' /\
  closed s = closed s' /\
  csvRows s = csvRows s'.

End Pipeline.

Inductive orun : writerpc -> list olabel -> writerpc -> Prop :=
| orun_nil o : orun o [] o
| orun_cons o1 l o2 ls o3 :
    ostep o1 l o2 -> orun o2 ls o3 -> orun o1 (l :: ls) o3.

(** The requests of a run of a worker, in order, each with what came
    back. *)
Fixpoint requests (tr : list wlabel) : list (string * getResult) :=
  match tr with
  | [] => []
  | LGet url r :: rest => (url, r) :: requests rest
  | _ :: rest => requests rest
  end.

(** The receives and sends on [ticketToHTTP] of a run of a worker. *)
Fixpoint gateOps (tr : list wlabel) : list wlabel :=
  match tr with
  | [] => []
  | LAcquire :: rest => LAcquire :: gateOps rest
  | LRelease :: rest => LRelease :: gateOps rest
  | _ :: rest => gateOps rest
  end.

(** The rows that a run of the writer hands to the CSV writer. *)
Definition written (tr : list olabel) : list (list string) :=
  flat_map rowsOf tr.

(** The identifiers of a publication that drive a lookup. *)
Definition doiIdentifiers (publication : Publication) : list IdentifierEntry :=
  filter isDoi (Identifier publication).


(** ** Names used in the statements below *)

(** The rank of an attachment type on the scale of
    [attachmentTypeToWeightMap]; a type that is not a key ranks 0. *)
Definition weight (attachmentType : string) : Z :=
  mapIndex attachmentTypeToWeightMap attachmentType.

(** A segment that the loop of [makeSherpaLink] passes over. *)
Definition skipped (issn : string) : Prop :=
  forall sherpaLinks, sherpaSegment sherpaLinks issn = Some sherpaLinks.

(** A line of [n] bytes. *)
Fixpoint longLine (n : nat) : string :=
  match n with
  | O => EmptyString
  | S m => String "a" (longLine m)
  end.

(** The lines that the loop of [processFile] has not yet been given. *)
Definition toScan (m : mainpc) : list string :=
  match m with
  | MScan lines => lines
  | _ => []
  end.

(** ** Sample input, for the examples *)

(** A double quote, and a string between double quotes. *)
Definition dquote : string := String "034" EmptyString.

Definition quoted (s : string) : string := dquote ++ s ++ dquote.

(** The line
    {"identifier":[{"scheme":"doi","value":"10.1000/182"}],"__id__":"p1"}. *)
Definition sampleLine : string :=
  "{" ++ quoted "identifier" ++ ":[{" ++ quoted "scheme" ++ ":" ++ quoted "doi"
  ++ "," ++ quoted "value" ++ ":" ++ quoted "10.1000/182" ++ "}],"
  ++ quoted "__id__" ++ ":" ++ quoted "p1" ++ "}".

Definition samplePublication : Publication :=
  {| Identifier := [ {| Scheme := "doi"; Value := "10.1000/182" |} ];
     ID := "p1";
     PublicationType := "";
     Attachment := [] |}.

(** The line ["{}"] decodes to the zero publication. *)
Definition emptyPublication : Publication :=
  {| Identifier := []; ID := ""; PublicationType := ""; Attachment := [] |}.

(** A decoder that agrees with [json.Unmarshal] on [sampleLine], on ["{}"]
    and on the malformed lines of the examples. *)
Definition sampleUnmarshal (publicationBytes : string) : Publication + string :=
  if publicationBytes =? sampleLine then inl samplePublication
  else if publicationBytes =? "{}" then inl emptyPublication
  else inr "invalid character".

(** A capacity limit of the runtime: 2^48 bytes less the header of the
    channel. *)
Definition sampleChanCap : Z := 2 ^ 48 - 96.

(** A response of the API for [samplePublication]. *)
Definition sampleResult : getResult :=
  GetOK "200 OK"
    (Decoded
       {| BestOaLocation := zeroBestOaLocation; DataStandard := 2;
          Doi := "10.1000/182"; DoiURL := "https://doi.org/10.1000/182";
          IsOa := false; JournalIsOa := false; JournalIssns := "1234-5678";
          JournalName := ""; Publisher := ""; Title := "DOI Handbook";
          Updated := ""; Year := 2006 |}).

(** The record that a worker publishes for [sampleLine] with that
    response. *)
Definition sampleRecord : EnrichedRecord :=
  {| Pub := samplePublication;
     APIResponses := [doAPIRequest sampleResult] |}.

(** ** Proof steps *)

(** Finds which worker of a list of at most two a step is about. *)
Ltac split_workers :=
  match goal with
  | H : (?ws1 ++ _ :: _)%list = _ |- _ =>
      destruct ws1 as [|? [|? [|? ?]]]; simpl in H; inversion H; subst; clear H
  end.

From Stdlib Require Import Permutation.

(** ** Further names used in the statements below *)

(** The ISSN that the loop of [makeSherpaLink] makes a link of, for a
    segment that it does not pass over: the segment itself when it has nine
    bytes and a hyphen as the fifth, the segment with a hyphen put in when
    it has eight bytes. *)
Definition linkedISSN (issn : string) : option string :=
  match String.get 4 issn with
  | Some b =>
      if (string_of_byte b =? "-") && (String.length issn =? 9)%nat
      then Some issn
      else if (String.length issn =? 8)%nat
      then Some (String.substring 0 4 issn ++ "-" ++ String.substring 4 4 issn)
      else None
  | None => None
  end.

(** Two results of [makeSherpaLink] put together as [strings.Join] puts the
    links of both together. *)
Definition joinLinks (r1 r2 : string) : string :=
  if r1 =? "" then r2
  else if r2 =? "" then r1
  else r1 ++ "," ++ r2.

(** A link is not the empty string. *)
Definition nonempty (s : string) : Prop := s <> "".

(** The ISSNs that [makeSherpaLink] makes links of, in the order of the
    segments. *)
Definition linkedISSNs (issnsSplit : list string) : list string :=
  flat_map (fun issn => match linkedISSN issn with
                        | Some x => [x]
                        | None => []
                        end) issnsSplit.

(** The link of an ISSN. *)
Definition sherpaLinkOf (issn : string) : string := SHERPAURI ++ issn ++ "/".

(** The labels of the scale of [attachmentTypeToWeightMap]. *)
Definition scaleLabels : list string :=
  map fst attachmentTypeToWeightMap.

(** The highest rank among the open-access attachments, 0 when there is
    none. *)
Fixpoint bestRank (attachments : list AttachmentEntry) : Z :=
  match attachments with
  | [] => 0
  | a :: rest =>
      if OpenAccess a =? "true"
      then Z.max (weight (AttachmentType a)) (bestRank rest)
      else bestRank rest
  end.

(** ** The row of the revision with the registry link *)

(** [header] of the revision that adds the column "API - Sherpa Link". *)
Definition headerSherpa : list string :=
  [ "Artudis - ID";
    "Artudis - Publication Type";
    "Artudis - Available OA";
    "Artudis - Best Type OA";
    "API - Available OA";
    "API - Best OA Location Version";
    "API - DOI";
    "API - Best OA Location URL";
    "API - Title";
    "API - HTTP Response Status";
    "API - JSON Decode Error";
    "API - GET Error";
    "API - Sherpa Link" ].

(** [toCSVOutput] of that revision; [None] when [makeSherpaLink] panics. *)
Definition toCSVOutputSherpa (record : EnrichedRecord) (artudisOA : bool)
    (highestLevel : string) (apiresponse : APIResponse)
  : option (list string) :=
  match makeSherpaLink (JournalIssns (Body apiresponse)) with
  | None => None
  | Some link =>
      Some [ ID (Pub record);
             PublicationType (Pub record);
             FormatBool artudisOA;
             highestLevel;
             FormatBool (IsOa (Body apiresponse));
             Version (BestOaLocation (Body apiresponse));
             Doi (Body apiresponse);
             URL (BestOaLocation (Body apiresponse));
             Title (Body apiresponse);
             HTTPStatus apiresponse;
             JSONDecodeError apiresponse;
             GETError apiresponse;
             link ]
  end.

Section PipelineNames.

Variable email : string.
Variable Unmarshal : string -> Publication + string.

(** The record is what a worker sends for one of the lines: the decoded
    publication of the line, with one response for every identifier of
    scheme "doi". *)
Definition publishedFrom (lines : list string) (record : EnrichedRecord)
  : Prop :=
  exists line publication rs,
    In line lines /\
    Unmarshal line = inl publication /\
    List.length rs = List.length (doiIdentifiers publication) /\
    record = {| Pub := publication; APIResponses := map doAPIRequest rs |}.

(** The rows of a record, one for every response, in order. *)
Definition rowsFor (record : EnrichedRecord) : list (list string) :=
  map (toCSVOutput record
         (fst (localOA (Attachment (Pub record))))
         (snd (localOA (Attachment (Pub record)))))
    (APIResponses record).

(** The record is what the worker launched on [line] sends: the decoded
    publication of the line, with one response for every identifier of
    scheme "doi". *)
Definition publishedOn (line : string) (record : EnrichedRecord) : Prop :=
  exists publication rs,
    Unmarshal line = inl publication /\
    List.length rs = List.length (doiIdentifiers publication) /\
    record = {| Pub := publication; APIResponses := map doAPIRequest rs |}.

(** [settled done ws sent]: the workers [ws] were launched on the lines
    [done], one each and in order, and [sent] are the records that they
    have handed to the writer, in the order of the lines.  A worker that
    has returned has sent the record of its line, unless the line does not
    decode; a worker that has not returned has sent nothing. *)
Inductive settled : list string -> list worker -> list EnrichedRecord -> Prop :=
| settled_nil : settled [] [] []
| settled_sent line record done ws sent :
    publishedOn line record ->
    settled done ws sent ->
    settled (line :: done) (WDone :: ws) (record :: sent)
| settled_pending line w done ws sent :
    launchedOn email Unmarshal line w ->
    (w = WDone -> wellformed Unmarshal line = false) ->
    settled done ws sent ->
    settled (line :: done) (w :: ws) sent.

(** The first rows of a record sent for one of the lines. *)
Definition firstRowsOf (lines : list string) (rows : list (list string))
  : Prop :=
  exists record n,
    publishedFrom lines record /\ rows = firstn n (rowsFor record).

(** What has been written is the header, if at all, then the rows of the
    records [recs] that the writer is through with, then the rows [cur] of
    the record that it holds. *)
Definition accounted (lines : list string) (s : state)
    (hd : list (list string)) (recs : list EnrichedRecord)
    (cur : list (list string)) : Prop :=
  csvRows s = (hd ++ flat_map rowsFor recs ++ cur)%list /\
  (hd = [] \/ hd = [header]) /\
  Forall (publishedFrom lines) recs /\
  match writer s with
  | None => hd = [] /\ recs = [] /\ cur = []
  | Some OHeader => hd = [] /\ recs = [] /\ cur = []
  | Some (ORows record artudisOA highestLevel rest) =>
      publishedFrom lines record /\
      artudisOA = fst (localOA (Attachment (Pub record))) /\
      highestLevel = snd (localOA (Attachment (Pub record))) /\
      exists done,
        APIResponses record = (done ++ rest)%list /\
        cur = map (toCSVOutput record artudisOA highestLevel) done
  | Some ODone => cur = [] \/ firstRowsOf lines cur
  | Some _ => cur = []
  end.

(** The record that the writer holds, or held when a write failed. *)
Definition inHand (held : option EnrichedRecord) : list EnrichedRecord :=
  match held with
  | Some record => [record]
  | None => []
  end.

(** What has been written, by where the writer stands: the header, if at
    all, then all the rows of the records [recs] that the writer is through
    with, then the rows [cur] written so far of the record [held]. *)
Definition writerRows (s : state) (hd : list (list string))
    (recs : list EnrichedRecord) (held : option EnrichedRecord)
    (cur : list (list string)) : Prop :=
  csvRows s = (hd ++ flat_map rowsFor recs ++ cur)%list /\
  (hd = [] \/ hd = [header]) /\
  match writer s with
  | None => hd = [] /\ recs = [] /\ held = None /\ cur = []
  | Some OHeader => hd = [] /\ recs = [] /\ held = None /\ cur = []
  | Some (ORows record artudisOA highestLevel rest) =>
      held = Some record /\
      artudisOA = fst (localOA (Attachment (Pub record))) /\
      highestLevel = snd (localOA (Attachment (Pub record))) /\
      exists done,
        APIResponses record = (done ++ rest)%list /\
        cur = map (toCSVOutput record artudisOA highestLevel) done
  | Some ODone =>
      (held = None /\ cur = []) \/
      (exists record done apiresponse rest err,
         held = Some record /\
         APIResponses record = (done ++ apiresponse :: rest)%list /\
         cur = map (toCSVOutput record
                      (fst (localOA (Attachment (Pub record))))
                      (snd (localOA (Attachment (Pub record))))) done /\
         In ("error writing record to csv: " ++ err)%string (logged s))
  | Some _ => held = None /\ cur = []
  end.

(** The worker [w] was launched on [line], and when it has returned on a
    line that does not decode, the error is in the log [lg]. *)
Definition accountedLog (lg : list string) (line : string) (w : worker)
  : Prop :=
  launchedOn email Unmarshal line w /\
  (w = WDone -> forall err, Unmarshal line = inr err -> In err lg).

(** What a file of the batch adds to the log: the line that announces it,
    and then the error of [os.Open], or what [processFile] logs, where the
    error of every line that does not decode is found. *)
Definition fileLog (f : file) (part : list string) : Prop :=
  match content f with
  | inl err => part = [("Processing " ++ fileName f)%string; err]
  | inr lines =>
      exists own,
        part = ("Processing " ++ fileName f)%string :: own /\
        forall line err,
          In line lines -> Unmarshal line = inr err -> In err own
  end.

End PipelineNames.

(** The writer exists once the scan is over, [output] is closed once the
    workers have been waited for, and the writer flushes only then. *)
Definition wellPlaced (s : state) : Prop :=
  match main s with
  | MScan _ => writer s = None /\ closed s = false
  | MWaitLines =>
      closed s = false /\ writer s <> None /\ writer s <> Some OFlush
  | MWaitOutput => closed s = true /\ writer s <> None
  | MDone => True
  end.

(** * Properties *)

(** ** Registry links *)

Lemma Split_not_nil (s : string) (sep : ascii) : Split s sep <> [].
Proof.
  induction s as [|c s IH]; simpl; [discriminate|].
  destruct (Ascii.eqb c sep); [discriminate|].
  destruct (Split s sep); discriminate.
Qed.

Lemma Split_absent (s : string) (sep : ascii) :
  Forall (absent sep) (Split s sep).
Proof.
  induction s as [|c s IH]; simpl.
  - repeat constructor.
  - destruct (Ascii.eqb c sep) eqn:E.
    + constructor; [exact I | exact IH].
    + apply Ascii.eqb_neq in E.
      destruct (Split s sep) as [|hd tl].
      * repeat constructor. exact E.
      * inversion IH; subst. constructor; [simpl; auto | assumption].
Qed.

Lemma Split_of_absent (s : string) (sep : ascii) :
  absent sep s -> Split s sep = [s].
Proof.
  induction s as [|c s IH]; simpl; [reflexivity|].
  intros [Hc Hs]. apply Ascii.eqb_neq in Hc. rewrite Hc, (IH Hs). reflexivity.
Qed.

Lemma Split_append_sep (a b : string) (sep : ascii) :
  absent sep a ->
  Split (a ++ String sep b) sep = a :: Split b sep.
Proof.
  induction a as [|c a IH]; simpl.
  - intros _. rewrite Ascii.eqb_refl. reflexivity.
  - intros [Hc Ha]. apply Ascii.eqb_neq in Hc. rewrite Hc, (IH Ha). reflexivity.
Qed.

Lemma Split_Join (elems : list string) (sep : ascii) :
  elems <> [] ->
  Forall (absent sep) elems ->
  Split (Join elems (String sep EmptyString)) sep = elems.
Proof.
  induction elems as [|e rest IH]; [congruence|].
  intros _ Hall. inversion Hall as [|? ? He Hrest]; subst.
  destruct rest as [|e' rest'].
  - simpl. apply Split_of_absent, He.
  - change (Join (e :: e' :: rest') (String sep EmptyString))
      with (e ++ String sep (Join (e' :: rest') (String sep EmptyString))).
    rewrite Split_append_sep by exact He.
    rewrite IH; [reflexivity | discriminate | exact Hrest].
Qed.

Lemma absent_append (c : ascii) (a b : string) :
  absent c a -> absent c b -> absent c (a ++ b).
Proof.
  induction a as [|d a IH]; simpl; [auto|]. intros [Hd Ha] Hb. auto.
Qed.

Lemma absent_substring (c : ascii) (s : string) (n m : nat) :
  absent c s -> absent c (String.substring n m s).
Proof.
  revert n m. induction s as [|d s IH]; intros n m H.
  - destruct n, m; exact I.
  - destruct H as [Hd Hs]. destruct n as [|n].
    + destruct m as [|m]; simpl; [exact I|]. split; [exact Hd | apply IH, Hs].
    + simpl. apply IH, Hs.
Qed.

Lemma link_skipped (issn : string) : skipped (SHERPAURI ++ issn ++ "/").
Proof.
  intros acc. unfold sherpaSegment. reflexivity.
Qed.

Lemma link_absent (issn : string) :
  absent "," issn -> absent "," (SHERPAURI ++ issn ++ "/").
Proof.
  intros H. apply absent_append.
  - vm_compute. repeat split; discriminate.
  - apply absent_append; [exact H | simpl; split; [discriminate | exact I]].
Qed.

Lemma sherpaSegment_links (acc acc' : list string) (issn : string) :
  sherpaSegment acc issn = Some acc' ->
  absent "," issn ->
  Forall (fun l => absent "," l /\ skipped l) acc ->
  Forall (fun l => absent "," l /\ skipped l) acc'.
Proof.
  unfold sherpaSegment. intros H Hissn Hacc.
  destruct (issn =? ""); [inversion H; subst; exact Hacc|].
  destruct (String.get 4 issn) as [b|]; [|discriminate].
  destruct ((string_of_byte b =? "-") && (String.length issn =? 9)%nat).
  - inversion H; subst. apply Forall_app. split; [exact Hacc|].
    constructor; [|constructor]. split; [apply link_absent, Hissn | apply link_skipped].
  - destruct (String.length issn =? 8)%nat; inversion H; subst; [|exact Hacc].
    apply Forall_app. split; [exact Hacc|].
    constructor; [|constructor]. split; [|apply link_skipped].
    apply link_absent. apply absent_append; [apply absent_substring, Hissn|].
    split; [discriminate | apply absent_substring, Hissn].
Qed.

Lemma sherpaRange_links (issnsSplit acc links : list string) :
  sherpaRange issnsSplit acc = Some links ->
  Forall (absent ",") issnsSplit ->
  Forall (fun l => absent "," l /\ skipped l) acc ->
  Forall (fun l => absent "," l /\ skipped l) links.
Proof.
  revert acc. induction issnsSplit as [|issn rest IH]; simpl; intros acc H Hs Hacc.
  - inversion H; subst. exact Hacc.
  - inversion Hs; subst.
    destruct (sherpaSegment acc issn) as [acc'|] eqn:E; [|discriminate].
    eapply IH; eauto using sherpaSegment_links.
Qed.

Lemma sherpaRange_skipped (issnsSplit acc : list string) :
  Forall skipped issnsSplit -> sherpaRange issnsSplit acc = Some acc.
Proof.
  induction 1 as [|issn rest Hissn _ IH]; simpl; [reflexivity|].
  rewrite Hissn. exact IH.
Qed.

(** C5: [makeSherpaLink] on the four inputs of [TestMakeSherpaLink]: the
    empty string gives the empty string, an ISSN with its hyphen gives the
    base followed by the ISSN and a slash, an ISSN of eight characters gets
    its hyphen after the fourth, and ISSNs joined by a comma give the links
    joined by a comma. *)
Theorem makeSherpaLink_test_table :
  makeSherpaLink "" = Some "" /\
  makeSherpaLink "1234-5678" = Some (SHERPAURI ++ "1234-5678/") /\
  makeSherpaLink "12345678" = Some (SHERPAURI ++ "1234-5678/") /\
  makeSherpaLink "12345678,abcd-efgh"
  = Some (SHERPAURI ++ "1234-5678/" ++ "," ++ SHERPAURI ++ "abcd-efgh/").
Proof.
  repeat split; reflexivity.
Qed.

(** C6, as stated, fails: the link of ["1234-5678"] is not mapped to itself
    but to the empty string, so [makeSherpaLink] is not idempotent. *)
Lemma makeSherpaLink_not_idempotent :
  makeSherpaLink "1234-5678" = Some (SHERPAURI ++ "1234-5678/") /\
  makeSherpaLink (SHERPAURI ++ "1234-5678/") = Some "" /\
  ~ (forall s r, makeSherpaLink s = Some r -> makeSherpaLink r = Some r).
Proof.
  split; [reflexivity|]. split; [reflexivity|].
  intros H. specialize (H "1234-5678" _ eq_refl). discriminate H.
Qed.

(** C6, amended: wherever [makeSherpaLink] returns, applying it to what it
    returned gives the empty string: no link is an ISSN. *)
Theorem makeSherpaLink_twice (s r : string) :
  makeSherpaLink s = Some r -> makeSherpaLink r = Some "".
Proof.
  unfold makeSherpaLink at 1.
  destruct (s =? ""); [intros H; inversion H; reflexivity|].
  destruct (sherpaRange (Split s ",") []) as [links|] eqn:E; [|discriminate].
  intros H; inversion H; subst; clear H.
  apply sherpaRange_links in E; [|apply Split_absent|constructor].
  unfold makeSherpaLink.
  destruct (Join links "," =? ""); [reflexivity|].
  destruct links as [|l links]; [reflexivity|].
  rewrite Split_Join; [|discriminate|].
  - rewrite sherpaRange_skipped; [reflexivity|].
    eapply Forall_impl; [|exact E]. intros a [_ Ha]. exact Ha.
  - eapply Forall_impl; [|exact E]. intros a [Ha _]. exact Ha.
Qed.

Lemma makeSherpaLink_twice_witness :
  makeSherpaLink "12345678,abcd-efgh"
  = Some (SHERPAURI ++ "1234-5678/" ++ "," ++ SHERPAURI ++ "abcd-efgh/") /\
  makeSherpaLink (SHERPAURI ++ "1234-5678/" ++ "," ++ SHERPAURI ++ "abcd-efgh/")
  = Some "".
Proof.
  split; [reflexivity|].
  apply (makeSherpaLink_twice "12345678,abcd-efgh"). reflexivity.
Defined.

(** C10: [makeSherpaLink] panics on a non-empty segment of fewer than five
    bytes: [issn[4]] is out of range there, and it is evaluated before the
    length of the segment is looked at.  So the function is not total. *)
Theorem makeSherpaLink_short_segment_panics :
  makeSherpaLink "123" = None /\
  makeSherpaLink "1234-5678,1" = None /\
  sherpaSegment [] "1234" = None /\
  ~ (forall issns, exists r, makeSherpaLink issns = Some r).
Proof.
  repeat split; try reflexivity.
  intros H. destruct (H "123") as [r Hr]. discriminate Hr.
Qed.

(** ** The enrichment client *)

(** C3: in what [doAPIRequest] returns, the transport error and the decode
    error are never both set; with a transport error the status is empty and
    the body is the zero value; with a decode error the status of the
    response is recorded; on success both errors are empty. *)
Theorem doAPIRequest_error_fields (r : getResult) :
  (GETError (doAPIRequest r) = "" \/ JSONDecodeError (doAPIRequest r) = "") /\
  (GETError (doAPIRequest r) <> "" ->
   HTTPStatus (doAPIRequest r) = "" /\
   Body (doAPIRequest r) = zeroAPIResponseBody) /\
  (JSONDecodeError (doAPIRequest r) <> "" ->
   exists status filled err,
     r = GetOK status (DecodeFailed filled err) /\
     HTTPStatus (doAPIRequest r) = status) /\
  (forall status body,
     r = GetOK status (Decoded body) ->
     doAPIRequest r
     = {| HTTPStatus := status; Body := body;
          JSONDecodeError := ""; GETError := "" |}) /\
  (forall err,
     r = GetFailed err ->
     doAPIRequest r
     = {| HTTPStatus := ""; Body := zeroAPIResponseBody;
          JSONDecodeError := ""; GETError := err |}) /\
  (forall status filled err,
     r = GetOK status (DecodeFailed filled err) ->
     doAPIRequest r
     = {| HTTPStatus := status; Body := filled;
          JSONDecodeError := err; GETError := "" |}).
Proof.
  destruct r as [err|status [filled err|body]]; simpl;
    repeat split; auto; try congruence.
  intros _. exists status, filled, err. auto.
Qed.

(** ** The writer's derived fields *)

Lemma weight_nonneg (t : string) : (0 <= weight t)%Z.
Proof.
  unfold weight, attachmentTypeToWeightMap, mapIndex.
  repeat match goal with |- context [if ?b then _ else _] => destruct b end; lia.
Qed.

Lemma fold_attachmentStep_fst (attachments : list AttachmentEntry)
    (artudisOA : bool) (highestLevel : string) :
  fst (fold_left attachmentStep attachments (artudisOA, highestLevel))
  = artudisOA || existsb (fun a => OpenAccess a =? "true") attachments.
Proof.
  revert artudisOA highestLevel.
  induction attachments as [|a rest IH]; intros oa hl; simpl.
  - now rewrite orb_false_r.
  - destruct (OpenAccess a =? "true"); rewrite IH; simpl.
    + now rewrite orb_true_r.
    + reflexivity.
Qed.

(** The label after the loop: the one it started with when no open-access
    attachment ranks above it, else the type of the first open-access
    attachment of the highest rank. *)
Lemma fold_attachmentStep_snd (attachments : list AttachmentEntry)
    (artudisOA : bool) (highestLevel : string) :
  (snd (fold_left attachmentStep attachments (artudisOA, highestLevel))
   = highestLevel /\
   forall a, In a attachments -> OpenAccess a = "true" ->
             (weight (AttachmentType a) <= weight highestLevel)%Z)
  \/
  (exists pre a post,
     attachments = (pre ++ a :: post)%list /\
     OpenAccess a = "true" /\
     snd (fold_left attachmentStep attachments (artudisOA, highestLevel))
     = AttachmentType a /\
     (weight highestLevel < weight (AttachmentType a))%Z /\
     (forall b, In b pre -> OpenAccess b = "true" ->
                (weight (AttachmentType b) < weight (AttachmentType a))%Z) /\
     (forall b, In b post -> OpenAccess b = "true" ->
                (weight (AttachmentType b) <= weight (AttachmentType a))%Z)).
Proof.
  revert artudisOA highestLevel.
  induction attachments as [|a rest IH]; intros oa hl.
  - left. split; [reflexivity | intros a []].
  - cbn [fold_left].
    replace (attachmentStep (oa, hl) a)
      with (if OpenAccess a =? "true"
            then (true,
                  if (weight (AttachmentType a) >? weight hl)%Z
                  then AttachmentType a else hl)
            else (oa, hl)) by reflexivity.
    destruct (OpenAccess a =? "true") eqn:Eoa.
    + apply String.eqb_eq in Eoa.
      destruct (weight (AttachmentType a) >? weight hl)%Z eqn:Ew.
      * apply Z.gtb_lt in Ew.
        destruct (IH true (AttachmentType a))
          as [[Hsame Hall] | (pre & b & post & Hsplit & Hb & Hsnd & Hlt & Hpre & Hpost)].
        -- right. exists [], a, rest.
           split; [reflexivity|]. split; [exact Eoa|]. split; [exact Hsame|].
           split; [exact Ew|]. split; [intros b []|exact Hall].
        -- right. exists (a :: pre), b, post. subst rest.
           split; [reflexivity|]. split; [exact Hb|]. split; [exact Hsnd|].
           split; [lia|]. split; [|exact Hpost].
           intros c [<- | Hc] Hoa; [exact Hlt | now apply Hpre].
      * rewrite Z.gtb_ltb in Ew. apply Z.ltb_ge in Ew.
        destruct (IH true hl)
          as [[Hsame Hall] | (pre & b & post & Hsplit & Hb & Hsnd & Hlt & Hpre & Hpost)].
        -- left. split; [exact Hsame|].
           intros c [<- | Hc] Hoa; [exact Ew | now apply Hall].
        -- right. exists (a :: pre), b, post. subst rest.
           split; [reflexivity|]. split; [exact Hb|]. split; [exact Hsnd|].
           split; [exact Hlt|]. split; [|exact Hpost].
           intros c [<- | Hc] Hoa; [lia | now apply Hpre].
    + apply String.eqb_neq in Eoa.
      destruct (IH oa hl)
        as [[Hsame Hall] | (pre & b & post & Hsplit & Hb & Hsnd & Hlt & Hpre & Hpost)].
      * left. split; [exact Hsame|].
        intros c [<- | Hc] Hoa; [contradiction | now apply Hall].
      * right. exists (a :: pre), b, post. subst rest.
        split; [reflexivity|]. split; [exact Hb|]. split; [exact Hsnd|].
        split; [exact Hlt|]. split; [|exact Hpost].
        intros c [<- | Hc] Hoa; [contradiction | now apply Hpre].
Qed.

(** C4, as stated, fails: an open-access attachment whose type is not on the
    scale leaves the label at "missing". *)
Lemma localOA_missing_despite_open_access :
  localOA [ {| OpenAccess := "true"; BlobKey := "k"; ExternalURL := JNull;
               AttachmentType := "dataset" |} ]
  = (true, "missing") /\
  ~ (forall attachments,
       snd (localOA attachments) = "missing" <->
       (forall a, In a attachments -> OpenAccess a <> "true")).
Proof.
  split; [reflexivity|].
  intros H.
  pose (a := {| OpenAccess := "true"; BlobKey := "k"; ExternalURL := JNull;
                AttachmentType := "dataset" |}).
  destruct (H [a]) as [H1 _].
  apply (H1 eq_refl a); [left; reflexivity | reflexivity].
Qed.

(** C4, amended: [artudisOA] is true exactly when some attachment has
    [open_access] equal to "true"; [highestLevel] is "missing" exactly when
    no open-access attachment has a type of positive rank (so also when none
    is open-access); otherwise it is the type of the first open-access
    attachment whose rank no other open-access attachment exceeds. *)
Theorem localOA_derived_fields (attachments : list AttachmentEntry) :
  (fst (localOA attachments) = true <->
   exists a, In a attachments /\ OpenAccess a = "true") /\
  (snd (localOA attachments) = "missing" <->
   forall a, In a attachments -> OpenAccess a = "true" ->
             weight (AttachmentType a) = 0%Z) /\
  ((forall a, In a attachments -> OpenAccess a <> "true") ->
   localOA attachments = (false, "missing")) /\
  ((exists a, In a attachments /\ OpenAccess a = "true" /\
              (0 < weight (AttachmentType a))%Z) ->
   exists pre a post,
     attachments = (pre ++ a :: post)%list /\
     OpenAccess a = "true" /\
     snd (localOA attachments) = AttachmentType a /\
     (forall b, In b pre -> OpenAccess b = "true" ->
                (weight (AttachmentType b) < weight (AttachmentType a))%Z) /\
     (forall b, In b post -> OpenAccess b = "true" ->
                (weight (AttachmentType b) <= weight (AttachmentType a))%Z)).
Proof.
  unfold localOA.
  assert (Hfst : fst (fold_left attachmentStep attachments (false, "missing")) = true <->
                 exists a, In a attachments /\ OpenAccess a = "true").
  { rewrite fold_attachmentStep_fst. simpl. rewrite existsb_exists.
    split; intros [a [Hin Ha]]; exists a; split; auto; now apply String.eqb_eq. }
  pose proof (fold_attachmentStep_snd attachments false "missing") as Hsnd.
  change (weight "missing") with 0%Z in Hsnd.
  split; [exact Hfst|]. split; [|split].
  - split.
    + intros Hmiss a Hin Hoa.
      destruct Hsnd as [[_ Hall] | (pre & b & post & _ & _ & Hb & Hlt & _)].
      * pose proof (Hall a Hin Hoa). pose proof (weight_nonneg (AttachmentType a)). lia.
      * rewrite Hmiss in Hb. rewrite <- Hb in Hlt. change (weight "missing") with 0%Z in Hlt. lia.
    + intros Hzero.
      destruct Hsnd as [[Hsame _] | (pre & b & post & Hsplit & Hoa & _ & Hlt & _)];
        [exact Hsame|].
      assert (Hin : In b attachments) by (subst; apply in_elt).
      rewrite (Hzero b Hin Hoa) in Hlt. lia.
  - intros Hnone.
    destruct (fold_left attachmentStep attachments (false, "missing"))
      as [oa hl] eqn:E. simpl in *.
    f_equal.
    + destruct oa; [|reflexivity].
      destruct Hfst as [Hfst _]. destruct (Hfst eq_refl) as [a [Hin Ha]].
      destruct (Hnone a Hin Ha).
    + destruct Hsnd as [[Hsame _] | (pre & b & post & Hsplit & Hoa & _)];
        [exact Hsame|].
      destruct (Hnone b); [subst; apply in_elt | exact Hoa].
  - intros [a [Hin [Hoa Hpos]]].
    destruct Hsnd as [[_ Hall] | (pre & b & post & Hsplit & Hb & Hsnd & _ & Hpre & Hpost)].
    + specialize (Hall a Hin Hoa). lia.
    + exists pre, b, post. auto.
Qed.

(** ** The line reader *)

Lemma length_longLine (n : nat) : String.length (longLine n) = n.
Proof.
  induction n as [|n IH]; simpl; [reflexivity | now rewrite IH].
Qed.

Lemma scanLines_short (maxTokenSize : Z) (file : list string) :
  Forall (fun line => (Z.of_nat (String.length line) < maxTokenSize)%Z) file ->
  scanLines maxTokenSize file = (map dropCR file, false).
Proof.
  induction 1 as [|line rest Hline _ IH]; simpl; [reflexivity|].
  apply Z.ltb_lt in Hline. rewrite Hline, IH. reflexivity.
Qed.

Lemma scanLines_stops (maxTokenSize : Z) (pre : list string) (line : string)
    (post : list string) :
  Forall (fun l => (Z.of_nat (String.length l) < maxTokenSize)%Z) pre ->
  (maxTokenSize <= Z.of_nat (String.length line))%Z ->
  scanLines maxTokenSize (pre ++ line :: post)%list = (map dropCR pre, true).
Proof.
  intros Hpre Hline.
  induction Hpre as [|l rest Hl _ IH].
  - cbn [app scanLines map]. apply Z.ltb_ge in Hline. rewrite Hline.
    reflexivity.
  - cbn [app scanLines map]. apply Z.ltb_lt in Hl. rewrite Hl, IH.
    reflexivity.
Qed.

(** A line ends with a carriage return, which [dropCR] takes off, or it
    does not, and [dropCR] leaves it as it is. *)
Lemma dropCR_spec (line : string) :
  (exists body, line = body ++ CR /\ dropCR line = body) \/
  (dropCR line = line /\ forall body, line <> body ++ CR).
Proof.
  induction line as [|c [|d rest] IH].
  - right. split; [reflexivity|]. intros [|? ?]; discriminate.
  - cbn [dropCR]. destruct (Ascii.eqb c "013") eqn:E.
    + apply Ascii.eqb_eq in E. subst c. left. now exists "".
    + right. split; [reflexivity|]. intros [|e [|? ?]] H; try discriminate.
      injection H as ->. now rewrite Ascii.eqb_refl in E.
  - change (dropCR (String c (String d rest)))
      with (String c (dropCR (String d rest))).
    destruct IH as [(body & Hb & Hd) | [Hd Hno]].
    + left. exists (String c body). rewrite Hb at 1. now rewrite Hd.
    + right. rewrite Hd. split; [reflexivity|].
      intros [|e body] H; [discriminate|].
      injection H as -> H. exact (Hno body H).
Qed.

(** C9, as stated, fails: a line of 64 KiB ends the scan of [main.go], and a
    line of 32 MiB that of the revision with the larger buffer; the line and
    the well-formed line after it are never handed to a worker. *)
Lemma scanLines_drops_oversized_line :
  scanLines MaxScanTokenSize [longLine (256 * 256); "{}"] = ([], true) /\
  scanLines bufferedTokenSize [longLine (Z.to_nat bufferedTokenSize); "{}"]
  = ([], true).
Proof.
  split.
  - vm_compute. reflexivity.
  - apply (scanLines_stops bufferedTokenSize []); [constructor|].
    rewrite length_longLine. rewrite Z2Nat.id; [apply Z.le_refl|].
    unfold bufferedTokenSize. lia.
Qed.

(** ** The pipeline *)

Section PipelineProperties.

Variable email : string.
Variable httplimit : Z.
Variable Unmarshal : string -> Publication + string.
Variable maxChanCap : Z.

Local Abbreviation wstep := (wstep email Unmarshal).
Local Abbreviation wrun := (wrun email Unmarshal).
Local Abbreviation step := (step email httplimit Unmarshal).
Local Abbreviation steps := (steps email httplimit Unmarshal).
Local Abbreviation bstep := (bstep email httplimit Unmarshal maxChanCap).
Local Abbreviation bsteps := (bsteps email httplimit Unmarshal maxChanCap).
Local Abbreviation launchedOn := (launchedOn email Unmarshal).
Local Abbreviation lessIdle := (lessIdle Unmarshal).

Local Open Scope Z_scope.

Lemma steps_trans (s1 s2 s3 : state) :
  steps s1 s2 -> steps s2 s3 -> steps s1 s3.
Proof.
  intros H12 H23. induction H23; [exact H12|].
  eapply steps_step; eauto.
Qed.

Lemma steps_one (s1 s2 : state) : step s1 s2 -> steps s1 s2.
Proof.
  intros H. eapply steps_step; [apply steps_refl | exact H].
Qed.

Lemma prefill_tickets (n : nat) : Nat.iter n Z.succ 0 = Z.of_nat n.
Proof.
  induction n as [|n IH]; [reflexivity|].
  rewrite Nat.iter_succ, IH. lia.
Qed.

Lemma processFile_Some (lines : list string) (s : state) :
  processFile httplimit maxChanCap lines = Some s ->
  0 <= httplimit <= maxChanCap /\
  s = St (MScan lines) httplimit [] None false [] [].
Proof.
  unfold processFile.
  destruct (httplimit <? 0) eqn:E; [discriminate|].
  destruct (maxChanCap <? httplimit) eqn:E'; [discriminate|].
  apply Z.ltb_ge in E, E'. intros H. inversion H; subst; clear H.
  rewrite prefill_tickets, Z2Nat.id by exact E. auto.
Qed.

Lemma processFile_starts (lines : list string) :
  0 <= httplimit <= maxChanCap ->
  processFile httplimit maxChanCap lines
  = Some (St (MScan lines) httplimit [] None false [] []).
Proof.
  intros [H1 H2]. unfold processFile.
  apply Z.ltb_ge in H1, H2. rewrite H1, H2. cbn [orb].
  apply Z.ltb_ge in H1. rewrite prefill_tickets, Z2Nat.id by exact H1.
  reflexivity.
Qed.

Lemma inflight_app (ws1 ws2 : list worker) :
  inflight (ws1 ++ ws2)%list = inflight ws1 + inflight ws2.
Proof.
  induction ws1 as [|w ws1 IH]; simpl; [reflexivity|]. rewrite IH. lia.
Qed.

Lemma inflight_nonneg (ws : list worker) : 0 <= inflight ws.
Proof.
  induction ws as [|w ws IH]; simpl; [lia|]. destruct (holding w); lia.
Qed.

Lemma inflight_finished (ws : list worker) :
  forallb finished ws = true -> inflight ws = 0.
Proof.
  induction ws as [|w ws IH]; simpl; [reflexivity|].
  intros H. apply andb_prop in H as [Hw Hws].
  destruct w; try discriminate. simpl. rewrite (IH Hws). reflexivity.
Qed.

(** A step of a worker moves a ticket between the channel and the worker,
    or leaves both alone. *)
Lemma wstep_ticket_balance (w w' : worker) (l : wlabel) (t t' : Z) :
  wstep w l w' ->
  ticketsAfter httplimit l t = Some t' ->
  t' + (if holding w' then 1 else 0) = t + (if holding w then 1 else 0) /\
  (0 <= t <= httplimit -> 0 <= t' <= httplimit).
Proof.
  intros Hw Ht. inversion Hw; subst; simpl in *;
    try (inversion Ht; subst; split; lia).
  - destruct (0 <? t) eqn:E; inversion Ht; subst. apply Z.ltb_lt in E. lia.
  - destruct (t <? httplimit) eqn:E; inversion Ht; subst. apply Z.ltb_lt in E. lia.
Qed.

Lemma step_ticket_balance (s s' : state) :
  step s s' ->
  0 <= tickets s <= httplimit /\ tickets s + inflight (workers s) = httplimit ->
  0 <= tickets s' <= httplimit /\ tickets s' + inflight (workers s') = httplimit.
Proof.
  intros H Hinv.
  inversion H; subst; simpl in *; destruct Hinv as [Hb Hsum]; auto.
  - rewrite inflight_app. simpl. lia.
  - rewrite inflight_app in *. simpl in *.
    match goal with
    | Hw : wstep _ _ _, Ht : ticketsAfter _ _ _ = _ |- _ =>
        destruct (wstep_ticket_balance _ _ _ _ _ Hw Ht) as [Hbal Hrange]
    end.
    split; [auto | lia].
  - rewrite inflight_app in *. simpl in *.
    match goal with
    | Hw : wstep _ (LSend _) _ |- _ => inversion Hw; subst
    end.
    simpl in *. lia.
Qed.

Lemma steps_ticket_balance (lines : list string) (s0 s : state) :
  processFile httplimit maxChanCap lines = Some s0 ->
  steps s0 s ->
  0 <= tickets s <= httplimit /\ tickets s + inflight (workers s) = httplimit.
Proof.
  intros H0 Hs. apply processFile_Some in H0 as [Hn ->].
  induction Hs as [|s1 s2 _ IH Hstep].
  - simpl. lia.
  - eapply step_ticket_balance; eauto.
Qed.

(** C1: in every state that a run of one file reaches, the tickets in
    [ticketToHTTP] are between 0 and [httplimit], the lookups that hold a
    ticket are at most [httplimit], and tickets and holders add up to
    [httplimit]; a worker at a return of [doAPIRequest] can always hand its
    ticket back; once every worker has returned all the tickets are back;
    and a call of [doAPIRequest] takes one ticket and gives one back whatever
    the request does. *)
Theorem gate_tickets_bounded (lines : list string) (s0 s : state) :
  processFile httplimit maxChanCap lines = Some s0 ->
  steps s0 s ->
  0 <= tickets s <= httplimit /\
  0 <= inflight (workers s) <= httplimit /\
  tickets s + inflight (workers s) = httplimit /\
  (forall ws1 record rest apiResponse ws2,
     workers s = (ws1 ++ WReturn record rest apiResponse :: ws2)%list ->
     exists s',
       step s s' /\
       tickets s' = tickets s + 1 /\
       workers s'
       = (ws1 ++ WRange (appendResponse record apiResponse) rest :: ws2)%list) /\
  (forallb finished (workers s) = true -> tickets s = httplimit) /\
  (forall record rest doi r,
     wrun (WTicket record rest doi)
       [LAcquire; LGet (requestURL email doi) r; LRelease]
       (WRange (appendResponse record (doAPIRequest r)) rest)) /\
  (forall record rest doi tr w,
     wrun (WTicket record rest doi) tr w ->
     List.length tr = 3%nat ->
     gateOps tr = [LAcquire; LRelease] /\
     exists r,
       tr = [LAcquire; LGet (requestURL email doi) r; LRelease] /\
       w = WRange (appendResponse record (doAPIRequest r)) rest).
Proof.
  intros H0 Hs.
  destruct (steps_ticket_balance _ _ _ H0 Hs) as [Hb Hsum].
  pose proof (inflight_nonneg (workers s)) as Hnn.
  split; [exact Hb|]. split; [lia|]. split; [exact Hsum|].
  split; [|split; [|split]].
  - intros ws1 record rest apiResponse ws2 Hws.
    destruct s as [m t ws o c rows lg]. simpl in *. subst ws.
    rewrite inflight_app in Hsum. cbn [inflight holding] in Hsum.
    pose proof (inflight_nonneg ws1). pose proof (inflight_nonneg ws2).
    eexists. split.
    + eapply s_worker; [apply w_return|].
      simpl. destruct (t <? httplimit) eqn:E; [reflexivity|].
      apply Z.ltb_ge in E. exfalso. lia.
    + simpl. auto.
  - intros Hfin. rewrite (inflight_finished _ Hfin) in Hsum. lia.
  - intros record rest doi r.
    repeat (econstructor; try apply w_ticket; try apply w_get; try apply w_return).
  - intros record rest doi tr w Hrun Hlen.
    destruct tr as [|l1 [|l2 [|l3 [|l4 tr]]]]; try discriminate.
    inversion Hrun as [|? ? ? ? ? H1 Hrun1]; subst.
    inversion H1; subst.
    inversion Hrun1 as [|? ? ? ? ? H2 Hrun2]; subst.
    inversion H2; subst.
    inversion Hrun2 as [|? ? ? ? ? H3 Hrun3]; subst.
    inversion H3; subst.
    inversion Hrun3; subst.
    split; [reflexivity|]. eexists; eauto.
Qed.

(** *** What a worker publishes *)

Lemma wrun_app (w1 w2 w3 : worker) (tr1 tr2 : list wlabel) :
  wrun w1 tr1 w2 -> wrun w2 tr2 w3 -> wrun w1 (tr1 ++ tr2)%list w3.
Proof.
  induction 1 as [|? ? ? ? ? Hstep _ IH]; intros H2; [exact H2|].
  simpl. econstructor; [exact Hstep | exact (IH H2)].
Qed.

Lemma wrun_done (tr : list wlabel) (w : worker) :
  wrun WDone tr w -> tr = [] /\ w = WDone.
Proof.
  intros H. inversion H as [|? ? ? ? ? Hstep _]; subst; [auto|].
  inversion Hstep.
Qed.

Lemma wrun_send (record record' : EnrichedRecord) (tr : list wlabel) :
  wrun (WSend record) tr (WSend record') -> tr = [] /\ record' = record.
Proof.
  intros H. inversion H as [|? ? ? ? ? Hstep Hrest]; subst; [auto|].
  inversion Hstep; subst. apply wrun_done in Hrest as [_ Heq]. discriminate Heq.
Qed.

(** From the head of the loop over the identifiers to the send: one
    request for each identifier of scheme "doi" that is left, in order, and
    one response appended for each. *)
Lemma wrun_range (rest : list IdentifierEntry) (record record' : EnrichedRecord)
    (tr : list wlabel) :
  wrun (WRange record rest) tr (WSend record') ->
  exists rs,
    List.length rs
    = List.length (filter isDoi rest) /\
    Pub record' = Pub record /\
    APIResponses record' = (APIResponses record ++ map doAPIRequest rs)%list /\
    requests tr
    = combine
        (map (fun i => requestURL email (Value i))
           (filter isDoi rest))
        rs /\
    gateOps tr
    = flat_map (fun _ => [LAcquire; LRelease]) rs.
Proof.
  revert record tr. induction rest as [|identifier rest IH]; intros record tr H.
  - inversion H as [|? ? ? ? ? Hstep Hrest]; subst.
    inversion Hstep; subst.
    apply wrun_send in Hrest as [-> ->].
    exists []. simpl. rewrite app_nil_r. auto.
  - inversion H as [|? ? ? ? ? Hstep Hrest]; subst.
    inversion Hstep as [| |? ? ? Hs|? ? ? Hs| | | | |]; subst; cbn [filter]; rewrite Hs.
    + apply IH in Hrest as (rs & Hlen & Hpub & Hresp & Hreq & Hgate).
      exists rs. auto.
    + inversion Hrest as [|? ? ? ? ? Hstep1 Hrest1]; subst.
      inversion Hstep1; subst.
      inversion Hrest1 as [|? ? ? ? ? Hstep2 Hrest2]; subst.
      inversion Hstep2; subst.
      inversion Hrest2 as [|? ? ? ? ? Hstep3 Hrest3]; subst.
      inversion Hstep3; subst.
      apply IH in Hrest3 as (rs & Hlen & Hpub & Hresp & Hreq & Hgate).
      exists (r :: rs). simpl in *.
      rewrite Hlen, Hpub, Hresp, Hreq, Hgate, <- app_assoc. auto.
Qed.

(** Whatever the requests do, the worker gets from the head of the loop to
    the send. *)
Lemma wrun_range_exists (rest : list IdentifierEntry) (record : EnrichedRecord)
    (rs : list getResult) :
  List.length rs
  = List.length (filter isDoi rest) ->
  exists tr,
    wrun (WRange record rest) tr
      (WSend {| Pub := Pub record;
                APIResponses
                := (APIResponses record ++ map doAPIRequest rs)%list |}).
Proof.
  revert record rs. induction rest as [|identifier rest IH]; intros record rs Hlen.
  - destruct rs; [|discriminate]. simpl. rewrite app_nil_r.
    exists [LTau]. econstructor; [apply w_range_end|].
    destruct record; apply wrun_nil.
  - cbn [filter] in Hlen. destruct (isDoi identifier) eqn:Hs.
    + destruct rs as [|r rs]; [discriminate|]. simpl in Hlen.
      injection Hlen as Hlen.
      destruct (IH (appendResponse record (doAPIRequest r)) rs Hlen) as [tr Htr].
      exists (LTau :: LAcquire :: LGet (requestURL email (Value identifier)) r
                :: LRelease :: tr).
      econstructor; [apply w_range_doi, Hs|].
      econstructor; [apply w_ticket|].
      econstructor; [apply w_get|].
      econstructor; [apply w_return|].
      simpl in Htr. rewrite <- app_assoc in Htr. exact Htr.
    + destruct (IH record rs Hlen) as [tr Htr].
      exists (LTau :: tr). econstructor; [apply w_range_other, Hs | exact Htr].
Qed.

(** *** What the writer does with one record *)

Lemma orun_done (tr : list olabel) (o : writerpc) :
  orun ODone tr o -> tr = [] /\ o = ODone.
Proof.
  intros H. inversion H as [|? ? ? ? ? Hstep _]; subst; [auto|].
  inversion Hstep.
Qed.

(** The loop over the responses of a record, run by the writer on its own
    until it is back at the range or has returned: every row is written and
    the writer is back at the range, or a write fails after fewer rows and
    the writer has returned. *)
Lemma orun_rows (record : EnrichedRecord) (artudisOA : bool)
    (highestLevel : string) (rest : list APIResponse) (tr : list olabel)
    (o : writerpc) :
  orun (ORows record artudisOA highestLevel rest) tr o ->
  forallb ownStep tr = true ->
  o = ORange \/ o = ODone ->
  (o = ORange /\
   written tr = map (toCSVOutput record artudisOA highestLevel) rest) \/
  (o = ODone /\
   exists n err,
     (n < List.length rest)%nat /\
     In (LWriteErr err) tr /\
     written tr
     = firstn n (map (toCSVOutput record artudisOA highestLevel) rest)).
Proof.
  revert tr. induction rest as [|apiresponse rest IH]; intros tr H Hown Ho.
  - inversion H as [|? ? ? ? ? Hstep Hrest]; subst; [destruct Ho; discriminate|].
    inversion Hstep; subst.
    inversion Hrest as [|? ? ? ? ? Hstep1 _]; subst; [left; auto|].
    inversion Hstep1; subst; discriminate Hown.
  - inversion H as [|? ? ? ? ? Hstep Hrest]; subst; [destruct Ho; discriminate|].
    simpl in Hown. apply andb_prop in Hown as [_ Hown].
    inversion Hstep; subst.
    + destruct (IH _ Hrest Hown Ho) as [[-> Hw] | [-> (n & err & Hn & Hin & Hw)]].
      * left. split; [reflexivity|]. unfold written in *. simpl. now rewrite Hw.
      * right. split; [reflexivity|]. exists (S n), err.
        split; [simpl; lia|]. split; [now right|].
        unfold written in *. simpl. now rewrite Hw.
    + apply orun_done in Hrest as [-> ->].
      right. split; [reflexivity|]. exists 0%nat, err.
      split; [simpl; lia|]. split; [now left | reflexivity].
Qed.

Lemma orun_rows_exists (record : EnrichedRecord) (artudisOA : bool)
    (highestLevel : string) (rest : list APIResponse) :
  orun (ORows record artudisOA highestLevel rest)
    (map (fun a => LWrite (toCSVOutput record artudisOA highestLevel a)) rest
     ++ [LNext])%list
    ORange.
Proof.
  induction rest as [|a rest IH]; simpl.
  - econstructor; [apply o_next | apply orun_nil].
  - econstructor; [apply o_write | exact IH].
Qed.

(** *** One worker for every line *)

Lemma launchedOn_step (line : string) (w w' : worker) (l : wlabel) :
  launchedOn line w -> wstep w l w' -> launchedOn line w'.
Proof.
  intros [tr Htr] Hstep. exists (tr ++ [l])%list.
  eapply wrun_app; [exact Htr|]. econstructor; [exact Hstep | apply wrun_nil].
Qed.

Lemma Forall2_launchedOn_step (done : list string) (ws1 ws2 : list worker)
    (w w' : worker) (l : wlabel) :
  Forall2 launchedOn done (ws1 ++ w :: ws2)%list ->
  wstep w l w' ->
  Forall2 launchedOn done (ws1 ++ w' :: ws2)%list.
Proof.
  intros H Hstep.
  apply Forall2_app_inv_r in H as (d1 & d2 & H1 & H2 & ->).
  inversion H2 as [|line ? d2' ? Hw H2']; subst.
  apply Forall2_app; [exact H1|].
  constructor; [eapply launchedOn_step; eauto | exact H2'].
Qed.

Lemma step_launched (lines : list string) (s s' : state) :
  step s s' ->
  (exists done,
      lines = (done ++ toScan (main s))%list /\
      Forall2 launchedOn done (workers s)) ->
  exists done,
    lines = (done ++ toScan (main s'))%list /\
    Forall2 launchedOn done (workers s').
Proof.
  intros H [done [Hlines Hall]].
  inversion H; subst; simpl in *;
    try (exists done; split; [reflexivity|]; eauto using Forall2_launchedOn_step; fail).
  exists (done ++ [line])%list. split.
  - now rewrite <- app_assoc.
  - apply Forall2_app; [exact Hall|].
    constructor; [exists []; apply wrun_nil | constructor].
Qed.

Lemma steps_launched (lines : list string) (s0 s : state) :
  processFile httplimit maxChanCap lines = Some s0 ->
  steps s0 s ->
  exists done,
    lines = (done ++ toScan (main s))%list /\
    Forall2 launchedOn done (workers s).
Proof.
  intros H0 Hs. apply processFile_Some in H0 as [_ ->].
  induction Hs as [|s1 s2 _ IH Hstep].
  - exists []. split; [reflexivity | constructor].
  - eapply step_launched; eauto.
Qed.

(** The loop over [fileScanner.Scan()] can hand the next lines to workers. *)
Lemma steps_go_prefix (pre rest : list string) (t : Z) (ws : list worker)
    (o : option writerpc) (c : bool) (rows : list (list string))
    (lg : list string) :
  steps (St (MScan (pre ++ rest)) t ws o c rows lg)
    (St (MScan rest) t (ws ++ map WUnmarshal pre)%list o c rows lg).
Proof.
  revert ws. induction pre as [|line pre IH]; intros ws.
  - simpl. rewrite app_nil_r. apply steps_refl.
  - eapply steps_trans; [apply steps_one, s_go_line|].
    replace (ws ++ map WUnmarshal (line :: pre))%list
      with ((ws ++ [WUnmarshal line]) ++ map WUnmarshal pre)%list
      by (rewrite <- app_assoc; reflexivity).
    apply IH.
Qed.

(** C9, amended: when every line of the file, with its carriage return when
    it has one, is shorter than the maximal token size of the scanner, the
    scanner delivers every line, whole but for a carriage return at its
    end, and in every state of the run the lines delivered so far have one
    worker each, launched on that token, in order; all of them can be
    launched.  A line that reaches the maximal token size ends the scan:
    neither it nor a line after it is delivered. *)
Theorem short_lines_dispatched (maxTokenSize : Z) (file : list string)
    (s0 : state) :
  Forall (fun line => Z.of_nat (String.length line) < maxTokenSize) file ->
  processFile httplimit maxChanCap (fst (scanLines maxTokenSize file))
  = Some s0 ->
  scanLines maxTokenSize file = (map dropCR file, false) /\
  (forall line,
     (exists body, line = (body ++ CR)%string /\ dropCR line = body) \/
     (dropCR line = line /\ forall body, line <> (body ++ CR)%string)) /\
  (forall s,
     steps s0 s ->
     exists done,
       map dropCR file = (done ++ toScan (main s))%list /\
       Forall2 launchedOn done (workers s)) /\
  (exists s,
     steps s0 s /\ main s = MScan [] /\
     workers s = map WUnmarshal (map dropCR file)) /\
  (forall line rest,
     maxTokenSize <= Z.of_nat (String.length line) ->
     scanLines maxTokenSize (file ++ line :: rest)%list
     = (map dropCR file, true)).
Proof.
  intros Hshort H0.
  pose proof (scanLines_short _ _ Hshort) as Hscan.
  rewrite Hscan in H0. simpl in H0.
  split; [exact Hscan|]. split; [exact dropCR_spec|]. split; [|split].
  - intros s Hs. eapply steps_launched; eauto.
  - apply processFile_Some in H0 as [_ ->].
    pose proof (steps_go_prefix (map dropCR file) [] httplimit [] None false
                  [] []) as Hgo.
    rewrite app_nil_r in Hgo.
    eexists. split; [exact Hgo|]. simpl. auto.
  - intros line rest Hlong. now apply scanLines_stops.
Qed.
(** *** What a step does to the rows *)

Lemma wrun_published (line : string) (tr : list wlabel)
    (record : EnrichedRecord) :
  wrun (WUnmarshal line) tr (WSend record) ->
  exists publication rs,
    Unmarshal line = inl publication /\
    List.length rs = List.length (doiIdentifiers publication) /\
    record = {| Pub := publication; APIResponses := map doAPIRequest rs |}.
Proof.
  intros H. inversion H as [|? ? ? ? ? Hstep Hrest]; subst.
  inversion Hstep as [? ? Herr|? ? Hok| | | | | | |]; subst.
  - inversion Hrest as [|? ? ? ? ? Hstep' _]; subst. inversion Hstep'.
  - apply wrun_range in Hrest as (rs & Hlen & Hp & Hresp & _).
    exists publication, rs. split; [exact Hok|]. split; [exact Hlen|].
    destruct record as [p resps]. simpl in *. now subst.
Qed.

Lemma launched_published (lines done : list string) (m : mainpc)
    (ws1 ws2 : list worker) (record : EnrichedRecord) :
  lines = (done ++ toScan m)%list ->
  Forall2 launchedOn done (ws1 ++ WSend record :: ws2)%list ->
  publishedFrom Unmarshal lines record.
Proof.
  intros Hlines Hall.
  apply Forall2_app_inv_r in Hall as (d1 & d2 & _ & H2 & ->).
  inversion H2 as [|line ? d2' ? [tr Htr] _]; subst.
  apply wrun_published in Htr as (publication & rs & Hdec & Hlen & ->).
  exists line, publication, rs. repeat split; auto.
  apply in_or_app. left. apply in_or_app. right. now left.
Qed.

Lemma In_firstn {A : Type} (x : A) (n : nat) (l : list A) :
  In x (firstn n l) -> In x l.
Proof.
  revert l. induction n as [|n IH]; intros l; destruct l as [|y l]; simpl;
    try contradiction.
  intros [H | H]; auto.
Qed.

Lemma firstn_map_prefix {A B : Type} (f : A -> B) (done rest : list A) :
  map f done = firstn (List.length done) (map f (done ++ rest)).
Proof.
  rewrite map_app, firstn_app, length_map, Nat.sub_diag. simpl.
  rewrite app_nil_r, <- (length_map f done). symmetry. apply firstn_all.
Qed.

Lemma step_accounted (lines : list string) (s s' : state)
    (hd : list (list string)) (recs : list EnrichedRecord)
    (cur : list (list string)) :
  (exists done,
      lines = (done ++ toScan (main s))%list /\
      Forall2 launchedOn done (workers s)) ->
  accounted Unmarshal lines s hd recs cur ->
  step s s' ->
  exists hd' recs' cur', accounted Unmarshal lines s' hd' recs' cur'.
Proof.
  intros [done [Hlines Hall]] (Hrows & Hhd & Hrecs & Hw) Hstep.
  unfold accounted.
  inversion Hstep; subst; simpl in *;
    try (exists hd, recs, cur; repeat split; auto; fail).
  - (* the writer is launched *)
    exists hd, recs, cur. repeat split; auto; apply Hw.
  - (* a record is handed to the writer *)
    match goal with Hs : wstep _ (LSend _) _ |- _ => inversion Hs; subst end.
    match goal with Ho : ostep _ (LRecv _) _ |- _ => inversion Ho; subst end.
    subst cur. exists hd, recs, [].
    split; [reflexivity|]. split; [exact Hhd|]. split; [exact Hrecs|].
    split; [eapply launched_published; eauto|].
    split; [reflexivity|]. split; [reflexivity|]. now exists [].
  - (* the writer steps *)
    match goal with Ho : ostep _ _ _ |- _ => inversion Ho; subst end;
      simpl in *; try discriminate.
    + (* the header *)
      destruct Hw as (-> & -> & ->). simpl.
      match goal with |- context [if ?b then _ else _] => destruct b end.
      * exists [header], [], []. repeat split; auto.
      * exists [], [], []. repeat split; auto.
    + (* a row *)
      destruct Hw as (Hpub & -> & -> & done' & Hdone & ->).
      exists hd, recs,
        (map (toCSVOutput record
                (fst (localOA (Attachment (Pub record))))
                (snd (localOA (Attachment (Pub record)))))
           (done' ++ [apiresponse]))%list.
      split; [rewrite map_app, <- !app_assoc; reflexivity|].
      split; [exact Hhd|]. split; [exact Hrecs|].
      split; [exact Hpub|]. split; [reflexivity|]. split; [reflexivity|].
      exists (done' ++ [apiresponse])%list. split; [|reflexivity].
      now rewrite <- app_assoc.
    + (* a failed write *)
      destruct Hw as (Hpub & -> & -> & done' & Hdone & ->).
      exists hd, recs,
        (map (toCSVOutput record
                (fst (localOA (Attachment (Pub record))))
                (snd (localOA (Attachment (Pub record)))))
           done').
      split; [now rewrite app_nil_r|].
      split; [exact Hhd|]. split; [exact Hrecs|].
      right. exists record, (List.length done'). split; [exact Hpub|].
      unfold rowsFor. rewrite Hdone. apply firstn_map_prefix.
    + (* the record is through *)
      destruct Hw as (Hpub & -> & -> & done' & Hdone & ->).
      rewrite app_nil_r in Hdone. subst done'.
      exists hd, (recs ++ [record])%list, [].
      split.
      * rewrite flat_map_app. simpl. rewrite !app_nil_r.
        rewrite <- ?app_assoc. reflexivity.
      * split; [exact Hhd|]. split; [|reflexivity].
        apply Forall_app. split; [exact Hrecs|]. now constructor.
    + (* the flush *)
      subst cur. exists hd, recs, []. rewrite !app_nil_r.
      repeat split; auto.
  - (* the writer finds output closed *)
    match goal with Ho : ostep _ LClosed _ |- _ => inversion Ho; subst end.
    exists hd, recs, cur. repeat split; auto.
Qed.

(** *** What a step does to the log *)

Lemma wrun_to_unmarshal (w0 : worker) (tr : list wlabel) (line : string) :
  wrun w0 tr (WUnmarshal line) -> w0 = WUnmarshal line /\ tr = [].
Proof.
  remember (WUnmarshal line) as w eqn:Hw.
  induction 1 as [|? ? ? ? ? Hstep _ IH]; [auto|].
  destruct (IH Hw) as [-> _]. subst. inversion Hstep.
Qed.

Lemma accountedLog_more (lg more : list string) (line : string) (w : worker) :
  accountedLog email Unmarshal lg line w ->
  accountedLog email Unmarshal (lg ++ more) line w.
Proof.
  intros [Hl Hd]. split; [exact Hl|].
  intros Hw err Herr. apply in_or_app. left. now apply Hd.
Qed.

Lemma accountedLog_wstep (lg : list string) (line : string) (w w' : worker)
    (l : wlabel) :
  accountedLog email Unmarshal lg line w ->
  wstep w l w' ->
  accountedLog email Unmarshal (lg ++ wlogOf l) line w'.
Proof.
  intros [Hl _] Hstep. split; [eapply launchedOn_step; eauto|].
  intros Hw err Herr. subst w'.
  inversion Hstep; subst.
  - destruct Hl as [tr Htr]. apply wrun_to_unmarshal in Htr as [Heq _].
    injection Heq as <-.
    match goal with H : Unmarshal _ = inr _ |- _ => rewrite Herr in H; injection H as <- end.
    apply in_or_app. right. now left.
  - destruct Hl as [tr Htr].
    apply wrun_published in Htr as (p & rs & Hdec & _). congruence.
Qed.

Lemma Forall2_accountedLog_step (lg : list string) (done : list string)
    (ws1 ws2 : list worker) (w w' : worker) (l : wlabel) :
  Forall2 (accountedLog email Unmarshal lg) done (ws1 ++ w :: ws2)%list ->
  wstep w l w' ->
  Forall2 (accountedLog email Unmarshal (lg ++ wlogOf l)) done
    (ws1 ++ w' :: ws2)%list.
Proof.
  intros H Hstep.
  apply Forall2_app_inv_r in H as (d1 & d2 & H1 & H2 & ->).
  inversion H2 as [|line ? d2' ? Hw H2']; subst.
  apply Forall2_app.
  - eapply Forall2_impl; [|exact H1]. intros; now apply accountedLog_more.
  - constructor; [eapply accountedLog_wstep; eauto|].
    eapply Forall2_impl; [|exact H2']. intros; now apply accountedLog_more.
Qed.

Lemma finished_no_step (ws1 ws2 : list worker) (w w' : worker) (l : wlabel) :
  forallb finished (ws1 ++ w :: ws2) = true -> wstep w l w' -> False.
Proof.
  rewrite forallb_app. simpl. intros H Hstep.
  apply andb_prop in H as [_ H]. apply andb_prop in H as [H _].
  destruct w; try discriminate. inversion Hstep.
Qed.

Lemma step_accountedLog (lines : list string) (s s' : state) :
  step s s' ->
  (exists done,
      lines = (done ++ toScan (main s))%list /\
      Forall2 (accountedLog email Unmarshal (logged s)) done (workers s)) /\
  (main s = MWaitOutput \/ main s = MDone ->
   forallb finished (workers s) = true) ->
  (exists done,
      lines = (done ++ toScan (main s'))%list /\
      Forall2 (accountedLog email Unmarshal (logged s')) done (workers s')) /\
  (main s' = MWaitOutput \/ main s' = MDone ->
   forallb finished (workers s') = true).
Proof.
  intros H [[done [Hlines Hall]] Hfin].
  inversion H; subst; simpl in *.
  - split; [|intros [Hm | Hm]; discriminate Hm].
    exists (done ++ [line])%list. split; [now rewrite <- app_assoc|].
    apply Forall2_app; [exact Hall|].
    constructor; [|constructor].
    split; [exists []; apply wrun_nil | discriminate].
  - split; [eauto | intros [Hm | Hm]; discriminate Hm].
  - split.
    + exists done. split; [reflexivity|].
      eapply Forall2_accountedLog_step; eauto.
    + intros Hm. exfalso. eapply finished_no_step; eauto.
  - split.
    + exists done. split; [reflexivity|].
      rewrite <- (app_nil_r lg).
      eapply (Forall2_accountedLog_step lg done ws1 ws2 w w' (LSend record)); eauto.
    + intros Hm. exfalso. eapply finished_no_step; eauto.
  - split; [eauto | auto].
  - split; [|exact Hfin].
    exists done. split; [reflexivity|].
    eapply Forall2_impl; [|exact Hall]. intros; now apply accountedLog_more.
  - split; [eauto | exact Hfin].
  - split; [eauto | intros _; apply Hfin; now left].
Qed.

Lemma steps_malformed_logged (lines : list string) (s : state) :
  steps (St (MScan lines) httplimit [] None false [] []) s ->
  main s = MWaitOutput \/ main s = MDone ->
  forall line err,
    In line lines -> Unmarshal line = inr err -> In err (logged s).
Proof.
  intros Hs Hm line err Hin Herr.
  assert (Hinv :
    (exists done,
        lines = (done ++ toScan (main s))%list /\
        Forall2 (accountedLog email Unmarshal (logged s)) done (workers s)) /\
    (main s = MWaitOutput \/ main s = MDone ->
     forallb finished (workers s) = true)).
  { clear Hm. induction Hs as [|s1 s2 _ IH Hstep].
    - split; [|intros [Hm | Hm]; discriminate Hm].
      exists []. split; [reflexivity | constructor].
    - eapply step_accountedLog; eauto. }
  destruct Hinv as [[done [Hlines Hall]] Hfin].
  specialize (Hfin Hm).
  assert (Hscan : toScan (main s) = []) by (destruct Hm as [-> | ->]; reflexivity).
  rewrite Hscan, app_nil_r in Hlines. subst done.
  clear Hs Hm Hscan. revert Hfin.
  induction Hall as [|l w ls ws [_ Hw] _ IH]; [destruct Hin|].
  simpl. intros Hf. apply andb_prop in Hf as [Hwf Hf].
  destruct Hin as [-> | Hin]; [|now apply IH].
  apply Hw; [|exact Herr]. destruct w; try discriminate. reflexivity.
Qed.


(** *** The records that the writer receives *)

Lemma settled_app (d1 d2 : list string) (ws1 ws2 : list worker)
    (s1 s2 : list EnrichedRecord) :
  settled email Unmarshal d1 ws1 s1 ->
  settled email Unmarshal d2 ws2 s2 ->
  settled email Unmarshal (d1 ++ d2)%list (ws1 ++ ws2)%list (s1 ++ s2)%list.
Proof.
  induction 1; intros H2; simpl; [exact H2 | |];
    constructor; auto.
Qed.

Lemma settled_split (ws1 : list worker) :
  forall (done : list string) (w : worker) (ws2 : list worker)
         (sent : list EnrichedRecord),
    settled email Unmarshal done (ws1 ++ w :: ws2)%list sent ->
    exists d1 line d2 s1 s2,
      done = (d1 ++ line :: d2)%list /\
      settled email Unmarshal d1 ws1 s1 /\
      settled email Unmarshal d2 ws2 s2 /\
      ((sent = (s1 ++ s2)%list /\
        launchedOn line w /\
        (w = WDone -> wellformed Unmarshal line = false)) \/
       (exists record,
          w = WDone /\ sent = (s1 ++ record :: s2)%list /\
          publishedOn Unmarshal line record)).
Proof.
  induction ws1 as [|w1 ws1 IH]; intros done w ws2 sent H; simpl in H.
  - inversion H as [|line record done' ws' sent' Hpub Hrest
                    |line w' done' ws' sent' Hl Hd Hrest]; subst.
    + exists [], line, done', [], sent'. split; [reflexivity|].
      split; [constructor|]. split; [exact Hrest|].
      right. exists record. auto.
    + exists [], line, done', [], sent. split; [reflexivity|].
      split; [constructor|]. split; [exact Hrest|]. left. auto.
  - inversion H as [|line record done' ws' sent' Hpub Hrest
                    |line w' done' ws' sent' Hl Hd Hrest]; subst.
    + destruct (IH _ _ _ _ Hrest)
        as (d1 & line' & d2 & s1 & s2 & -> & H1 & H2 & Hcase).
      exists (line :: d1), line', d2, (record :: s1), s2.
      split; [reflexivity|]. split; [now constructor|]. split; [exact H2|].
      destruct Hcase as [(-> & Hl & Hd) | (record' & -> & -> & Hp)].
      * left. auto.
      * right. exists record'. auto.
    + destruct (IH _ _ _ _ Hrest)
        as (d1 & line' & d2 & s1 & s2 & -> & H1 & H2 & Hcase).
      exists (line :: d1), line', d2, s1, s2.
      split; [reflexivity|]. split; [now constructor|]. split; [exact H2|].
      exact Hcase.
Qed.

(** The records sent are records of the lines. *)
Lemma settled_published (done : list string) (ws : list worker)
    (sent : list EnrichedRecord) :
  settled email Unmarshal done ws sent ->
  Forall (fun record =>
            exists line, In line done /\ publishedOn Unmarshal line record)
    sent.
Proof.
  induction 1 as [|line record done ws sent Hpub _ IH
                  |line w done ws sent _ _ _ IH].
  - constructor.
  - constructor; [exists line; split; [now left | exact Hpub]|].
    eapply Forall_impl; [|exact IH].
    intros r (l & Hin & Hp). exists l. split; [now right | exact Hp].
  - eapply Forall_impl; [|exact IH].
    intros r (l & Hin & Hp). exists l. split; [now right | exact Hp].
Qed.

(** Once every worker has returned, the records sent are those of the
    lines that decode, one each. *)
Lemma settled_finished (done : list string) (ws : list worker)
    (sent : list EnrichedRecord) :
  settled email Unmarshal done ws sent ->
  forallb finished ws = true ->
  Forall2 (publishedOn Unmarshal) (filter (wellformed Unmarshal) done) sent.
Proof.
  induction 1 as [|line record done ws sent Hpub _ IH
                  |line w done ws sent _ Hd _ IH]; simpl; intros Hfin.
  - constructor.
  - pose proof Hpub as (publication & rs & Hdec & _).
    unfold wellformed at 1. rewrite Hdec. constructor; auto.
  - apply andb_prop in Hfin as [Hw Hfin].
    destruct w; try discriminate. rewrite (Hd eq_refl). auto.
Qed.

Lemma publishedOn_rows (line : string) (record : EnrichedRecord) :
  publishedOn Unmarshal line record ->
  List.length (rowsFor record)
  = List.length (doiIdentifiers (Pub record)).
Proof.
  intros (publication & rs & _ & Hlen & ->).
  unfold rowsFor. simpl. now rewrite !length_map.
Qed.

(** Steps that leave the writer and the rows alone keep the account of
    the rows, also when they add to the log. *)
Lemma writerRows_other (m m' : mainpc) (t t' : Z) (ws ws' : list worker)
    (o : option writerpc) (c c' : bool) (rows : list (list string))
    (lg more : list string) (hd : list (list string))
    (recs : list EnrichedRecord) (held : option EnrichedRecord)
    (cur : list (list string)) :
  writerRows (St m t ws o c rows lg) hd recs held cur ->
  writerRows (St m' t' ws' o c' rows (lg ++ more)%list) hd recs held cur.
Proof.
  unfold writerRows. simpl. intros (Hrows & Hhd & Hw).
  split; [exact Hrows|]. split; [exact Hhd|].
  destruct o as [[| | | |]|]; auto.
  destruct Hw as [Hw | (record & done & a & rest & err & H1 & H2 & H3 & H4)];
    [now left|].
  right. exists record, done, a, rest, err. repeat split; auto.
  apply in_or_app. now left.
Qed.

Lemma step_tallied (lines : list string) (s s' : state) :
  step s s' ->
  (exists done sent hd recs held cur,
      lines = (done ++ toScan (main s))%list /\
      settled email Unmarshal done (workers s) sent /\
      Permutation sent (recs ++ inHand held)%list /\
      writerRows s hd recs held cur) /\
  (main s = MWaitOutput \/ main s = MDone ->
   forallb finished (workers s) = true) ->
  (exists done sent hd recs held cur,
      lines = (done ++ toScan (main s'))%list /\
      settled email Unmarshal done (workers s') sent /\
      Permutation sent (recs ++ inHand held)%list /\
      writerRows s' hd recs held cur) /\
  (main s' = MWaitOutput \/ main s' = MDone ->
   forallb finished (workers s') = true).
Proof.
  intros Hstep [(done & sent & hd & recs & held & cur & Hlines & Hset & Hperm
                 & Hacc) Hfin].
  inversion Hstep; subst; simpl in *.
  - (* a line is handed to a new worker *)
    split; [|intros [Hm | Hm]; discriminate Hm].
    exists (done ++ [line])%list, sent, hd, recs, held, cur.
    split; [now rewrite <- app_assoc|]. split; [|auto].
    rewrite <- (app_nil_r sent). apply settled_app; [exact Hset|].
    apply settled_pending; [exists []; apply wrun_nil | discriminate
                           | constructor].
  - (* the writer is launched *)
    split; [|intros [Hm | Hm]; discriminate Hm].
    exists done, sent, hd, recs, held, cur.
    split; [reflexivity|]. split; [exact Hset|]. split; [exact Hperm|].
    destruct Hacc as (Hrows & Hhd & Hw). repeat split; auto; apply Hw.
  - (* a worker steps *)
    split; [|intros Hm; exfalso; eapply finished_no_step; eauto].
    apply settled_split in Hset
      as (d1 & line & d2 & s1 & s2 & -> & H1 & H2 & Hcase).
    destruct Hcase as [(-> & Hl & Hd) | (record & -> & _)];
      [|match goal with Hw : wstep WDone _ _ |- _ => inversion Hw end].
    exists (d1 ++ line :: d2)%list, (s1 ++ s2)%list, hd, recs, held, cur.
    split; [reflexivity|]. split; [|split; [exact Hperm|]].
    + apply settled_app; [exact H1|].
      apply settled_pending; [eapply launchedOn_step; eauto | | exact H2].
      intros ->.
      match goal with Hw : wstep _ _ WDone |- _ => inversion Hw; subst end.
      * destruct Hl as [tr Htr]. apply wrun_to_unmarshal in Htr as [Heq _].
        injection Heq as <-. unfold wellformed.
        match goal with H : Unmarshal _ = inr _ |- _ => now rewrite H end.
      * match goal with H : ticketsAfter _ _ _ = Some _ |- _ =>
          discriminate H end.
    + eapply writerRows_other; exact Hacc.
  - (* a record is handed to the writer *)
    split; [|intros Hm; exfalso; eapply finished_no_step; eauto].
    match goal with Hs : wstep _ (LSend _) _ |- _ => inversion Hs; subst end.
    match goal with Ho : ostep _ (LRecv _) _ |- _ => inversion Ho; subst end.
    apply settled_split in Hset
      as (d1 & line & d2 & s1 & s2 & -> & H1 & H2 & Hcase).
    destruct Hcase as [(-> & Hl & Hd) | (record' & Hdone & _)];
      [|discriminate Hdone].
    destruct Hacc as (Hrows & Hhd & -> & ->). simpl in *.
    exists (d1 ++ line :: d2)%list, (s1 ++ record :: s2)%list, hd, recs,
      (Some record), [].
    split; [reflexivity|]. split; [|split].
    + apply settled_app; [exact H1|].
      apply settled_sent; [|exact H2].
      destruct Hl as [tr Htr]. now apply wrun_published in Htr.
    + simpl. rewrite app_nil_r in Hperm.
      apply Permutation_sym.
      eapply Permutation_trans; [apply Permutation_app_comm|]. simpl.
      apply Permutation_cons_app. now apply Permutation_sym.
    + unfold writerRows. simpl. split; [exact Hrows|]. split; [exact Hhd|].
      split; [reflexivity|]. split; [reflexivity|]. split; [reflexivity|].
      now exists [].
  - (* the workers have been waited for *)
    split; [|auto].
    exists done, sent, hd, recs, held, cur.
    split; [reflexivity|]. split; [exact Hset|]. split; [exact Hperm|].
    rewrite <- (app_nil_r lg). eapply writerRows_other; exact Hacc.
  - (* the writer steps *)
    split; [|exact Hfin].
    destruct Hacc as (Hrows & Hhd & Hw). simpl in *.
    unfold writerRows. simpl.
    match goal with Ho : ostep _ _ _ |- _ => inversion Ho; subst end;
      simpl in *; try discriminate.
    + (* the header *)
      destruct Hw as (-> & -> & -> & ->). simpl.
      match goal with |- context [if ?b then _ else _] => destruct b end.
      * exists done, sent, [header], [], None, []. rewrite ?app_nil_r.
        repeat split; auto.
      * exists done, sent, [], [], None, []. rewrite ?app_nil_r.
        repeat split; auto.
    + (* a row *)
      destruct Hw as (-> & -> & -> & done' & Hdone & ->).
      exists done, sent, hd, recs, (Some record),
        (map (toCSVOutput record
                (fst (localOA (Attachment (Pub record))))
                (snd (localOA (Attachment (Pub record)))))
           (done' ++ [apiresponse]))%list.
      rewrite ?app_nil_r.
      split; [reflexivity|]. split; [exact Hset|]. split; [exact Hperm|].
      split; [rewrite map_app, <- !app_assoc; reflexivity|].
      split; [exact Hhd|].
      split; [reflexivity|]. split; [reflexivity|]. split; [reflexivity|].
      exists (done' ++ [apiresponse])%list. split; [|reflexivity].
      now rewrite <- app_assoc.
    + (* a failed write *)
      destruct Hw as (-> & -> & -> & done' & Hdone & ->).
      exists done, sent, hd, recs, (Some record),
        (map (toCSVOutput record
                (fst (localOA (Attachment (Pub record))))
                (snd (localOA (Attachment (Pub record)))))
           done').
      rewrite ?app_nil_r.
      split; [reflexivity|]. split; [exact Hset|]. split; [exact Hperm|].
      split; [reflexivity|]. split; [exact Hhd|].
      right. exists record, done', apiresponse, rest, err.
      repeat split; auto. apply in_or_app. right. now left.
    + (* the record is through *)
      destruct Hw as (-> & -> & -> & done' & Hdone & ->).
      rewrite app_nil_r in Hdone. subst done'.
      exists done, sent, hd, (recs ++ [record])%list, None, [].
      rewrite ?app_nil_r.
      split; [reflexivity|]. split; [exact Hset|]. split; [exact Hperm|].
      split; [|auto].
      rewrite flat_map_app. simpl. rewrite ?app_nil_r. reflexivity.
    + (* the flush *)
      destruct Hw as [-> ->].
      exists done, sent, hd, recs, None, []. rewrite ?app_nil_r in *.
      repeat split; auto.
  - (* the writer finds output closed *)
    split; [|exact Hfin].
    match goal with Ho : ostep _ LClosed _ |- _ => inversion Ho; subst end.
    destruct Hacc as (Hrows & Hhd & Hw). simpl in *.
    exists done, sent, hd, recs, held, cur. unfold writerRows. simpl.
    repeat split; auto; apply Hw.
  - (* the writer has been waited for *)
    split; [|intros _; apply Hfin; now left].
    exists done, sent, hd, recs, held, cur.
    split; [reflexivity|]. split; [exact Hset|]. split; [exact Hperm|].
    rewrite <- (app_nil_r lg). eapply writerRows_other; exact Hacc.
Qed.

(** Once the writer has returned, nothing is written any more. *)
Lemma writer_done_steps (s s' : state) :
  writer s = Some ODone ->
  steps s s' ->
  writer s' = Some ODone /\ csvRows s' = csvRows s.
Proof.
  intros Ho. induction 1 as [|s1 s2 _ [IHo IHrows] Hstep]; [auto|].
  rewrite <- IHrows.
  inversion Hstep; subst; cbn [writer csvRows] in *; auto;
    try discriminate;
    injection IHo as ->;
    match goal with Hs : ostep ODone _ _ |- _ => inversion Hs end.
Qed.

(** C2, amended: a line that decodes to a publication with k identifiers of
    scheme "doi" is published with k responses, the i-th being what
    [doAPIRequest] returned for the i-th such identifier, and the worker can
    get there whatever the requests do.  In every state that the run of a
    file reaches, the records [sent] that the writer has received are those
    of the workers that have returned, one for each of their lines that
    decode, and each has k rows to its name.  The rows written are the
    header, if at all, then all the k rows, together and in order, of every
    record but the one [held], and then the first rows of that one; once
    the writer has returned, the record held is one whose write failed: it
    has fewer than k rows, and the error is in the log.  A record that is
    not received gets no row: it is not among [sent]; and once the writer
    has returned no row is written any more.  Once the workers have been
    waited for, [sent] has the record of every line that decodes. *)
Theorem record_rows (lines : list string) (s0 s : state) :
  processFile httplimit maxChanCap lines = Some s0 ->
  steps s0 s ->
  (forall line publication,
     Unmarshal line = inl publication ->
     (forall tr record,
        wrun (WUnmarshal line) tr (WSend record) ->
        Pub record = publication /\
        List.length (APIResponses record)
        = List.length (doiIdentifiers publication) /\
        exists rs,
          List.length rs = List.length (doiIdentifiers publication) /\
          APIResponses record = map doAPIRequest rs /\
          requests tr
          = combine
              (map (fun i => requestURL email (Value i))
                 (doiIdentifiers publication))
              rs) /\
     (forall rs,
        List.length rs = List.length (doiIdentifiers publication) ->
        exists tr,
          wrun (WUnmarshal line) tr
            (WSend {| Pub := publication;
                      APIResponses := map doAPIRequest rs |}))) /\
  exists done sent hd recs held cur,
    lines = (done ++ toScan (main s))%list /\
    settled email Unmarshal done (workers s) sent /\
    Permutation sent (recs ++ inHand held)%list /\
    csvRows s = (hd ++ flat_map rowsFor recs ++ cur)%list /\
    (hd = [] \/ hd = [header]) /\
    Forall (fun record =>
              List.length (rowsFor record)
              = List.length (doiIdentifiers (Pub record))) sent /\
    match held with
    | None => cur = []
    | Some record =>
        exists n,
          cur = firstn n (rowsFor record) /\
          (writer s = Some ODone ->
           (n < List.length (rowsFor record))%nat /\
           exists err,
             In ("error writing record to csv: " ++ err)%string (logged s))
    end /\
    (writer s = Some ODone ->
     forall s', steps s s' -> csvRows s' = csvRows s) /\
    (main s = MWaitOutput \/ main s = MDone ->
     Forall2 (publishedOn Unmarshal) (filter (wellformed Unmarshal) lines)
       sent).
Proof.
  intros H0 Hs. split.
  - intros line publication Hdec.
    assert (Hpub : forall tr record,
               wrun (WUnmarshal line) tr (WSend record) ->
               Pub record = publication /\
               exists rs,
                 List.length rs = List.length (doiIdentifiers publication) /\
                 APIResponses record = map doAPIRequest rs /\
                 requests tr
                 = combine
                     (map (fun i => requestURL email (Value i))
                        (doiIdentifiers publication))
                     rs).
    { intros tr record H.
      inversion H as [|? ? ? ? ? Hstep Hrest]; subst.
      inversion Hstep as [? ? Herr|? ? Hok| | | | | | |]; subst.
      - apply wrun_done in Hrest as [_ Heq]. discriminate Heq.
      - rewrite Hdec in Hok. injection Hok as <-.
        apply wrun_range in Hrest as (rs & Hlen & Hp & Hresp & Hreq & _).
        simpl in *. split; [exact Hp|]. exists rs. auto. }
    split.
    + intros tr record H.
      destruct (Hpub tr record H) as [Hp (rs & Hlen & Hresp & Hreq)].
      split; [exact Hp|]. split; [|exists rs; auto].
      rewrite Hresp, length_map. exact Hlen.
    + intros rs Hlen.
      destruct (wrun_range_exists (Identifier publication)
                  {| Pub := publication; APIResponses := [] |} rs Hlen)
        as [tr Htr].
      exists (LTau :: tr). econstructor; [apply w_unmarshal, Hdec | exact Htr].
  - assert (Hinv :
      (exists done sent hd recs held cur,
          lines = (done ++ toScan (main s))%list /\
          settled email Unmarshal done (workers s) sent /\
          Permutation sent (recs ++ inHand held)%list /\
          writerRows s hd recs held cur) /\
      (main s = MWaitOutput \/ main s = MDone ->
       forallb finished (workers s) = true)).
    { apply processFile_Some in H0 as [_ ->].
      induction Hs as [|s1 s2 _ IH Hstep].
      - split; [|intros [Hm | Hm]; discriminate Hm].
        exists [], [], [], [], None, [].
        split; [reflexivity|]. split; [constructor|]. split; [constructor|].
        unfold writerRows. simpl. repeat split; auto.
      - eapply step_tallied; eauto. }
    destruct Hinv as [(done & sent & hd & recs & held & cur & Hlines & Hset
                       & Hperm & Hrows & Hhd & Hw) Hfin].
    exists done, sent, hd, recs, held, cur.
    split; [exact Hlines|]. split; [exact Hset|]. split; [exact Hperm|].
    split; [exact Hrows|]. split; [exact Hhd|]. split; [|split; [|split]].
    + eapply Forall_impl; [|apply (settled_published _ _ _ Hset)].
      intros record (l & _ & Hp). eapply publishedOn_rows; eauto.
    + destruct (writer s) as [[| |record oa hl rest| |]|].
      * destruct Hw as (_ & _ & -> & ->). reflexivity.
      * destruct Hw as (-> & ->). reflexivity.
      * destruct Hw as (-> & -> & -> & done' & Hdone & ->).
        exists (List.length done'). split; [|discriminate].
        unfold rowsFor. rewrite Hdone. apply firstn_map_prefix.
      * destruct Hw as (-> & ->). reflexivity.
      * destruct Hw as [(-> & ->) | (record & done' & a & rest & err & ->
                                     & Hdone & -> & Hlog)];
          [reflexivity|].
        exists (List.length done'). split.
        -- unfold rowsFor. rewrite Hdone. apply firstn_map_prefix.
        -- intros _. split; [|exists err; exact Hlog].
           unfold rowsFor. rewrite length_map, Hdone, length_app. simpl. lia.
      * destruct Hw as (_ & _ & -> & ->). reflexivity.
    + intros Ho s' Hs'. now apply (writer_done_steps s s' Ho).
    + intros Hm. specialize (Hfin Hm).
      assert (Hscan : toScan (main s) = [])
        by (destruct Hm as [-> | ->]; reflexivity).
      rewrite Hscan, app_nil_r in Hlines. subst done.
      eapply settled_finished; eauto.
Qed.

(** *** A failed write *)

Lemma bsteps_head (b0 b1 b : batch) :
  bstep b0 b1 -> bsteps b1 b -> bsteps b0 b.
Proof.
  intros H01 H1. induction H1 as [|b2 b3 _ IH H23].
  - eapply bsteps_step; [apply bsteps_refl | exact H01].
  - eapply bsteps_step; [exact IH | exact H23].
Qed.

Lemma unsent_not_finished (ws : list worker) :
  existsb (unsent Unmarshal) ws = true -> forallb finished ws = false.
Proof.
  induction ws as [|w ws IH]; simpl; [discriminate|].
  intros H. apply orb_prop in H as [Hw | Hws].
  - destruct w; try discriminate; reflexivity.
  - rewrite (IH Hws). apply andb_false_r.
Qed.

(** A worker with a record to send cannot return while the writer receives
    nothing: it has it still to send after every step of its own. *)
Lemma unsent_wstep (w w' : worker) (l : wlabel) (t t' : Z) :
  wstep w l w' ->
  ticketsAfter httplimit l t = Some t' ->
  unsent Unmarshal w = true ->
  unsent Unmarshal w' = true.
Proof.
  intros Hstep Ht Hw. inversion Hstep; subst; simpl in *; try reflexivity.
  - unfold wellformed in Hw.
    match goal with H : Unmarshal _ = inr _ |- _ => rewrite H in Hw end.
    discriminate Hw.
  - discriminate Ht.
Qed.

(** Once blocked, a run stays blocked whatever happens next. *)
Lemma blocked_step (s s' : state) :
  blocked Unmarshal s -> step s s' -> blocked Unmarshal s'.
Proof.
  intros (Hm & Ho & Hws) Hstep.
  inversion Hstep; subst; unfold blocked; simpl in *;
    try discriminate;
    try (injection Ho as ->;
         match goal with H : ostep ODone _ _ |- _ => inversion H end).
  - repeat split; auto.
    rewrite existsb_app in *. simpl in *.
    apply orb_prop in Hws as [H1 | H2]; [rewrite H1; reflexivity|].
    apply orb_prop in H2 as [Hw | H2].
    + match goal with
      | Hw' : wstep _ _ _, Ht : ticketsAfter _ _ _ = _ |- _ =>
          rewrite (unsent_wstep _ _ _ _ _ Hw' Ht Hw)
      end.
      apply orb_true_r.
    + rewrite H2. rewrite !orb_true_r. reflexivity.
  - rewrite (unsent_not_finished _ Hws) in *. discriminate.
Qed.

Lemma blocked_bsteps (s : state) (files : list file) (lg : list string)
    (b : batch) :
  blocked Unmarshal s ->
  bsteps (Batch (Some s) files lg) b ->
  exists s', b = Batch (Some s') files lg /\ blocked Unmarshal s'.
Proof.
  intros Hs Hb. induction Hb as [|b1 b2 _ [s1 [-> Hs1]] Hstep].
  - exists s. auto.
  - inversion Hstep as [| |? s2 ? ? Hstep'|? ? ? Hdone]; subst.
    + exists s2. split; [reflexivity | eapply blocked_step; eauto].
    + destruct Hs1 as [Hm _]. rewrite Hm in Hdone. discriminate Hdone.
Qed.

(** C8: a run in which the write of a row fails while another worker still
    has its record to send.  The writer logs the error and returns; the
    worker stays blocked on [output], [waitgroupLines.Wait()] never returns,
    and nothing can happen any more: [processFile] does not return and the
    files after this one are never started.  The same holds from every
    state in which the writer has returned while a worker has a record
    still to send. *)
Theorem failed_write_blocks_batch (name line1 line2 doi err : string)
    (p1 p2 : Publication) (r : getResult) (files : list file) :
  0 < httplimit <= maxChanCap ->
  Unmarshal line1 = inl p1 ->
  Identifier p1 = [ {| Scheme := "doi"; Value := doi |} ] ->
  Unmarshal line2 = inl p2 ->
  Identifier p2 = [] ->
  exists s,
    bsteps (Batch None (File name (inr [line1; line2]) :: files) [])
           (Batch (Some s) files [("Processing " ++ name)%string]) /\
    main s = MWaitLines /\
    writer s = Some ODone /\
    workers s = [WDone; WSend {| Pub := p2; APIResponses := [] |}] /\
    csvRows s = [header] /\
    logged s = [("error writing record to csv: " ++ err)%string] /\
    (forall b,
       ~ bstep (Batch (Some s) files [("Processing " ++ name)%string]) b) /\
    (forall b,
       bsteps (Batch (Some s) files [("Processing " ++ name)%string]) b ->
       b = Batch (Some s) files [("Processing " ++ name)%string]) /\
    (forall s1 files1 lg1 b,
       blocked Unmarshal s1 ->
       bsteps (Batch (Some s1) files1 lg1) b ->
       exists s2,
         b = Batch (Some s2) files1 lg1 /\ main s2 = MWaitLines /\
         writer s2 = Some ODone).
Proof.
  intros Hlimit H1 Hid1 H2 Hid2.
  assert (Hacq : (0 <? httplimit) = true) by now apply Z.ltb_lt.
  assert (Hrel : (httplimit - 1 <? httplimit) = true) by (apply Z.ltb_lt; lia).
  pose (rec1 := appendResponse {| Pub := p1; APIResponses := [] |} (doAPIRequest r)).
  pose (rec2 := {| Pub := p2; APIResponses := [] |}).
  pose (s := St MWaitLines (httplimit - 1 + 1) [WDone; WSend rec2] (Some ODone)
               false [header] [("error writing record to csv: " ++ err)%string]).
  assert (Hstuck : forall b,
             ~ bstep (Batch (Some s) files [("Processing " ++ name)%string]) b).
  { intros b Hb. inversion Hb as [| |? ? ? ? Hs|? ? ? Hm]; subst; [|discriminate Hm].
    inversion Hs; subst;
      try match goal with Ho : ostep ODone _ _ |- _ => inversion Ho end;
      try discriminate.
    split_workers;
      match goal with Hw : wstep _ _ _ |- _ => inversion Hw; subst end;
      discriminate. }
  exists s. split; [|repeat split; auto].
  3: { intros s1 files1 lg1 b Hs1 Hb.
       destruct (blocked_bsteps _ _ _ _ Hs1 Hb) as [s2 [-> (Hm & Ho & _)]].
       exists s2. auto. }
  - eapply bsteps_head;
      [apply (b_open _ _ _ _ name); apply processFile_starts; lia|].
    cbn [app].
    eapply bsteps_head; [apply b_step, s_go_line|].
    eapply bsteps_head; [apply b_step, s_go_line|].
    eapply bsteps_head; [apply b_step, s_go_output|].
    cbn [app].
    (* the first worker: decode, look up the DOI, reach the send *)
    eapply bsteps_head;
      [apply b_step; eapply s_worker with (ws1 := []);
       [apply w_unmarshal, H1 | reflexivity]|].
    rewrite Hid1.
    eapply bsteps_head;
      [apply b_step; eapply s_worker with (ws1 := []);
       [apply w_range_doi; reflexivity | reflexivity]|].
    eapply bsteps_head;
      [apply b_step; eapply s_worker with (ws1 := []);
       [apply w_ticket | unfold ticketsAfter; rewrite Hacq; reflexivity]|].
    eapply bsteps_head;
      [apply b_step; eapply s_worker with (ws1 := []);
       [apply (w_get _ _ _ _ _ r) | reflexivity]|].
    eapply bsteps_head;
      [apply b_step; eapply s_worker with (ws1 := []);
       [apply w_return | unfold ticketsAfter; rewrite Hrel; reflexivity]|].
    eapply bsteps_head;
      [apply b_step; eapply s_worker with (ws1 := []);
       [apply w_range_end | reflexivity]|].
    (* the second worker: decode, reach the send *)
    eapply bsteps_head;
      [apply b_step; eapply s_worker with (ws1 := [_]);
       [apply w_unmarshal, H2 | reflexivity]|].
    rewrite Hid2.
    eapply bsteps_head;
      [apply b_step; eapply s_worker with (ws1 := [_]);
       [apply w_range_end | reflexivity]|].
    (* the writer: the header, the first record, the failing write *)
    eapply bsteps_head;
      [apply b_step; eapply s_writer; [apply (o_header true) | reflexivity]|].
    eapply bsteps_head;
      [apply b_step; eapply s_publish with (ws1 := []);
       [apply w_send | apply o_recv]|].
    eapply bsteps_head;
      [apply b_step; eapply s_writer; [apply (o_write_err _ _ _ _ _ err) | reflexivity]|].
    apply bsteps_refl.
  - intros b Hb. induction Hb as [|b1 b2 _ IH Hstep]; [reflexivity|].
    subst b1. destruct (Hstuck _ Hstep).
Qed.

(** *** Malformed lines *)

Lemma lessIdle_app (a a' b b' : list worker) :
  lessIdle a b -> lessIdle a' b' -> lessIdle (a ++ a')%list (b ++ b')%list.
Proof.
  induction 1; intros H'; simpl; [exact H' | |].
  - apply lessIdle_both; auto.
  - apply lessIdle_idle; auto.
Qed.

Lemma lessIdle_refl (ws : list worker) : lessIdle ws ws.
Proof.
  induction ws; [apply lessIdle_nil | now apply lessIdle_both].
Qed.

Lemma lessIdle_split_left (a1 a2 : list worker) (w : worker) (b : list worker) :
  lessIdle (a1 ++ w :: a2)%list b ->
  exists b1 b2,
    lessIdle a1 b1 /\ lessIdle a2 b2 /\
    (b = (b1 ++ w :: b2)%list \/ (idle Unmarshal w /\ b = (b1 ++ b2)%list)).
Proof.
  revert b. induction a1 as [|x a1 IH]; intros b H; simpl in H.
  - inversion H as [|? ? b' H'|? ? ? Hidle H']; subst.
    + exists [], b'. split; [apply lessIdle_nil|]. split; [exact H'|]. now left.
    + exists [], b. split; [apply lessIdle_nil|]. split; [exact H'|]. now right.
  - inversion H as [|? ? b' H'|? ? ? Hidle H']; subst.
    + destruct (IH _ H') as (b1 & b2 & H1 & H2 & Hb).
      exists (x :: b1), b2. split; [now apply lessIdle_both|]. split; [exact H2|].
      destruct Hb as [-> | [Hw ->]]; [now left | now right].
    + destruct (IH _ H') as (b1 & b2 & H1 & H2 & Hb).
      exists b1, b2. split; [now apply lessIdle_idle|]. split; [exact H2|].
      exact Hb.
Qed.

Lemma lessIdle_split_right (a b1 b2 : list worker) (w : worker) :
  lessIdle a (b1 ++ w :: b2)%list ->
  exists a1 a2,
    a = (a1 ++ w :: a2)%list /\ lessIdle a1 b1 /\ lessIdle a2 b2.
Proof.
  revert b1. induction a as [|x a IH]; intros b1 H.
  - inversion H. destruct b1; discriminate.
  - remember (b1 ++ w :: b2)%list as b eqn:Hb.
    inversion H as [|? ? b' H'|? ? ? Hidle H']; subst.
    + destruct b1 as [|y b1]; simpl in *.
      * match goal with Heq : _ :: _ = _ :: _ |- _ => injection Heq as -> -> end.
        exists [], a. split; [reflexivity|]. split; [apply lessIdle_nil | exact H'].
      * match goal with Heq : _ :: _ = _ :: _ |- _ => injection Heq as -> -> end.
        destruct (IH _ H') as (a1 & a2 & -> & H1 & H2).
        exists (y :: a1), a2. split; [reflexivity|].
        split; [now apply lessIdle_both | exact H2].
    + destruct (IH _ H') as (a1 & a2 & -> & H1 & H2).
      exists (x :: a1), a2. split; [reflexivity|].
      split; [now apply lessIdle_idle | exact H2].
Qed.

Lemma lessIdle_finished (a b : list worker) :
  lessIdle a b -> forallb finished a = true -> forallb finished b = true.
Proof.
  induction 1; simpl; intros Hfin; auto.
  - apply andb_prop in Hfin as [Hw Hfin]. rewrite Hw. auto.
  - apply andb_prop in Hfin as [_ Hfin]. auto.
Qed.

(** The only step of an idle worker: a worker on a malformed line logs the
    error and returns; it takes no ticket and sends nothing. *)
Lemma idle_wstep (w w' : worker) (l : wlabel) :
  idle Unmarshal w -> wstep w l w' ->
  w' = WDone /\ exists line err,
    w = WUnmarshal line /\ Unmarshal line = inr err /\ l = LLog err.
Proof.
  intros [-> | [line [-> Hbad]]] Hstep; inversion Hstep; subst.
  - split; [reflexivity|]. exists line, err. auto.
  - unfold wellformed in Hbad.
    match goal with H : Unmarshal _ = inl _ |- _ => rewrite H in Hbad end.
    discriminate.
Qed.

(** A step of the run on all the lines is a step of the run on the
    well-formed lines, or the step of an idle worker or of the scanner on a
    malformed line, which the other run does not see. *)
Lemma related_step_left (sa sa' sb : state) :
  related Unmarshal sa sb ->
  step sa sa' ->
  exists sb', (sb' = sb \/ step sb sb') /\ related Unmarshal sa' sb'.
Proof.
  intros Hrel Hstep.
  destruct sb as [mb tb wsb ob cb rowsb lgb].
  inversion Hstep; subst; unfold related in *; simpl in *;
    destruct Hrel as (Hm & Ht & Hws & Ho & Hc & Hrows); subst.
  - (* a line is delivered *)
    destruct mb; try contradiction. subst. simpl.
    destruct (wellformed Unmarshal line) eqn:Hwf.
    + eexists. split; [right; apply s_go_line|]. simpl.
      repeat split; auto.
      apply lessIdle_app; [exact Hws | apply lessIdle_refl].
    + eexists. split; [left; reflexivity|]. simpl.
      repeat split; auto.
      rewrite <- (app_nil_r wsb).
      apply lessIdle_app; [exact Hws|].
      apply lessIdle_idle; [right; eauto | apply lessIdle_nil].
  - (* the writer is launched *)
    destruct mb; try contradiction. subst. simpl.
    eexists. split; [right; apply s_go_output|]. simpl. repeat split; auto.
  - (* a worker steps *)
    apply lessIdle_split_left in Hws as (b1 & b2 & H1 & H2 & [-> | [Hidle ->]]).
    + eexists. split; [right; eapply s_worker; eauto|]. simpl.
      repeat split; auto.
      apply lessIdle_app; [exact H1 | now apply lessIdle_both].
    + match goal with Hw : wstep _ _ _ |- _ =>
        destruct (idle_wstep _ _ _ Hidle Hw) as [-> (line & err & -> & Herr & ->)]
      end.
      match goal with Htk : ticketsAfter _ _ _ = _ |- _ =>
        simpl in Htk; injection Htk as <-
      end.
      eexists. split; [left; reflexivity|]. simpl.
      repeat split; auto.
      apply lessIdle_app; [exact H1|].
      apply lessIdle_idle; [now left | exact H2].
  - (* a record is handed to the writer *)
    apply lessIdle_split_left in Hws as (b1 & b2 & H1 & H2 & [-> | [Hidle ->]]).
    + eexists. split; [right; eapply s_publish; eauto|]. simpl.
      repeat split; auto.
      apply lessIdle_app; [exact H1 | now apply lessIdle_both].
    + match goal with Hw : wstep _ _ _ |- _ =>
        destruct (idle_wstep _ _ _ Hidle Hw) as [_ (line & err & _ & _ & Hl)]
      end.
      discriminate Hl.
  - (* all the workers have returned *)
    destruct mb; try contradiction.
    eexists. split; [right; apply s_wait_lines; eapply lessIdle_finished; eauto|].
    simpl. repeat split; auto.
  - (* the writer steps *)
    eexists. split; [right; eapply s_writer; eauto|]. simpl. repeat split; auto.
  - eexists. split; [right; eapply s_writer_closed; eauto|]. simpl. repeat split; auto.
  - destruct mb; try contradiction.
    eexists. split; [right; apply s_wait_output|]. simpl. repeat split; auto.
Qed.

Lemma filter_cons_split {A : Type} (f : A -> bool) (l : list A) (x : A)
    (rest : list A) :
  filter f l = x :: rest ->
  exists pre l',
    l = (pre ++ x :: l')%list /\
    Forall (fun y => f y = false) pre /\
    filter f l' = rest.
Proof.
  induction l as [|y l IH]; simpl; [discriminate|].
  destruct (f y) eqn:Hy.
  - intros H. injection H as -> <-. exists [], l. auto.
  - intros H. destruct (IH H) as (pre & l' & -> & Hpre & Hrest).
    exists (y :: pre), l'. auto.
Qed.

Lemma filter_nil_all {A : Type} (f : A -> bool) (l : list A) :
  filter f l = [] -> Forall (fun y => f y = false) l.
Proof.
  induction l as [|y l IH]; simpl; [constructor|].
  destruct (f y) eqn:Hy; [discriminate|]. auto.
Qed.

Lemma lessIdle_malformed (pre : list string) :
  Forall (fun line => wellformed Unmarshal line = false) pre ->
  lessIdle (map WUnmarshal pre) [].
Proof.
  induction 1 as [|line pre Hline _ IH]; simpl; [apply lessIdle_nil|].
  apply lessIdle_idle; [right; eauto | exact IH].
Qed.

(** The idle workers that have not returned can all return. *)
Lemma steps_finish_idle (a b : list worker) :
  lessIdle a b ->
  forallb finished b = true ->
  forall pre m t o c rows lg,
  exists a' lg',
    steps (St m t (pre ++ a)%list o c rows lg)
          (St m t (pre ++ a')%list o c rows lg') /\
    forallb finished a' = true /\
    lessIdle a' b.
Proof.
  induction 1 as [|w a b _ IH|w a b Hidle _ IH]; intros Hfin pre m t o c rows lg.
  - exists [], lg. split; [apply steps_refl|]. split; [reflexivity | apply lessIdle_nil].
  - simpl in Hfin. apply andb_prop in Hfin as [Hw Hfin].
    destruct (IH Hfin (pre ++ [w])%list m t o c rows lg) as (a' & lg' & Hsteps & Ha' & Hless).
    exists (w :: a'), lg'. rewrite <- !app_assoc in Hsteps.
    split; [exact Hsteps|]. split; [simpl; now rewrite Hw, Ha'|].
    now apply lessIdle_both.
  - destruct Hidle as [-> | [line [-> Hbad]]].
    + destruct (IH Hfin (pre ++ [WDone])%list m t o c rows lg)
        as (a' & lg' & Hsteps & Ha' & Hless).
      exists (WDone :: a'), lg'. rewrite <- !app_assoc in Hsteps.
      split; [exact Hsteps|]. split; [simpl; exact Ha'|].
      apply lessIdle_idle; [now left | exact Hless].
    + unfold wellformed in Hbad. destruct (Unmarshal line) as [p|err] eqn:Herr;
        [discriminate|].
      destruct (IH Hfin (pre ++ [WDone])%list m t o c rows (lg ++ [err])%list)
        as (a' & lg' & Hsteps & Ha' & Hless).
      exists (WDone :: a'), lg'. rewrite <- !app_assoc in Hsteps.
      split; [|split; [simpl; exact Ha'|]].
      * eapply steps_trans; [|exact Hsteps].
        apply steps_one.
        eapply (s_worker email httplimit Unmarshal m t t pre _ (LLog err) WDone);
          [apply w_unmarshal_err, Herr | reflexivity].
      * apply lessIdle_idle; [now left | exact Hless].
Qed.

(** A step of the run on the well-formed lines is a step of the run on all
    the lines, once the scanner has passed the malformed lines before the
    next well-formed one and, before [waitgroupLines.Wait()] returns, the
    workers on malformed lines have returned. *)
Lemma related_step_right (sa sb sb' : state) :
  related Unmarshal sa sb ->
  step sb sb' ->
  exists sa', steps sa sa' /\ related Unmarshal sa' sb'.
Proof.
  intros Hrel Hstep.
  destruct sa as [ma ta wsa oa ca rowsa lga].
  inversion Hstep; subst; unfold related in *; simpl in *;
    destruct Hrel as (Hm & Ht & Hws & Ho & Hc & Hrows); subst.
  - (* a line is delivered *)
    destruct ma as [la| | |]; try contradiction. simpl in Hm. symmetry in Hm.
    apply filter_cons_split in Hm as (pre & la' & -> & Hpre & <-).
    eexists. split.
    + eapply steps_trans; [apply steps_go_prefix|]. apply steps_one, s_go_line.
    + simpl. repeat split; auto.
      rewrite <- (app_nil_r ws).
      apply lessIdle_app; [|apply lessIdle_refl].
      apply lessIdle_app; [exact Hws | now apply lessIdle_malformed].
  - (* the writer is launched *)
    destruct ma as [la| | |]; try contradiction. simpl in Hm. symmetry in Hm.
    apply filter_nil_all in Hm.
    pose proof (steps_go_prefix la [] t wsa None c rows lga) as Hgo.
    rewrite app_nil_r in Hgo.
    eexists. split.
    + eapply steps_trans; [exact Hgo|].
      apply steps_one, s_go_output.
    + simpl. repeat split; auto.
      rewrite <- (app_nil_r ws).
      apply lessIdle_app; [exact Hws | now apply lessIdle_malformed].
  - (* a worker steps *)
    apply lessIdle_split_right in Hws as (a1 & a2 & -> & H1 & H2).
    eexists. split; [apply steps_one; eapply s_worker; eauto|]. simpl.
    repeat split; auto.
    apply lessIdle_app; [exact H1 | now apply lessIdle_both].
  - (* a record is handed to the writer *)
    apply lessIdle_split_right in Hws as (a1 & a2 & -> & H1 & H2).
    eexists. split; [apply steps_one; eapply s_publish; eauto|]. simpl.
    repeat split; auto.
    apply lessIdle_app; [exact H1 | now apply lessIdle_both].
  - (* all the workers have returned *)
    destruct ma; try contradiction.
    match goal with Hfin : forallb finished _ = true |- _ =>
      destruct (steps_finish_idle _ _ Hws Hfin [] MWaitLines t o false rows lga)
        as (a' & lg' & Hsteps & Ha' & Hless)
    end.
    simpl in Hsteps.
    eexists. split.
    + eapply steps_trans; [exact Hsteps|]. apply steps_one, s_wait_lines, Ha'.
    + simpl. repeat split; auto.
  - (* the writer steps *)
    eexists. split; [apply steps_one; eapply s_writer; eauto|]. simpl.
    repeat split; auto.
  - eexists. split; [apply steps_one; eapply s_writer_closed; eauto|]. simpl.
    repeat split; auto.
  - destruct ma; try contradiction.
    eexists. split; [apply steps_one; apply s_wait_output|]. simpl.
    repeat split; auto.
Qed.

Lemma related_observed (sa sb : state) :
  related Unmarshal sa sb ->
  csvRows sb = csvRows sa /\
  writer sb = writer sa /\
  tickets sb = tickets sa /\
  closed sb = closed sa /\
  (main sa = MDone <-> main sb = MDone).
Proof.
  intros (Hm & Ht & _ & Ho & Hc & Hrows).
  repeat split; auto; intros Hdone; rewrite Hdone in Hm;
    [destruct (main sb) | destruct (main sa)]; simpl in Hm;
    try contradiction; reflexivity.
Qed.

(** Leaving the malformed lines out of a file and scanning it gives the
    well-formed ones among the tokens scanned from the whole file, when no
    malformed line is too long for the scanner. *)
Lemma scanLines_filter (maxTokenSize : Z) (file : list string) :
  Forall (fun line =>
            wellformed Unmarshal (dropCR line) = false ->
            Z.of_nat (String.length line) < maxTokenSize) file ->
  fst (scanLines maxTokenSize
         (filter (fun line => wellformed Unmarshal (dropCR line)) file))
  = filter (wellformed Unmarshal) (fst (scanLines maxTokenSize file)).
Proof.
  induction 1 as [|line rest Hline _ IH]; [reflexivity|].
  cbn [filter]. destruct (wellformed Unmarshal (dropCR line)) eqn:Hwf.
  - cbn [scanLines].
    destruct (Z.of_nat (String.length line) <? maxTokenSize); [|reflexivity].
    destruct (scanLines maxTokenSize
                (filter (fun line => wellformed Unmarshal (dropCR line)) rest))
      as [t1 b1].
    destruct (scanLines maxTokenSize rest) as [t2 b2].
    simpl in *. rewrite Hwf. now rewrite IH.
  - cbn [scanLines].
    rewrite (proj2 (Z.ltb_lt _ _) (Hline eq_refl)).
    destruct (scanLines maxTokenSize rest) as [t2 b2].
    simpl in *. rewrite Hwf. exact IH.
Qed.

(** A run without lines writes the header at most, and logs nothing but
    what the writer logs. *)
Lemma steps_no_lines (t : Z) (s : state) :
  steps (St (MScan []) t [] None false [] []) s ->
  workers s = [] /\
  toScan (main s) = [] /\
  match writer s with
  | None => csvRows s = []
  | Some OHeader => csvRows s = []
  | Some (ORows _ _ _ _) => False
  | Some _ => csvRows s = [] \/ csvRows s = [header]
  end /\
  Forall (fun l => exists err, l = ("error writing record to csv: " ++ err)%string)
    (logged s).
Proof.
  induction 1 as [|s1 s2 _ (Hws & Hscan & Hrows & Hlog) Hstep].
  - cbn. repeat split; auto.
  - inversion Hstep; subst;
      cbn [main workers writer csvRows logged toScan] in *.
    + discriminate Hscan.
    + auto.
    + destruct ws1; discriminate.
    + destruct ws1; discriminate.
    + auto.
    + split; [exact Hws|]. split; [exact Hscan|].
      match goal with Ho : ostep _ _ _ |- _ => inversion Ho; subst end;
        try contradiction; try discriminate.
      * split; [|cbn [logOf]; now rewrite app_nil_r]. rewrite Hrows.
        cbn [rowsOf app].
        match goal with |- context [if ?b then _ else _] => destruct b end;
          auto.
      * cbn [rowsOf logOf]. split; [now rewrite app_nil_r|].
        apply Forall_app. split; [exact Hlog|].
        destruct err as [err|]; [|constructor].
        constructor; [exists err; reflexivity | constructor].
    + match goal with Ho : ostep _ LClosed _ |- _ => inversion Ho; subst end.
      auto.
    + auto.
Qed.

(** C7, amended: a worker on a malformed line logs the error and returns;
    it takes no ticket, asks nothing and sends no record.  When no
    malformed line of the file reaches the maximal token size of the
    scanner: once the workers have been waited for, the error of every
    malformed line that the scanner has delivered is in the log; and every
    state that the run of the file reaches has the rows, the writer and the
    tickets of a state that the run of its well-formed lines reaches, and
    the other way round; one run is over when the other is. *)
Theorem malformed_lines_skipped (maxTokenSize : Z) (file : list string)
    (sa0 sb0 : state) :
  Forall (fun line =>
            wellformed Unmarshal (dropCR line) = false ->
            Z.of_nat (String.length line) < maxTokenSize) file ->
  processFile httplimit maxChanCap (fst (scanLines maxTokenSize file))
  = Some sa0 ->
  processFile httplimit maxChanCap
    (fst (scanLines maxTokenSize
            (filter (fun line => wellformed Unmarshal (dropCR line)) file)))
  = Some sb0 ->
  (forall line err tr w,
     Unmarshal line = inr err ->
     wrun (WUnmarshal line) tr w ->
     (tr = [] /\ w = WUnmarshal line) \/ (tr = [LLog err] /\ w = WDone)) /\
  (forall sa,
     steps sa0 sa ->
     (main sa = MWaitOutput \/ main sa = MDone ->
      forall line err,
        In line (fst (scanLines maxTokenSize file)) ->
        Unmarshal line = inr err ->
        In err (logged sa)) /\
     exists sb,
       steps sb0 sb /\
       csvRows sb = csvRows sa /\
       writer sb = writer sa /\
       tickets sb = tickets sa /\
       closed sb = closed sa /\
       (main sa = MDone <-> main sb = MDone)) /\
  (forall sb,
     steps sb0 sb ->
     exists sa,
       steps sa0 sa /\
       csvRows sb = csvRows sa /\
       writer sb = writer sa /\
       tickets sb = tickets sa /\
       closed sb = closed sa /\
       (main sa = MDone <-> main sb = MDone)).
Proof.
  intros Hshort Ha Hb.
  rewrite (scanLines_filter _ _ Hshort) in Hb.
  set (lines := fst (scanLines maxTokenSize file)) in *. clearbody lines.
  apply processFile_Some in Ha as [_ ->].
  apply processFile_Some in Hb as [_ ->].
  assert (H0 : related Unmarshal
                 (St (MScan lines) httplimit [] None false [] [])
                 (St (MScan (filter (wellformed Unmarshal) lines)) httplimit []
                    None false [] [])).
  { unfold related. simpl. repeat split; auto. apply lessIdle_nil. }
  split; [|split].
  - intros line err tr w Herr Hrun.
    inversion Hrun as [|? ? ? ? ? Hstep Hrest]; subst; [now left|].
    inversion Hstep as [? ? Herr'|? ? Hok| | | | | | |]; subst.
    + rewrite Herr in Herr'. injection Herr' as <-.
      apply wrun_done in Hrest as [-> ->]. now right.
    + rewrite Herr in Hok. discriminate Hok.
  - intros sa Hsteps. split.
    { intros Hm. now apply steps_malformed_logged. }
    assert (Hsim : exists sb,
               steps (St (MScan (filter (wellformed Unmarshal) lines)) httplimit
                        [] None false [] []) sb /\
               related Unmarshal sa sb).
    { induction Hsteps as [|s1 s2 _ [sb [Hsb Hrel]] Hstep].
      - eexists. split; [apply steps_refl | exact H0].
      - destruct (related_step_left _ _ _ Hrel Hstep) as [sb' [[-> | Hstep'] Hrel']].
        + exists sb. auto.
        + exists sb'. split; [eapply steps_step; eauto | exact Hrel']. }
    destruct Hsim as [sb [Hsb Hrel]]. exists sb. split; [exact Hsb|].
    now apply related_observed.
  - intros sb Hsteps.
    assert (Hsim : exists sa,
               steps (St (MScan lines) httplimit [] None false [] []) sa /\
               related Unmarshal sa sb).
    { induction Hsteps as [|s1 s2 _ [sa [Hsa Hrel]] Hstep].
      - eexists. split; [apply steps_refl | exact H0].
      - destruct (related_step_right _ _ _ Hrel Hstep) as [sa' [Hsteps' Hrel']].
        exists sa'. split; [eapply steps_trans; eauto | exact Hrel']. }
    destruct Hsim as [sa [Hsa Hrel]]. exists sa. split; [exact Hsa|].
    now apply related_observed.
Qed.

Lemma steps_head (s0 s1 s : state) : step s0 s1 -> steps s1 s -> steps s0 s.
Proof.
  intros H01 H1. eapply steps_trans; [apply steps_one, H01 | exact H1].
Qed.

End PipelineProperties.

(** ** The statements at the sample input *)

(** The run of [sampleLine] up to the point where its worker holds a
    ticket: four tickets are left of five. *)
Lemma gate_tickets_bounded_witness :
  (tickets
     (St (MScan []) 4
        [WGet {| Pub := samplePublication; APIResponses := [] |} []
           "10.1000/182"]
        None false [] [])
   + inflight
       [WGet {| Pub := samplePublication; APIResponses := [] |} []
          "10.1000/182"]
   = 5)%Z.
Proof.
  refine (proj1 (proj2 (proj2
            (gate_tickets_bounded "me@example.org" 5 sampleUnmarshal
               sampleChanCap [sampleLine] _ _ eq_refl _)))).
  eapply steps_head; [apply s_go_line|].
  eapply steps_head;
    [eapply s_worker with (ws1 := []);
     [apply w_unmarshal; reflexivity | reflexivity]|].
  eapply steps_head;
    [eapply s_worker with (ws1 := []);
     [apply w_range_doi; reflexivity | reflexivity]|].
  eapply steps_head;
    [eapply s_worker with (ws1 := []); [apply w_ticket | reflexivity]|].
  apply steps_refl.
Defined.

(** A whole run of the file made of a malformed line and [sampleLine]: the
    malformed line is logged, the record of [sampleLine] gets its row, and
    [processFile] returns. *)
Lemma sample_run :
  steps "me@example.org" 5 sampleUnmarshal
    (St (MScan ["not json"; sampleLine]) 5 [] None false [] [])
    (St MDone 5 [WDone; WDone] (Some ODone) true
       [header;
        toCSVOutput sampleRecord false "missing" (doAPIRequest sampleResult)]
       ["invalid character"]).
Proof.
  eapply steps_head; [apply s_go_line|].
  eapply steps_head; [apply s_go_line|].
  eapply steps_head; [apply s_go_output|].
  eapply steps_head;
    [eapply s_worker with (ws1 := []);
     [apply w_unmarshal_err; reflexivity | reflexivity]|].
  eapply steps_head;
    [eapply s_worker with (ws1 := [_]);
     [apply w_unmarshal; reflexivity | reflexivity]|].
  eapply steps_head;
    [eapply s_worker with (ws1 := [_]);
     [apply w_range_doi; reflexivity | reflexivity]|].
  eapply steps_head;
    [eapply s_worker with (ws1 := [_]); [apply w_ticket | reflexivity]|].
  eapply steps_head;
    [eapply s_worker with (ws1 := [_]);
     [apply (w_get _ _ _ _ _ sampleResult) | reflexivity]|].
  eapply steps_head;
    [eapply s_worker with (ws1 := [_]); [apply w_return | reflexivity]|].
  eapply steps_head;
    [eapply s_worker with (ws1 := [_]); [apply w_range_end | reflexivity]|].
  eapply steps_head;
    [eapply s_writer; [apply (o_header true) | reflexivity]|].
  eapply steps_head;
    [eapply s_publish with (ws1 := [_]); [apply w_send | apply o_recv]|].
  eapply steps_head; [eapply s_writer; [apply o_write | reflexivity]|].
  eapply steps_head; [eapply s_writer; [apply o_next | reflexivity]|].
  eapply steps_head; [apply s_wait_lines; reflexivity|].
  eapply steps_head; [eapply s_writer_closed; apply o_closed|].
  eapply steps_head;
    [eapply s_writer; [apply (o_flush None) | reflexivity]|].
  eapply steps_head; [apply s_wait_output|].
  apply steps_refl.
Qed.

Lemma record_rows_witness :
  exists done sent hd recs held cur,
    ["not json"; sampleLine] = (done ++ [])%list /\
    settled "me@example.org" sampleUnmarshal done [WDone; WDone] sent /\
    Permutation sent (recs ++ inHand held)%list /\
    [header;
     toCSVOutput sampleRecord false "missing" (doAPIRequest sampleResult)]
    = (hd ++ flat_map rowsFor recs ++ cur)%list /\
    (hd = [] \/ hd = [header]) /\
    Forall (fun record =>
              List.length (rowsFor record)
              = List.length (doiIdentifiers (Pub record))) sent /\
    match held with
    | None => cur = []
    | Some record =>
        exists n,
          cur = firstn n (rowsFor record) /\
          (Some ODone = Some ODone ->
           (n < List.length (rowsFor record))%nat /\
           exists err,
             In ("error writing record to csv: " ++ err)%string
               ["invalid character"])
    end /\
    (Some ODone = Some ODone ->
     forall s',
       steps "me@example.org" 5 sampleUnmarshal
         (St MDone 5 [WDone; WDone] (Some ODone) true
            [header;
             toCSVOutput sampleRecord false "missing"
               (doAPIRequest sampleResult)]
            ["invalid character"]) s' ->
       csvRows s'
       = [header;
          toCSVOutput sampleRecord false "missing" (doAPIRequest sampleResult)]) /\
    (MDone = MWaitOutput \/ MDone = MDone ->
     Forall2 (publishedOn sampleUnmarshal) [sampleLine] sent).
Proof.
  exact (proj2 (record_rows "me@example.org" 5 sampleUnmarshal sampleChanCap
                  ["not json"; sampleLine] _ _ eq_refl sample_run)).
Defined.

(** A run of a file of two lines, each with one DOI, in which the write of
    the row of the first record fails while the second record waits to be
    sent. *)
Lemma stranded_run :
  steps "me@example.org" 5 sampleUnmarshal
    (St (MScan [sampleLine; sampleLine]) 5 [] None false [] [])
    (St MWaitLines 5 [WDone; WSend sampleRecord] (Some ODone) false [header]
       ["error writing record to csv: no space left on device"]).
Proof.
  eapply steps_head; [apply s_go_line|].
  eapply steps_head; [apply s_go_line|].
  eapply steps_head; [apply s_go_output|].
  eapply steps_head;
    [eapply s_worker with (ws1 := []);
     [apply w_unmarshal; reflexivity | reflexivity]|].
  eapply steps_head;
    [eapply s_worker with (ws1 := []);
     [apply w_range_doi; reflexivity | reflexivity]|].
  eapply steps_head;
    [eapply s_worker with (ws1 := []); [apply w_ticket | reflexivity]|].
  eapply steps_head;
    [eapply s_worker with (ws1 := []);
     [apply (w_get _ _ _ _ _ sampleResult) | reflexivity]|].
  eapply steps_head;
    [eapply s_worker with (ws1 := []); [apply w_return | reflexivity]|].
  eapply steps_head;
    [eapply s_worker with (ws1 := []); [apply w_range_end | reflexivity]|].
  eapply steps_head;
    [eapply s_worker with (ws1 := [_]);
     [apply w_unmarshal; reflexivity | reflexivity]|].
  eapply steps_head;
    [eapply s_worker with (ws1 := [_]);
     [apply w_range_doi; reflexivity | reflexivity]|].
  eapply steps_head;
    [eapply s_worker with (ws1 := [_]); [apply w_ticket | reflexivity]|].
  eapply steps_head;
    [eapply s_worker with (ws1 := [_]);
     [apply (w_get _ _ _ _ _ sampleResult) | reflexivity]|].
  eapply steps_head;
    [eapply s_worker with (ws1 := [_]); [apply w_return | reflexivity]|].
  eapply steps_head;
    [eapply s_worker with (ws1 := [_]); [apply w_range_end | reflexivity]|].
  eapply steps_head;
    [eapply s_writer; [apply (o_header true) | reflexivity]|].
  eapply steps_head;
    [eapply s_publish with (ws1 := []); [apply w_send | apply o_recv]|].
  eapply steps_head;
    [eapply s_writer;
     [apply (o_write_err _ _ _ _ _ "no space left on device")
     | reflexivity]|].
  apply steps_refl.
Qed.

(** C2, as stated, fails for the writer.  When the write of a row fails,
    the writer returns, and the record that arrived with one response has
    got no row.  And the record of the second line, which has one DOI too,
    can then no longer be sent: no step is left, and it never gets its
    row, though no write of a row of its own has failed. *)
Lemma failed_write_loses_rows :
  orun ORange [LRecv sampleRecord; LWriteErr "no space left on device"] ODone /\
  written [LWriteErr "no space left on device"] = [] /\
  List.length (APIResponses sampleRecord) = 1%nat /\
  ~ (forall record tr o,
       orun ORange (LRecv record :: tr) o ->
       forallb ownStep tr = true ->
       o = ORange \/ o = ODone ->
       List.length (written tr) = List.length (APIResponses record)) /\
  exists s,
    steps "me@example.org" 5 sampleUnmarshal
      (St (MScan [sampleLine; sampleLine]) 5 [] None false [] []) s /\
    workers s = [WDone; WSend sampleRecord] /\
    writer s = Some ODone /\
    csvRows s = [header] /\
    forall s', steps "me@example.org" 5 sampleUnmarshal s s' -> s' = s.
Proof.
  assert (Hrun : orun ORange
                   [LRecv sampleRecord; LWriteErr "no space left on device"]
                   ODone).
  { econstructor; [apply o_recv|].
    econstructor; [apply o_write_err | apply orun_nil]. }
  split; [exact Hrun|]. split; [reflexivity|]. split; [reflexivity|]. split.
  { intros H. specialize (H _ _ _ Hrun eq_refl (or_intror eq_refl)).
    discriminate H. }
  eexists. split; [exact stranded_run|].
  split; [reflexivity|]. split; [reflexivity|]. split; [reflexivity|].
  intros s' Hs'. induction Hs' as [|s1 s2 _ IH Hstep]; [reflexivity|].
  subst s1. exfalso.
  inversion Hstep; subst;
    try match goal with Ho : ostep ODone _ _ |- _ => inversion Ho end;
    try discriminate.
  split_workers;
    match goal with Hw : wstep _ _ _ _ _ |- _ => inversion Hw; subst end;
    discriminate.
Qed.

Lemma malformed_lines_skipped_witness :
  (MDone = MWaitOutput \/ MDone = MDone ->
   forall line err,
     In line
       (fst (scanLines MaxScanTokenSize
               ["not json"; (sampleLine ++ CR)%string])) ->
     sampleUnmarshal line = inr err ->
     In err ["invalid character"]) /\
  exists sb,
    steps "me@example.org" 5 sampleUnmarshal
      (St (MScan [sampleLine]) 5 [] None false [] []) sb /\
    csvRows sb
    = [header;
       toCSVOutput sampleRecord false "missing" (doAPIRequest sampleResult)] /\
    writer sb = Some ODone /\
    tickets sb = 5%Z /\
    closed sb = true /\
    (MDone = MDone <-> main sb = MDone).
Proof.
  refine (proj1 (proj2
            (malformed_lines_skipped "me@example.org" 5 sampleUnmarshal
               sampleChanCap MaxScanTokenSize
               ["not json"; (sampleLine ++ CR)%string] _ _ _ eq_refl eq_refl))
            (St MDone 5 [WDone; WDone] (Some ODone) true
               [header;
                toCSVOutput sampleRecord false "missing"
                  (doAPIRequest sampleResult)]
               ["invalid character"]) sample_run).
  repeat constructor.
Defined.

(** The run of the file made of [sampleLine] alone. *)
Lemma sample_run_wellformed :
  steps "me@example.org" 5 sampleUnmarshal
    (St (MScan [sampleLine]) 5 [] None false [] [])
    (St MDone 5 [WDone] (Some ODone) true
       [header;
        toCSVOutput sampleRecord false "missing" (doAPIRequest sampleResult)]
       []).
Proof.
  eapply steps_head; [apply s_go_line|].
  eapply steps_head; [apply s_go_output|].
  eapply steps_head;
    [eapply s_worker with (ws1 := []);
     [apply w_unmarshal; reflexivity | reflexivity]|].
  eapply steps_head;
    [eapply s_worker with (ws1 := []);
     [apply w_range_doi; reflexivity | reflexivity]|].
  eapply steps_head;
    [eapply s_worker with (ws1 := []); [apply w_ticket | reflexivity]|].
  eapply steps_head;
    [eapply s_worker with (ws1 := []);
     [apply (w_get _ _ _ _ _ sampleResult) | reflexivity]|].
  eapply steps_head;
    [eapply s_worker with (ws1 := []); [apply w_return | reflexivity]|].
  eapply steps_head;
    [eapply s_worker with (ws1 := []); [apply w_range_end | reflexivity]|].
  eapply steps_head;
    [eapply s_writer; [apply (o_header true) | reflexivity]|].
  eapply steps_head;
    [eapply s_publish with (ws1 := []); [apply w_send | apply o_recv]|].
  eapply steps_head; [eapply s_writer; [apply o_write | reflexivity]|].
  eapply steps_head; [eapply s_writer; [apply o_next | reflexivity]|].
  eapply steps_head; [apply s_wait_lines; reflexivity|].
  eapply steps_head; [eapply s_writer_closed; apply o_closed|].
  eapply steps_head;
    [eapply s_writer; [apply (o_flush None) | reflexivity]|].
  eapply steps_head; [apply s_wait_output|].
  apply steps_refl.
Qed.

(** C7, as stated, fails: in the file made of a malformed line of 64 KiB
    and of [sampleLine], the malformed line ends the scan of [main.go].  No
    worker is launched: the run writes the header at most and the error of
    the line is not logged, while the well-formed line alone gives its
    row. *)
Lemma oversized_malformed_line_ends_scan :
  sampleUnmarshal (dropCR (longLine (256 * 256))) = inr "invalid character" /\
  fst (scanLines MaxScanTokenSize [longLine (256 * 256); sampleLine]) = [] /\
  fst (scanLines MaxScanTokenSize
         (filter (fun line => wellformed sampleUnmarshal (dropCR line))
            [longLine (256 * 256); sampleLine]))
  = [sampleLine] /\
  (forall s,
     steps "me@example.org" 5 sampleUnmarshal
       (St (MScan
              (fst (scanLines MaxScanTokenSize
                      [longLine (256 * 256); sampleLine])))
          5 [] None false [] []) s ->
     workers s = [] /\
     (csvRows s = [] \/ csvRows s = [header]) /\
     ~ In "invalid character" (logged s)) /\
  (exists s,
     steps "me@example.org" 5 sampleUnmarshal
       (St (MScan
              (fst (scanLines MaxScanTokenSize
                      (filter
                         (fun line => wellformed sampleUnmarshal (dropCR line))
                         [longLine (256 * 256); sampleLine]))))
          5 [] None false [] []) s /\
     main s = MDone /\
     csvRows s
     = [header;
        toCSVOutput sampleRecord false "missing" (doAPIRequest sampleResult)]).
Proof.
  assert (H1 : fst (scanLines MaxScanTokenSize
                      [longLine (256 * 256); sampleLine]) = [])
    by (vm_compute; reflexivity).
  assert (H2 : fst (scanLines MaxScanTokenSize
                      (filter
                         (fun line => wellformed sampleUnmarshal (dropCR line))
                         [longLine (256 * 256); sampleLine]))
               = [sampleLine])
    by (vm_compute; reflexivity).
  split; [vm_compute; reflexivity|]. split; [exact H1|]. split; [exact H2|].
  rewrite H1, H2. split.
  - intros s Hs.
    apply steps_no_lines in Hs as (Hws & _ & Hrows & Hlog).
    split; [exact Hws|]. split.
    + destruct (writer s) as [[| | | |]|]; auto; contradiction.
    + intros Hin. rewrite Forall_forall in Hlog.
      destruct (Hlog _ Hin) as [err Herr]. discriminate Herr.
  - eexists. split; [exact sample_run_wellformed|]. split; reflexivity.
Qed.

Lemma failed_write_blocks_batch_witness :
  exists s,
    bsteps "me@example.org" 5 sampleUnmarshal sampleChanCap
      (Batch None
         [File "a.json" (inr [sampleLine; "{}"]);
          File "b.json" (inr [sampleLine])] [])
      (Batch (Some s) [File "b.json" (inr [sampleLine])]
         ["Processing a.json"]) /\
    main s = MWaitLines /\
    writer s = Some ODone /\
    workers s = [WDone; WSend {| Pub := emptyPublication; APIResponses := [] |}] /\
    csvRows s = [header] /\
    logged s = ["error writing record to csv: no space left on device"] /\
    (forall b,
       ~ bstep "me@example.org" 5 sampleUnmarshal sampleChanCap
           (Batch (Some s) [File "b.json" (inr [sampleLine])]
              ["Processing a.json"]) b) /\
    (forall b,
       bsteps "me@example.org" 5 sampleUnmarshal sampleChanCap
         (Batch (Some s) [File "b.json" (inr [sampleLine])]
            ["Processing a.json"]) b ->
       b = Batch (Some s) [File "b.json" (inr [sampleLine])]
             ["Processing a.json"]) /\
    (forall s1 files1 lg1 b,
       blocked sampleUnmarshal s1 ->
       bsteps "me@example.org" 5 sampleUnmarshal sampleChanCap
         (Batch (Some s1) files1 lg1) b ->
       exists s2,
         b = Batch (Some s2) files1 lg1 /\ main s2 = MWaitLines /\
         writer s2 = Some ODone).
Proof.
  apply (failed_write_blocks_batch "me@example.org" 5 sampleUnmarshal
           sampleChanCap "a.json" sampleLine "{}" "10.1000/182"
           "no space left on device" samplePublication emptyPublication
           sampleResult [File "b.json" (inr [sampleLine])]);
    try reflexivity.
  split; [reflexivity | discriminate].
Defined.

Lemma short_lines_dispatched_witness :
  scanLines MaxScanTokenSize [(sampleLine ++ CR)%string; "{}"]
  = ([sampleLine; "{}"], false).
Proof.
  refine (proj1
            (short_lines_dispatched "me@example.org" 5 sampleUnmarshal
               sampleChanCap MaxScanTokenSize
               [(sampleLine ++ CR)%string; "{}"] _ _ eq_refl)).
  repeat constructor.
Defined.

(** * Further properties *)

(** ** Registry links, continued *)

Lemma get_None_length (n : nat) (s : string) :
  String.get n s = None <-> (String.length s <= n)%nat.
Proof.
  revert n. induction s as [|c s IH]; intros n; simpl.
  - split; [lia | reflexivity].
  - destruct n as [|n].
    + split; [discriminate | lia].
    + rewrite IH. lia.
Qed.

Lemma sherpaSegment_None (acc : list string) (issn : string) :
  sherpaSegment acc issn = None <->
  issn <> "" /\ (String.length issn < 5)%nat.
Proof.
  unfold sherpaSegment.
  destruct (issn =? "") eqn:E.
  - apply String.eqb_eq in E. split; [discriminate | intros [H _]; contradiction].
  - apply String.eqb_neq in E.
    destruct (String.get 4 issn) as [b|] eqn:G.
    + assert (Hlen : ~ (String.length issn <= 4)%nat)
        by (rewrite <- get_None_length, G; discriminate).
      split; [|intros [_ H]; lia].
      destruct ((string_of_byte b =? "-") && (String.length issn =? 9)%nat);
        [discriminate|].
      destruct (String.length issn =? 8)%nat; discriminate.
    + apply get_None_length in G. split; [intros _; split; [exact E | lia] | reflexivity].
Qed.

Lemma sherpaRange_None (issnsSplit acc : list string) :
  sherpaRange issnsSplit acc = None <->
  exists issn,
    In issn issnsSplit /\ issn <> "" /\ (String.length issn < 5)%nat.
Proof.
  revert acc. induction issnsSplit as [|issn rest IH]; intros acc; simpl.
  - split; [discriminate | intros [x [[] _]]].
  - destruct (sherpaSegment acc issn) as [acc'|] eqn:E.
    + rewrite IH. split.
      * intros [x [Hin Hx]]. exists x. auto.
      * intros [x [[<- | Hin] Hx]]; [|exists x; auto].
        apply sherpaSegment_None with (acc := acc) in Hx. congruence.
    + split; [|reflexivity]. intros _. exists issn. split; [now left|].
      now apply sherpaSegment_None in E.
Qed.

Lemma makeSherpaLink_None (issns : string) :
  makeSherpaLink issns = None <->
  exists issn,
    In issn (Split issns ",") /\ issn <> "" /\ (String.length issn < 5)%nat.
Proof.
  unfold makeSherpaLink. destruct (issns =? "") eqn:E.
  - apply String.eqb_eq in E. subst. split; [discriminate|].
    intros [x [[<- | []] [Hx _]]]. now destruct Hx.
  - rewrite <- sherpaRange_None with (acc := []).
    destruct (sherpaRange (Split issns ",") []); split; congruence.
Qed.

(** X1: [makeSherpaLink] panics exactly on the inputs that have, between
    two commas or at an end, a non-empty segment of fewer than five bytes;
    on every other input it returns. *)
Theorem makeSherpaLink_panics_iff (issns : string) :
  (makeSherpaLink issns = None <->
   exists issn,
     In issn (Split issns ",") /\ issn <> "" /\ (String.length issn < 5)%nat) /\
  ((forall issn,
      In issn (Split issns ",") -> issn = "" \/ (5 <= String.length issn)%nat) ->
   exists r, makeSherpaLink issns = Some r).
Proof.
  split; [apply makeSherpaLink_None|].
  intros Hall. destruct (makeSherpaLink issns) as [r|] eqn:E; [eauto|].
  apply makeSherpaLink_None in E as (issn & Hin & Hne & Hlen).
  destruct (Hall issn Hin) as [-> | H]; [now destruct Hne | lia].
Qed.

(** The early return on the empty string agrees with the loop. *)
Lemma makeSherpaLink_loop (issns : string) :
  makeSherpaLink issns
  = option_map (fun links => Join links ",") (sherpaRange (Split issns ",") []).
Proof.
  unfold makeSherpaLink. destruct (issns =? "") eqn:E.
  - apply String.eqb_eq in E. subst. reflexivity.
  - destruct (sherpaRange (Split issns ",") []); reflexivity.
Qed.

Lemma sherpaSegment_acc (acc : list string) (issn : string) :
  sherpaSegment acc issn
  = option_map (fun links => acc ++ links)%list (sherpaSegment [] issn).
Proof.
  unfold sherpaSegment.
  destruct (issn =? ""); [simpl; now rewrite app_nil_r|].
  destruct (String.get 4 issn) as [b|]; [|reflexivity].
  destruct ((string_of_byte b =? "-") && (String.length issn =? 9)%nat);
    [reflexivity|].
  destruct (String.length issn =? 8)%nat; simpl; [reflexivity|].
  now rewrite app_nil_r.
Qed.

Lemma sherpaRange_acc (issnsSplit acc : list string) :
  sherpaRange issnsSplit acc
  = option_map (fun links => acc ++ links)%list (sherpaRange issnsSplit []).
Proof.
  revert acc. induction issnsSplit as [|issn rest IH]; intros acc; simpl.
  - now rewrite app_nil_r.
  - rewrite (sherpaSegment_acc acc).
    destruct (sherpaSegment [] issn) as [l|]; simpl; [|reflexivity].
    rewrite (IH (acc ++ l)%list), (IH l).
    destruct (sherpaRange rest []) as [l'|]; simpl; [|reflexivity].
    now rewrite app_assoc.
Qed.

Lemma sherpaRange_app (l1 l2 acc : list string) :
  sherpaRange (l1 ++ l2)%list acc
  = match sherpaRange l1 acc with
    | None => None
    | Some acc' => sherpaRange l2 acc'
    end.
Proof.
  revert acc. induction l1 as [|issn l1 IH]; intros acc; simpl; [reflexivity|].
  destruct (sherpaSegment acc issn); [apply IH | reflexivity].
Qed.

Lemma Split_append (a b : string) (sep : ascii) :
  Split (a ++ String sep b) sep = (Split a sep ++ Split b sep)%list.
Proof.
  induction a as [|c a IH]; simpl.
  - now rewrite Ascii.eqb_refl.
  - destruct (Ascii.eqb c sep); rewrite IH; [reflexivity|].
    destruct (Split a sep) as [|hd tl] eqn:E; [|reflexivity].
    now destruct (Split_not_nil a sep).
Qed.

Lemma string_append_assoc (a b c : string) : (a ++ b) ++ c = a ++ (b ++ c).
Proof.
  induction a as [|x a IH]; simpl; [reflexivity | now rewrite IH].
Qed.

Lemma Join_nonempty (links : list string) :
  Forall nonempty links -> (Join links "," = "" <-> links = []).
Proof.
  intros H. destruct H as [|l links Hl _]; [tauto|].
  split; [|discriminate]. intros HJ. exfalso.
  destruct l as [|c l]; [now apply Hl|].
  simpl in HJ. destruct links; discriminate HJ.
Qed.

Lemma Join_app (l1 l2 : list string) :
  Forall nonempty l1 -> Forall nonempty l2 ->
  Join (l1 ++ l2)%list "," = joinLinks (Join l1 ",") (Join l2 ",").
Proof.
  intros H1 H2. unfold joinLinks.
  destruct (Join l1 "," =? "") eqn:E1.
  - apply String.eqb_eq, (Join_nonempty _ H1) in E1. now subst.
  - destruct (Join l2 "," =? "") eqn:E2.
    + apply String.eqb_eq, (Join_nonempty _ H2) in E2. subst. now rewrite app_nil_r.
    + apply String.eqb_neq in E1, E2.
      assert (N2 : l2 <> []) by (intros ->; now apply E2).
      assert (N1 : l1 <> []) by (intros ->; now apply E1).
      clear E1 E2 H1 H2.
      induction l1 as [|x l1 IH]; [now destruct N1|].
      destruct l1 as [|y l1].
      * simpl. destruct l2; [now destruct N2 | reflexivity].
      * change (Join ((x :: y :: l1) ++ l2)%list ",")
          with (x ++ "," ++ Join ((y :: l1) ++ l2)%list ",").
        rewrite IH by discriminate.
        change (Join (x :: y :: l1) ",") with (x ++ "," ++ Join (y :: l1) ",").
        rewrite string_append_assoc. reflexivity.
Qed.

Lemma sherpaRange_nonempty (issnsSplit acc links : list string) :
  sherpaRange issnsSplit acc = Some links ->
  Forall nonempty acc -> Forall nonempty links.
Proof.
  revert acc. induction issnsSplit as [|issn rest IH]; simpl; intros acc H Hacc.
  - now inversion H; subst.
  - destruct (sherpaSegment acc issn) as [acc'|] eqn:E; [|discriminate].
    apply (IH _ H). unfold sherpaSegment in E.
    destruct (issn =? ""); [now inversion E; subst|].
    destruct (String.get 4 issn) as [b|]; [|discriminate].
    destruct ((string_of_byte b =? "-") && (String.length issn =? 9)%nat).
    + inversion E; subst. apply Forall_app. split; [exact Hacc|].
      repeat constructor. discriminate.
    + destruct (String.length issn =? 8)%nat; inversion E; subst; [|exact Hacc].
      apply Forall_app. split; [exact Hacc|]. repeat constructor. discriminate.
Qed.

(** X2: [makeSherpaLink] works segment by segment: on two inputs put
    together with a comma it panics when it does on one of them, and else
    returns the links of the first followed by the links of the second, with
    a comma in between when both have links. *)
Theorem makeSherpaLink_comma (a b : string) :
  makeSherpaLink (a ++ "," ++ b)
  = match makeSherpaLink a, makeSherpaLink b with
    | Some ra, Some rb => Some (joinLinks ra rb)
    | _, _ => None
    end.
Proof.
  rewrite !makeSherpaLink_loop.
  change (a ++ "," ++ b) with (a ++ String "," b).
  rewrite Split_append, sherpaRange_app.
  destruct (sherpaRange (Split a ",") []) as [la|] eqn:Ea; simpl; [|reflexivity].
  rewrite sherpaRange_acc.
  destruct (sherpaRange (Split b ",") []) as [lb|] eqn:Eb; simpl; [|reflexivity].
  f_equal. apply Join_app.
  - eapply sherpaRange_nonempty; [exact Ea | constructor].
  - eapply sherpaRange_nonempty; [exact Eb | constructor].
Qed.

Lemma string_of_byte_hyphen (b : ascii) :
  (string_of_byte b =? "-") = true -> b = "-"%char.
Proof.
  unfold string_of_byte. destruct (N_of_ascii b <? 128)%N.
  - intros H. apply String.eqb_eq in H. now injection H.
  - simpl. destruct (Ascii.eqb _ "-"); discriminate.
Qed.

Lemma linkedISSN_shape (issn x : string) :
  linkedISSN issn = Some x ->
  String.length x = 9%nat /\ String.get 4 x = Some "-"%char.
Proof.
  unfold linkedISSN.
  destruct (String.get 4 issn) as [b|] eqn:G; [|discriminate].
  destruct (string_of_byte b =? "-") eqn:Eb; simpl.
  - destruct (String.length issn =? 9)%nat eqn:E9.
    + intros H. injection H as <-. apply Nat.eqb_eq in E9.
      apply string_of_byte_hyphen in Eb. subst b. auto.
    + destruct (String.length issn =? 8)%nat eqn:E8; [|discriminate].
      intros H. injection H as <-. apply Nat.eqb_eq in E8.
      do 9 (destruct issn as [|? issn]; try discriminate). auto.
  - destruct (String.length issn =? 8)%nat eqn:E8; [|discriminate].
    intros H. injection H as <-. apply Nat.eqb_eq in E8.
    do 9 (destruct issn as [|? issn]; try discriminate). auto.
Qed.

Lemma sherpaSegment_linked (acc acc' : list string) (issn : string) :
  sherpaSegment acc issn = Some acc' ->
  acc' = (acc ++ map sherpaLinkOf (linkedISSNs [issn]))%list.
Proof.
  unfold sherpaSegment, linkedISSNs, linkedISSN. simpl.
  destruct (issn =? "") eqn:E.
  - apply String.eqb_eq in E. subst. simpl. intros H. injection H as <-.
    now rewrite app_nil_r.
  - destruct (String.get 4 issn) as [b|]; [|discriminate].
    destruct ((string_of_byte b =? "-") && (String.length issn =? 9)%nat).
    + intros H. now injection H as <-.
    + destruct (String.length issn =? 8)%nat; intros H; injection H as <-;
        [reflexivity | now rewrite app_nil_r].
Qed.

Lemma sherpaRange_linked (issnsSplit acc links : list string) :
  sherpaRange issnsSplit acc = Some links ->
  links = (acc ++ map sherpaLinkOf (linkedISSNs issnsSplit))%list.
Proof.
  revert acc. induction issnsSplit as [|issn rest IH]; simpl; intros acc H.
  - injection H as <-. now rewrite app_nil_r.
  - destruct (sherpaSegment acc issn) as [acc'|] eqn:E; [|discriminate].
    apply sherpaSegment_linked in E. apply IH in H. subst.
    unfold linkedISSNs in *. simpl in *.
    rewrite app_nil_r, map_app, <- app_assoc. reflexivity.
Qed.

(** X3: where [makeSherpaLink] returns, the result is made, in the order of
    the input, of one link for every segment of nine bytes with a hyphen as
    the fifth and one for every segment of eight bytes, joined by commas;
    every other segment is passed over; and the ISSN in every link has nine
    bytes with a hyphen as the fifth. *)
Theorem makeSherpaLink_links (issns r : string) :
  makeSherpaLink issns = Some r ->
  r = Join (map sherpaLinkOf (linkedISSNs (Split issns ","))) "," /\
  Forall (fun x => String.length x = 9%nat /\ String.get 4 x = Some "-"%char)
    (linkedISSNs (Split issns ",")) /\
  (List.length (linkedISSNs (Split issns ","))
   <= List.length (Split issns ","))%nat.
Proof.
  rewrite makeSherpaLink_loop.
  destruct (sherpaRange (Split issns ",") []) as [links|] eqn:E; [|discriminate].
  simpl. intros H. injection H as <-.
  apply sherpaRange_linked in E. simpl in E. subst links.
  split; [reflexivity|]. split.
  - unfold linkedISSNs. apply Forall_flat_map, Forall_forall.
    intros issn _. destruct (linkedISSN issn) as [x|] eqn:Ex; [|constructor].
    constructor; [now apply linkedISSN_shape in Ex | constructor].
  - unfold linkedISSNs. induction (Split issns ",") as [|issn l IH]; simpl; [lia|].
    rewrite length_app. destruct (linkedISSN issn); simpl; lia.
Qed.

Lemma makeSherpaLink_links_witness :
  SHERPAURI ++ "1234-5678/" ++ "," ++ SHERPAURI ++ "abcd-efgh/"
  = Join (map sherpaLinkOf
            (linkedISSNs (Split "12345678,12345,,abcd-efgh" ","))) ",".
Proof.
  exact (proj1 (makeSherpaLink_links "12345678,12345,,abcd-efgh" _ eq_refl)).
Defined.

(** ** The request *)

Lemma substring_all (s : string) : String.substring 0 (String.length s) s = s.
Proof.
  induction s as [|c s IH]; simpl; [reflexivity | now rewrite IH].
Qed.

(** X4: a DOI given with the prefix "http://dx.doi.org/" is asked for under
    the same address as the DOI without it: the prefix is taken off once,
    and what follows goes into the address as it is, between the base and
    the parameter [email]; a DOI that does not start with the prefix goes
    in whole. *)
Theorem requestURL_prefix (email doi : string) :
  requestURL email ("http://dx.doi.org/" ++ doi)
  = OADOIURL ++ doi ++ "?email=" ++ email /\
  (String.prefix "http://dx.doi.org/" doi = false ->
   requestURL email doi = OADOIURL ++ doi ++ "?email=" ++ email) /\
  (String.prefix "http://dx.doi.org/" doi = false ->
   requestURL email ("http://dx.doi.org/" ++ doi) = requestURL email doi).
Proof.
  assert (H1 : requestURL email ("http://dx.doi.org/" ++ doi)
               = OADOIURL ++ doi ++ "?email=" ++ email).
  { unfold requestURL, TrimPrefix. simpl.
    destruct doi as [|c doi]; [reflexivity|].
    simpl. now rewrite substring_all. }
  assert (H2 : String.prefix "http://dx.doi.org/" doi = false ->
               requestURL email doi = OADOIURL ++ doi ++ "?email=" ++ email).
  { intros H. unfold requestURL, TrimPrefix. now rewrite H. }
  split; [exact H1|]. split; [exact H2|].
  intros H. now rewrite H1, H2.
Qed.

(** ** The writer's derived fields, continued *)

Lemma weight_positive (t : string) :
  (0 < weight t)%Z -> In t scaleLabels.
Proof.
  intros H. unfold weight in H. unfold attachmentTypeToWeightMap in H.
  cbn [mapIndex] in H.
  unfold scaleLabels, attachmentTypeToWeightMap. cbn [map fst In].
  destruct ("missing" =? t) eqn:E0; [lia|].
  destruct ("other" =? t) eqn:E1; [apply String.eqb_eq in E1; auto|].
  destruct ("submittedManuscript" =? t) eqn:E2; [apply String.eqb_eq in E2; auto|].
  destruct ("acceptedManuscript" =? t) eqn:E3; [apply String.eqb_eq in E3; auto 6|].
  destruct ("finalVersion" =? t) eqn:E4; [apply String.eqb_eq in E4; auto 7|].
  lia.
Qed.

Lemma weight_injective (x y : string) :
  In x scaleLabels -> In y scaleLabels -> weight x = weight y -> x = y.
Proof.
  unfold scaleLabels. simpl.
  intros [<- | [<- | [<- | [<- | [<- | []]]]]]
         [<- | [<- | [<- | [<- | [<- | []]]]]];
    intros H; try reflexivity; discriminate H.
Qed.

Lemma attachmentStep_weight (artudisOA : bool) (highestLevel : string)
    (a : AttachmentEntry) :
  attachmentStep (artudisOA, highestLevel) a
  = if OpenAccess a =? "true"
    then (true,
          if (weight (AttachmentType a) >? weight highestLevel)%Z
          then AttachmentType a else highestLevel)
    else (artudisOA, highestLevel).
Proof. reflexivity. Qed.

Lemma fold_attachmentStep_rank (attachments : list AttachmentEntry)
    (artudisOA : bool) (highestLevel : string) :
  weight (snd (fold_left attachmentStep attachments (artudisOA, highestLevel)))
  = Z.max (weight highestLevel) (bestRank attachments).
Proof.
  revert artudisOA highestLevel.
  induction attachments as [|a rest IH]; intros oa hl; cbn [fold_left bestRank snd].
  - pose proof (weight_nonneg hl). lia.
  - rewrite attachmentStep_weight.
    destruct (OpenAccess a =? "true"); [|apply IH].
    destruct (weight (AttachmentType a) >? weight hl)%Z eqn:E; rewrite IH.
    + apply Z.gtb_lt in E. lia.
    + rewrite Z.gtb_ltb in E. apply Z.ltb_ge in E. lia.
Qed.

Lemma fold_attachmentStep_scale (attachments : list AttachmentEntry)
    (artudisOA : bool) (highestLevel : string) :
  In highestLevel scaleLabels ->
  In (snd (fold_left attachmentStep attachments (artudisOA, highestLevel)))
    scaleLabels.
Proof.
  revert artudisOA highestLevel.
  induction attachments as [|a rest IH]; intros oa hl Hhl; cbn [fold_left snd];
    [exact Hhl|].
  rewrite attachmentStep_weight.
  destruct (OpenAccess a =? "true"); [|now apply IH].
  destruct (weight (AttachmentType a) >? weight hl)%Z eqn:E; apply IH; [|exact Hhl].
  apply Z.gtb_lt in E. apply weight_positive.
  pose proof (weight_nonneg hl). lia.
Qed.

Lemma bestRank_permutation (l l' : list AttachmentEntry) :
  Permutation l l' -> bestRank l = bestRank l'.
Proof.
  induction 1 as [|a l l' _ IH|a b l|l l' l'' _ IH1 _ IH2]; simpl.
  - reflexivity.
  - now rewrite IH.
  - destruct (OpenAccess a =? "true"), (OpenAccess b =? "true"); lia.
  - congruence.
Qed.

Lemma bestRank_app (l more : list AttachmentEntry) :
  (bestRank l <= bestRank (l ++ more))%Z.
Proof.
  induction l as [|a l IH]; simpl.
  - induction more as [|b more IHm]; simpl; [lia|].
    destruct (OpenAccess b =? "true"); lia.
  - destruct (OpenAccess a =? "true"); lia.
Qed.

(** X5: the two derived fields of a record do not depend on the order of
    its attachments; the label is always one of the five labels of the
    scale, its rank is the highest rank of an open-access attachment, and
    more attachments never lower it. *)
Theorem localOA_order_independent :
  (forall attachments attachments',
     Permutation attachments attachments' ->
     localOA attachments = localOA attachments') /\
  (forall attachments,
     In (snd (localOA attachments)) scaleLabels /\
     weight (snd (localOA attachments)) = bestRank attachments) /\
  (forall attachments more,
     (weight (snd (localOA attachments))
      <= weight (snd (localOA (attachments ++ more))))%Z /\
     (fst (localOA attachments) = true ->
      fst (localOA (attachments ++ more)) = true)).
Proof.
  assert (Hscale : forall attachments, In (snd (localOA attachments)) scaleLabels).
  { intros l. apply fold_attachmentStep_scale. left. reflexivity. }
  assert (Hrank : forall attachments,
             weight (snd (localOA attachments)) = bestRank attachments).
  { intros l. unfold localOA. rewrite fold_attachmentStep_rank.
    change (weight "missing") with 0%Z.
    assert (0 <= bestRank l)%Z; [|lia].
    induction l as [|a l IH]; simpl; [lia|].
    destruct (OpenAccess a =? "true"); lia. }
  split; [|split].
  - intros l l' Hperm.
    rewrite (surjective_pairing (localOA l)), (surjective_pairing (localOA l')).
    f_equal.
    + unfold localOA. rewrite !fold_attachmentStep_fst. simpl.
      apply eq_true_iff_eq. rewrite !existsb_exists.
      split; intros [a [Hin Ha]]; exists a; split; auto.
      * eapply Permutation_in; eauto.
      * eapply Permutation_in; [apply Permutation_sym|]; eauto.
    + apply weight_injective; auto.
      rewrite !Hrank. now apply bestRank_permutation.
  - intros l. auto.
  - intros l more. split.
    + rewrite !Hrank. apply bestRank_app.
    + unfold localOA. rewrite !fold_attachmentStep_fst. simpl.
      rewrite existsb_app. intros ->. reflexivity.
Qed.

(** ** The row with the registry link *)

(** X12: the row of the revision with the registry link.  It cannot be made
    exactly when [journal_issns] of the response has a non-empty segment of
    fewer than five bytes (the writer panics); when it is made it has as
    many fields as that revision's header, it gives under every column name
    of [main.go] the value that [main.go] gives under that name, and its
    last field is the registry link. *)
Theorem toCSVOutputSherpa_row (record : EnrichedRecord) (artudisOA : bool)
    (highestLevel : string) (apiresponse : APIResponse) :
  (toCSVOutputSherpa record artudisOA highestLevel apiresponse = None <->
   exists issn,
     In issn (Split (JournalIssns (Body apiresponse)) ",") /\
     issn <> "" /\ (String.length issn < 5)%nat) /\
  (forall row,
     toCSVOutputSherpa record artudisOA highestLevel apiresponse = Some row ->
     List.length row = List.length headerSherpa /\
     (forall name value,
        In (name, value)
          (combine header
             (toCSVOutput record artudisOA highestLevel apiresponse)) ->
        In (name, value) (combine headerSherpa row)) /\
     In ("API - Sherpa Link",
         match makeSherpaLink (JournalIssns (Body apiresponse)) with
         | Some link => link
         | None => ""
         end)
       (combine headerSherpa row)).
Proof.
  unfold toCSVOutputSherpa. split.
  - rewrite <- makeSherpaLink_None.
    destruct (makeSherpaLink (JournalIssns (Body apiresponse)));
      split; congruence.
  - intros row H.
    destruct (makeSherpaLink (JournalIssns (Body apiresponse))) as [link|];
      [|discriminate].
    injection H as <-. split; [reflexivity|]. split.
    + intros name value Hin. simpl in Hin.
      repeat (destruct Hin as [Hin | Hin];
              [injection Hin as <- <-; simpl; auto 20|]).
      destruct Hin.
    + simpl. auto 20.
Qed.

(** ** The pipeline, continued *)

Section MorePipelineProperties.

Variable email : string.
Variable httplimit : Z.
Variable Unmarshal : string -> Publication + string.
Variable maxChanCap : Z.

Local Abbreviation wstep := (wstep email Unmarshal).
Local Abbreviation wrun := (wrun email Unmarshal).
Local Abbreviation step := (step email httplimit Unmarshal).
Local Abbreviation steps := (steps email httplimit Unmarshal).
Local Abbreviation bstep := (bstep email httplimit Unmarshal maxChanCap).
Local Abbreviation bsteps := (bsteps email httplimit Unmarshal maxChanCap).
Local Abbreviation launchedOn := (launchedOn email Unmarshal).

Local Open Scope Z_scope.

(** *** The lookups of one record *)

Lemma wrun_snoc (w0 w w' : worker) (tr : list wlabel) (l : wlabel) :
  wrun w0 tr w -> wstep w l w' -> wrun w0 (tr ++ [l])%list w'.
Proof.
  intros Hrun Hstep. eapply wrun_app; [exact Hrun|].
  econstructor; [exact Hstep | apply wrun_nil].
Qed.

Lemma wrun_snoc_inv (w0 w' : worker) (tr : list wlabel) (l : wlabel) :
  wrun w0 (tr ++ [l])%list w' ->
  exists w, wrun w0 tr w /\ wstep w l w'.
Proof.
  revert w0. induction tr as [|l0 tr IH]; intros w0 H; simpl in H.
  - inversion H as [|? ? ? ? ? Hstep Hrest]; subst.
    inversion Hrest; subst. exists w0. split; [apply wrun_nil | exact Hstep].
  - inversion H as [|? ? ? ? ? Hstep Hrest]; subst.
    destruct (IH _ Hrest) as [w [Hrun Hlast]].
    exists w. split; [econstructor; eauto | exact Hlast].
Qed.

Lemma gateOps_app (tr1 tr2 : list wlabel) :
  gateOps (tr1 ++ tr2) = (gateOps tr1 ++ gateOps tr2)%list.
Proof.
  induction tr1 as [|l tr1 IH]; simpl; [reflexivity|].
  destruct l; simpl; now rewrite IH.
Qed.

Lemma requests_app (tr1 tr2 : list wlabel) :
  requests (tr1 ++ tr2) = (requests tr1 ++ requests tr2)%list.
Proof.
  induction tr1 as [|l tr1 IH]; simpl; [reflexivity|].
  destruct l; simpl; now rewrite IH.
Qed.

Lemma concat_repeat_snoc {A : Type} (x : list A) (n : nat) :
  (List.concat (repeat x n) ++ x)%list = List.concat (repeat x (S n)).
Proof.
  induction n as [|n IH]; simpl; [now rewrite app_nil_r|].
  simpl in IH. now rewrite <- app_assoc, IH.
Qed.

(** X7: the lookups of one record go one after the other.  In every run of
    a worker, from its launch on, the receives and sends on [ticketToHTTP]
    alternate and start with a receive, so the worker never holds two
    tickets and gives none back that it has not taken; and it has made one
    request for every ticket taken, the last one still to come while it
    stands at [http.Get]. *)
Theorem worker_lookups_sequential (line : string) (tr : list wlabel)
    (w : worker) :
  wrun (WUnmarshal line) tr w ->
  exists n,
    gateOps tr
    = (List.concat (repeat [LAcquire; LRelease] n)
       ++ (if holding w then [LAcquire] else []))%list /\
    List.length (requests tr)
    = (n + match w with WReturn _ _ _ => 1 | _ => 0 end)%nat.
Proof.
  revert w. induction tr as [|l tr IH] using rev_ind; intros w H.
  - inversion H; subst. exists 0%nat. auto.
  - apply wrun_snoc_inv in H as [w1 [Hrun Hstep]].
    destruct (IH _ Hrun) as [n [Hgate Hreq]].
    rewrite gateOps_app, requests_app, length_app, Hgate, Hreq.
    inversion Hstep; subst; simpl;
      try (exists n; rewrite ?app_nil_r; split; [reflexivity | lia]).
    exists (S n). rewrite app_nil_r, <- app_assoc.
    split; [apply (concat_repeat_snoc [LAcquire; LRelease] n) | lia].
Qed.

(** *** Where the rows come from *)

(** X8: no row is made up, and the rows of a record stay together.  In
    every state that the run of a file reaches, the rows handed to the CSV
    writer are the header, at most once and first, then for each record
    that the writer has been through all its rows, one for each response
    and in their order, and last the first rows of the record it holds or
    held when a write failed; every such record was sent for a line of the
    file that decodes, with one response for every identifier of scheme
    "doi"; and every row has as many fields as the header. *)
Theorem rows_come_from_lines (lines : list string) (s0 s : state) :
  processFile httplimit maxChanCap lines = Some s0 ->
  steps s0 s ->
  (exists hd recs cur,
     csvRows s = (hd ++ flat_map rowsFor recs ++ cur)%list /\
     (hd = [] \/ hd = [header]) /\
     Forall (publishedFrom Unmarshal lines) recs /\
     (cur = [] \/ firstRowsOf Unmarshal lines cur)) /\
  Forall (fun row => List.length row = List.length header) (csvRows s).
Proof.
  intros H0 Hs.
  assert (Hacc : exists hd recs cur, accounted Unmarshal lines s hd recs cur).
  { pose proof H0 as H0'. apply processFile_Some in H0' as [_ ->].
    induction Hs as [|s1 s2 Hs1 [hd [recs [cur IH]]] Hstep].
    - exists [], [], []. repeat split; auto.
    - eapply step_accounted; [|exact IH|exact Hstep].
      eapply steps_launched; [exact H0 | exact Hs1]. }
  destruct Hacc as (hd & recs & cur & Hrows & Hhd & Hrecs & Hw).
  assert (Hcur : cur = [] \/ firstRowsOf Unmarshal lines cur).
  { destruct (writer s) as [[| |record oa hl rest| |]|]; auto.
    - destruct Hw as (_ & _ & ->). auto.
    - destruct Hw as (Hpub & -> & -> & done & Hdone & ->).
      right. exists record, (List.length done). split; [exact Hpub|].
      unfold rowsFor. rewrite Hdone. apply firstn_map_prefix.
    - destruct Hw as (_ & _ & ->). auto. }
  split; [exists hd, recs, cur; auto|].
  rewrite Hrows. apply Forall_app. split.
  - destruct Hhd as [-> | ->]; repeat constructor.
  - apply Forall_app. split.
    + apply Forall_flat_map, Forall_forall. intros record _.
      unfold rowsFor. apply Forall_map, Forall_forall. intros a _. reflexivity.
    + destruct Hcur as [-> | (record & n & _ & ->)]; [constructor|].
      apply Forall_forall. intros row Hin. apply In_firstn in Hin.
      unfold rowsFor in Hin. apply in_map_iff in Hin as [a [<- _]]. reflexivity.
Qed.

(** *** Every malformed line is logged *)

(** X9: no line is dropped without a word.  Once [waitgroupLines.Wait()]
    has returned, and so when [processFile] returns, the log holds the
    error of every line of the file that did not decode. *)
Theorem malformed_lines_logged (lines : list string) (s0 s : state) :
  processFile httplimit maxChanCap lines = Some s0 ->
  steps s0 s ->
  main s = MWaitOutput \/ main s = MDone ->
  forall line err,
    In line lines -> Unmarshal line = inr err -> In err (logged s).
Proof.
  intros H0 Hs Hm. apply processFile_Some in H0 as [_ ->].
  now apply (steps_malformed_logged email httplimit Unmarshal).
Qed.

(** *** A run can always be brought to its end *)

Lemma wellPlaced_step (s s' : state) :
  wellPlaced s -> step s s' -> wellPlaced s'.
Proof.
  intros Hw Hstep. unfold wellPlaced in *.
  inversion Hstep; subst; simpl in *.
  - exact Hw.
  - destruct Hw as [_ Hc]. repeat split; auto; discriminate.
  - exact Hw.
  - destruct m; try exact I;
      destruct Hw as (Hc & Ho); try discriminate.
    match goal with Ho' : ostep _ (LRecv _) _ |- _ => inversion Ho'; subst end.
    repeat split; auto; discriminate.
  - destruct Hw as (_ & Ho & _). auto.
  - match goal with Ho' : ostep _ _ _, Hown : ownStep _ = true |- _ =>
      inversion Ho'; subst; try discriminate Hown
    end;
    destruct m; try exact I;
      try (destruct Hw as [Ho _]; discriminate Ho);
      try (destruct Hw as (Hc & _ & _); repeat split; auto; discriminate);
      try (destruct Hw as (Hc & _); repeat split; auto; discriminate).
  - destruct m; try exact I;
      try (destruct Hw as [_ Hc]; discriminate Hc);
      try (destruct Hw as (Hc & _); discriminate Hc).
    destruct Hw as (Hc & _). split; [exact Hc | discriminate].
  - exact I.
Qed.

(** The writer, when it holds a record or has not yet written the header,
    can get to the head of its loop. *)
Lemma steps_writer_rows (m : mainpc) (t : Z) (ws : list worker)
    (record : EnrichedRecord) (artudisOA : bool) (highestLevel : string)
    (rest : list APIResponse) (c : bool) (rows : list (list string))
    (lg : list string) :
  exists rows',
    steps (St m t ws (Some (ORows record artudisOA highestLevel rest)) c rows lg)
          (St m t ws (Some ORange) c rows' lg).
Proof.
  revert rows. induction rest as [|a rest IH]; intros rows.
  - exists rows. apply steps_one.
    pose proof (s_writer email httplimit Unmarshal m t ws _ _ _ c rows lg
                  (o_next record artudisOA highestLevel) eq_refl) as H.
    simpl in H. now rewrite !app_nil_r in H.
  - destruct (IH (rows ++ [toCSVOutput record artudisOA highestLevel a])%list)
      as [rows' Hsteps].
    exists rows'. eapply steps_head; [|exact Hsteps].
    pose proof (s_writer email httplimit Unmarshal m t ws _ _ _ c rows lg
                  (o_write record artudisOA highestLevel a rest) eq_refl) as H.
    simpl in H. now rewrite app_nil_r in H.
Qed.

Lemma steps_writer_range (m : mainpc) (t : Z) (ws : list worker)
    (o : writerpc) (c : bool) (rows : list (list string)) (lg : list string) :
  o <> OFlush -> o <> ODone ->
  exists rows',
    steps (St m t ws (Some o) c rows lg) (St m t ws (Some ORange) c rows' lg).
Proof.
  intros Hf Hd. destruct o; try contradiction.
  - exists (rows ++ [header])%list. apply steps_one.
    pose proof (s_writer email httplimit Unmarshal m t ws _ _ _ c rows lg
                  (o_header true) eq_refl) as H.
    simpl in H. now rewrite app_nil_r in H.
  - exists rows. apply steps_refl.
  - apply steps_writer_rows.
Qed.

(** With [output] closed, the writer can return and [processFile] with
    it. *)
Lemma steps_after_close (t : Z) (ws : list worker) (o : writerpc)
    (rows : list (list string)) (lg : list string) :
  exists s',
    steps (St MWaitOutput t ws (Some o) true rows lg) s' /\ main s' = MDone.
Proof.
  assert (Hdone : forall rows',
             exists s',
               steps (St MWaitOutput t ws (Some ODone) true rows' lg) s' /\
               main s' = MDone).
  { intros rows'. eexists. split; [apply steps_one, s_wait_output | reflexivity]. }
  assert (Hflush : forall rows',
             exists s',
               steps (St MWaitOutput t ws (Some OFlush) true rows' lg) s' /\
               main s' = MDone).
  { intros rows'. destruct (Hdone rows') as [s' [Hs' Hm]].
    exists s'. split; [|exact Hm]. eapply steps_head; [|exact Hs'].
    pose proof (s_writer email httplimit Unmarshal MWaitOutput t ws _ _ _ true
                  rows' lg (o_flush None) eq_refl) as H.
    simpl in H. now rewrite !app_nil_r in H. }
  assert (Hrange : forall rows',
             exists s',
               steps (St MWaitOutput t ws (Some ORange) true rows' lg) s' /\
               main s' = MDone).
  { intros rows'. destruct (Hflush rows') as [s' [Hs' Hm]].
    exists s'. split; [|exact Hm]. eapply steps_head; [|exact Hs'].
    apply s_writer_closed, o_closed. }
  destruct o; auto.
  - destruct (steps_writer_range MWaitOutput t ws OHeader true rows lg)
      as [rows' Hr]; try discriminate.
    destruct (Hrange rows') as [s' [Hs' Hm]].
    exists s'. split; [eapply steps_trans; eauto | exact Hm].
  - destruct (steps_writer_rows MWaitOutput t ws record artudisOA highestLevel
                rest true rows lg) as [rows' Hr].
    destruct (Hrange rows') as [s' [Hs' Hm]].
    exists s'. split; [eapply steps_trans; eauto | exact Hm].
Qed.

Lemma inflight_zero_cons (w : worker) (ws : list worker) :
  inflight (w :: ws) = 0 -> holding w = false /\ inflight ws = 0.
Proof.
  simpl. pose proof (inflight_nonneg ws). destruct (holding w); [lia | auto].
Qed.

(** A worker that holds a ticket can give it back. *)
Lemma steps_release (w : worker) (pre post : list worker) (m : mainpc) (t : Z)
    (o : option writerpc) (c : bool) (rows : list (list string))
    (lg : list string) :
  holding w = true ->
  t < httplimit ->
  exists w',
    steps (St m t (pre ++ w :: post)%list o c rows lg)
          (St m (t + 1) (pre ++ w' :: post)%list o c rows lg) /\
    holding w' = false.
Proof.
  intros Hw Ht.
  assert (Hret : forall record rest apiResponse,
             steps (St m t (pre ++ WReturn record rest apiResponse :: post)%list
                      o c rows lg)
                   (St m (t + 1)
                      (pre ++ WRange (appendResponse record apiResponse) rest
                           :: post)%list o c rows lg)).
  { intros record rest apiResponse. apply steps_one.
    pose proof (s_worker email httplimit Unmarshal m t (t + 1) pre _ _ _ post o c
                  rows lg (w_return email Unmarshal record rest apiResponse)) as H.
    simpl in H. rewrite app_nil_r in H. apply H.
    apply Z.ltb_lt in Ht. now rewrite Ht. }
  destruct w; try discriminate.
  - eexists. split.
    + eapply steps_head; [|apply Hret].
      pose proof (s_worker email httplimit Unmarshal m t t pre _ _ _ post o c
                    rows lg (w_get email Unmarshal record rest doi (GetFailed ""))
                    eq_refl) as H.
      simpl in H. rewrite app_nil_r in H. exact H.
    + reflexivity.
  - eexists. split; [apply Hret | reflexivity].
Qed.

(** The workers that hold a ticket can all give it back. *)
Lemma steps_release_all (ws pre : list worker) (m : mainpc) (t : Z)
    (o : option writerpc) (c : bool) (rows : list (list string))
    (lg : list string) :
  t + inflight ws <= httplimit ->
  exists ws',
    steps (St m t (pre ++ ws)%list o c rows lg)
          (St m (t + inflight ws) (pre ++ ws')%list o c rows lg) /\
    inflight ws' = 0.
Proof.
  revert pre t. induction ws as [|w ws IH]; intros pre t Hle.
  - exists []. simpl. rewrite Z.add_0_r. split; [apply steps_refl | reflexivity].
  - pose proof (inflight_nonneg ws) as Hnn. cbn [inflight] in *.
    destruct (holding w) eqn:Hw.
    + destruct (steps_release w pre ws m t o c rows lg Hw) as [w' [Hsteps Hw']];
        [lia|].
      destruct (IH (pre ++ [w'])%list (t + 1)) as [ws' [Hsteps' Hzero]]; [lia|].
      rewrite <- !app_assoc in Hsteps'. simpl in Hsteps'.
      exists (w' :: ws'). split; [|cbn [inflight]; rewrite Hw'; lia].
      replace (t + (1 + inflight ws)) with (t + 1 + inflight ws) by lia.
      eapply steps_trans; eauto.
    + destruct (IH (pre ++ [w])%list t) as [ws' [Hsteps' Hzero]]; [lia|].
      rewrite <- !app_assoc in Hsteps'. simpl in Hsteps'.
      exists (w :: ws'). split; [|cbn [inflight]; rewrite Hw; lia].
      replace (t + (0 + inflight ws)) with (t + inflight ws) by lia.
      exact Hsteps'.
Qed.

Lemma step_worker_quiet (w w' : worker) (l : wlabel) (pre post : list worker)
    (m : mainpc) (t t' : Z) (o : option writerpc) (c : bool)
    (rows : list (list string)) (lg : list string) :
  wstep w l w' ->
  wlogOf l = [] ->
  ticketsAfter httplimit l t = Some t' ->
  step (St m t (pre ++ w :: post)%list o c rows lg)
       (St m t' (pre ++ w' :: post)%list o c rows lg).
Proof.
  intros Hw Hl Ht.
  pose proof (s_worker email httplimit Unmarshal m t t' pre w l w' post o c rows
                lg Hw Ht) as H.
  now rewrite Hl, app_nil_r in H.
Qed.

(** With a ticket in the channel, a worker in the loop over the identifiers
    can get to the send. *)
Lemma steps_range_to_send (rest : list IdentifierEntry)
    (record : EnrichedRecord) (pre post : list worker) (m : mainpc) (t : Z)
    (o : option writerpc) (c : bool) (rows : list (list string))
    (lg : list string) :
  0 < t <= httplimit ->
  exists record',
    steps (St m t (pre ++ WRange record rest :: post)%list o c rows lg)
          (St m t (pre ++ WSend record' :: post)%list o c rows lg).
Proof.
  intros Ht. revert record.
  induction rest as [|identifier rest IH]; intros record.
  - exists record. apply steps_one.
    eapply step_worker_quiet; [apply w_range_end | reflexivity | reflexivity].
  - destruct (isDoi identifier) eqn:Hdoi.
    + destruct (IH (appendResponse record (doAPIRequest (GetFailed ""))))
        as [record' Hsteps].
      exists record'.
      eapply steps_head;
        [eapply step_worker_quiet;
         [apply w_range_doi, Hdoi | reflexivity | reflexivity]|].
      eapply steps_head;
        [eapply step_worker_quiet with (t' := t - 1);
         [apply w_ticket | reflexivity|]|].
      { simpl. destruct (0 <? t) eqn:E; [reflexivity|].
        apply Z.ltb_ge in E. lia. }
      eapply steps_head;
        [eapply step_worker_quiet;
         [apply (w_get _ _ _ _ _ (GetFailed "")) | reflexivity | reflexivity]|].
      eapply steps_head;
        [eapply step_worker_quiet with (t' := t);
         [apply w_return | reflexivity|]|].
      { simpl. destruct (t - 1 <? httplimit) eqn:E.
        - f_equal. lia.
        - apply Z.ltb_ge in E. lia. }
      exact Hsteps.
    + destruct (IH record) as [record' Hsteps].
      exists record'.
      eapply steps_head;
        [eapply step_worker_quiet;
         [apply w_range_other, Hdoi | reflexivity | reflexivity]|].
      exact Hsteps.
Qed.

(** With a ticket in the channel, a worker that holds none can get to the
    send, or returns on a line that does not decode. *)
Lemma steps_worker_to_send (w : worker) (pre post : list worker) (m : mainpc)
    (t : Z) (o : option writerpc) (c : bool) (rows : list (list string))
    (lg : list string) :
  holding w = false ->
  0 < t <= httplimit ->
  exists w' lg',
    steps (St m t (pre ++ w :: post)%list o c rows lg)
          (St m t (pre ++ w' :: post)%list o c rows lg') /\
    (w' = WDone \/ exists record, w' = WSend record).
Proof.
  intros Hw Ht. destruct w; try discriminate.
  - destruct (Unmarshal publicationBytes) as [publication|err] eqn:Hdec.
    + destruct (steps_range_to_send (Identifier publication)
                  {| Pub := publication; APIResponses := [] |}
                  pre post m t o c rows lg Ht) as [record' Hsteps].
      exists (WSend record'), lg. split; [|eauto].
      eapply steps_head;
        [eapply step_worker_quiet;
         [apply w_unmarshal, Hdec | reflexivity | reflexivity]|].
      exact Hsteps.
    + exists WDone, (lg ++ [err])%list. split; [|auto].
      apply steps_one.
      apply (s_worker email httplimit Unmarshal m t t pre _ (LLog err) WDone);
        [apply w_unmarshal_err, Hdec | reflexivity].
  - destruct (steps_range_to_send rest record pre post m t o c rows lg Ht)
      as [record' Hsteps].
    exists (WSend record'), lg. eauto.
  - destruct (steps_range_to_send rest
                (appendResponse record (doAPIRequest (GetFailed "")))
                pre post m t o c rows lg Ht) as [record' Hsteps].
    exists (WSend record'), lg. split; [|eauto].
    eapply steps_head;
      [eapply step_worker_quiet with (t' := t - 1);
       [apply w_ticket | reflexivity|]|].
    { simpl. destruct (0 <? t) eqn:E; [reflexivity|].
      apply Z.ltb_ge in E. lia. }
    eapply steps_head;
      [eapply step_worker_quiet;
       [apply (w_get _ _ _ _ _ (GetFailed "")) | reflexivity | reflexivity]|].
    eapply steps_head;
      [eapply step_worker_quiet with (t' := t);
       [apply w_return | reflexivity|]|].
    { simpl. destruct (t - 1 <? httplimit) eqn:E.
      - f_equal. lia.
      - apply Z.ltb_ge in E. lia. }
    exact Hsteps.
  - exists (WSend record), lg. split; [apply steps_refl | eauto].
  - exists WDone, lg. split; [apply steps_refl | auto].
Qed.

(** With a ticket in the channel and the writer at the head of its loop,
    the workers that hold no ticket can all send their record and
    return. *)
Lemma steps_finish_workers (post pre : list worker) (m : mainpc) (t : Z)
    (rows : list (list string)) (lg : list string) :
  inflight post = 0 ->
  0 < t <= httplimit ->
  exists post' rows' lg',
    steps (St m t (pre ++ post)%list (Some ORange) false rows lg)
          (St m t (pre ++ post')%list (Some ORange) false rows' lg') /\
    forallb finished post' = true.
Proof.
  intros Hzero Ht. revert pre rows lg.
  induction post as [|w post IH]; intros pre rows lg.
  - exists [], rows, lg. split; [apply steps_refl | reflexivity].
  - apply inflight_zero_cons in Hzero as [Hw Hzero].
    destruct (steps_worker_to_send w pre post m t (Some ORange) false rows lg Hw Ht)
      as (w' & lg1 & Hsteps1 & Hw').
    assert (Hdone : exists rows2,
               steps (St m t (pre ++ w :: post)%list (Some ORange) false rows lg)
                     (St m t (pre ++ WDone :: post)%list (Some ORange) false
                        rows2 lg1)).
    { destruct Hw' as [-> | [record ->]]; [eauto|].
      destruct (steps_writer_rows m t (pre ++ WDone :: post)%list record
                  (fst (localOA (Attachment (Pub record))))
                  (snd (localOA (Attachment (Pub record))))
                  (APIResponses record) false rows lg1) as [rows2 Hrows].
      exists rows2. eapply steps_trans; [exact Hsteps1|].
      eapply steps_head; [|exact Hrows].
      eapply s_publish; [apply w_send | apply o_recv]. }
    destruct Hdone as [rows2 Hsteps2].
    destruct (IH Hzero (pre ++ [WDone])%list rows2 lg1)
      as (post' & rows' & lg' & Hsteps3 & Hfin).
    rewrite <- !app_assoc in Hsteps3. simpl in Hsteps3.
    exists (WDone :: post'), rows', lg'.
    split; [eapply steps_trans; eauto | exact Hfin].
Qed.

Lemma steps_from_wait_lines (t : Z) (ws : list worker) (o : writerpc)
    (rows : list (list string)) (lg : list string) :
  1 <= httplimit ->
  0 <= t ->
  t + inflight ws = httplimit ->
  o <> OFlush -> o <> ODone ->
  exists s',
    steps (St MWaitLines t ws (Some o) false rows lg) s' /\ main s' = MDone.
Proof.
  intros Hlimit Ht Hsum Hf Hd.
  destruct (steps_writer_range MWaitLines t ws o false rows lg Hf Hd)
    as [rows1 Hsteps1].
  destruct (steps_release_all ws [] MWaitLines t (Some ORange) false rows1 lg)
    as [ws1 [Hsteps2 Hzero]]; [lia|].
  rewrite Hsum in Hsteps2. simpl in Hsteps2.
  destruct (steps_finish_workers ws1 [] MWaitLines httplimit rows1 lg Hzero)
    as (ws2 & rows2 & lg2 & Hsteps3 & Hfin); [lia|].
  simpl in Hsteps3.
  destruct (steps_after_close httplimit ws2 ORange rows2 lg2) as [s' [Hsteps4 Hm]].
  exists s'. split; [|exact Hm].
  eapply steps_trans; [exact Hsteps1|].
  eapply steps_trans; [exact Hsteps2|].
  eapply steps_trans; [exact Hsteps3|].
  eapply steps_head; [apply s_wait_lines, Hfin | exact Hsteps4].
Qed.

(** From every state of a run with at least one ticket in which the writer
    has not returned early, the run can be brought to its end. *)
Lemma steps_to_done (lines : list string) (s0 s : state) :
  1 <= httplimit ->
  processFile httplimit maxChanCap lines = Some s0 ->
  steps s0 s ->
  (closed s = false -> writer s <> Some ODone) ->
  exists s', steps s s' /\ main s' = MDone.
Proof.
  intros Hlimit H0 Hs Hwriter.
  assert (Hplaced : wellPlaced s).
  { pose proof H0 as H0'. apply processFile_Some in H0' as [_ ->].
    clear Hwriter. induction Hs as [|s1 s2 _ IH Hstep].
    - split; reflexivity.
    - eapply wellPlaced_step; eauto. }
  destruct s as [m t ws o c rows lg]. unfold wellPlaced in Hplaced.
  simpl in *. destruct m as [rest| | |].
  - (* still scanning *)
    destruct Hplaced as [-> ->].
    pose proof (steps_go_prefix email httplimit Unmarshal rest [] t ws None false
                  rows lg) as Hgo.
    rewrite app_nil_r in Hgo.
    assert (Hgo' : steps (St (MScan rest) t ws None false rows lg)
                     (St MWaitLines t (ws ++ map WUnmarshal rest)%list
                        (Some OHeader) false rows lg))
      by (eapply steps_trans; [exact Hgo | apply steps_one, s_go_output]).
    destruct (steps_ticket_balance email httplimit Unmarshal maxChanCap lines s0 _ H0
                (steps_trans _ _ _ _ _ _ Hs Hgo')) as [[Ht _] Hsum].
    simpl in Ht, Hsum.
    destruct (steps_from_wait_lines t (ws ++ map WUnmarshal rest)%list OHeader
                rows lg Hlimit Ht Hsum) as [s' [Hs' Hm]]; try discriminate.
    exists s'. split; [eapply steps_trans; eauto | exact Hm].
  - (* waiting for the workers *)
    destruct Hplaced as (-> & Ho & Hf).
    destruct o as [o|]; [|contradiction].
    destruct (steps_ticket_balance email httplimit Unmarshal maxChanCap lines s0 _ H0 Hs)
      as [[Ht _] Hsum].
    simpl in Ht, Hsum.
    apply (steps_from_wait_lines t ws o rows lg Hlimit Ht Hsum).
    + intros ->. now apply Hf.
    + intros ->. now apply Hwriter.
  - (* waiting for the writer *)
    destruct Hplaced as (-> & Ho).
    destruct o as [o|]; [|contradiction].
    apply steps_after_close.
  - eexists. split; [apply steps_refl | reflexivity].
Qed.

(** X10: the tickets cannot block a run.  With at least one ticket, from
    every state that the run of a file reaches and in which the writer has
    not returned before [output] was closed, the run can go on until
    [processFile] returns, whatever the requests have done so far. *)
Theorem run_can_complete (lines : list string) (s0 s : state) :
  1 <= httplimit ->
  processFile httplimit maxChanCap lines = Some s0 ->
  steps s0 s ->
  (closed s = false -> writer s <> Some ODone) ->
  exists s',
    steps s s' /\ main s' = MDone /\
    forallb finished (workers s') = true /\ tickets s' = httplimit.
Proof.
  intros Hlimit H0 Hs Hwriter.
  destruct (steps_to_done lines s0 s Hlimit H0 Hs Hwriter) as [s' [Hs' Hm]].
  exists s'. split; [exact Hs'|]. split; [exact Hm|].
  assert (Hall : steps s0 s') by (eapply steps_trans; eauto).
  assert (Hfin : forallb finished (workers s') = true).
  { pose proof H0 as H0'. apply processFile_Some in H0' as [_ ->].
    assert (Hinv : main s' = MWaitOutput \/ main s' = MDone ->
                   forallb finished (workers s') = true).
    { clear Hs' Hm Hs Hwriter. induction Hall as [|s1 s2 _ IH Hstep].
      - intros [Hm | Hm]; discriminate Hm.
      - inversion Hstep; subst; simpl in *; auto;
          try (intros [Hm | Hm]; discriminate Hm);
          try (intros Hm; exfalso; eapply finished_no_step; eauto). }
    apply Hinv. now right. }
  split; [exact Hfin|].
  destruct (steps_ticket_balance email httplimit Unmarshal maxChanCap lines s0 s' H0 Hall)
    as [_ Hsum].
  rewrite (inflight_finished _ Hfin) in Hsum. lia.
Qed.

(** *** The batch *)

Lemma bsteps_trans (b1 b2 b3 : batch) :
  bsteps b1 b2 -> bsteps b2 b3 -> bsteps b1 b3.
Proof.
  intros H12 H23. induction H23; [exact H12|].
  eapply bsteps_step; eauto.
Qed.

Lemma bsteps_lift (s s' : state) (files : list file) (lg : list string) :
  steps s s' ->
  bsteps (Batch (Some s) files lg) (Batch (Some s') files lg).
Proof.
  induction 1 as [|s1 s2 _ IH Hstep]; [apply bsteps_refl|].
  eapply bsteps_step; [exact IH | apply b_step, Hstep].
Qed.

(** X11: a batch can always be gone through to its last file.  With at
    least one ticket and a channel that can be made, whatever files the
    batch has, some of which may not open, there is a run in which every
    file is announced in the log, in order, every file that opens is
    processed until [processFile] returns, with the error of each of its
    lines that do not decode in the log, and every file that does not open
    is logged with its error and passed over, so that no file is left. *)
Theorem batch_can_complete (files : list file) (lg : list string) :
  1 <= httplimit <= maxChanCap ->
  exists parts,
    bsteps (Batch None files lg)
      (Batch None [] (lg ++ List.concat parts)%list) /\
    Forall2 (fileLog Unmarshal) files parts.
Proof.
  intros Hlimit. revert lg.
  induction files as [|[name [err | lines]] files IH]; intros lg.
  - exists []. simpl. rewrite app_nil_r. split; [apply bsteps_refl | constructor].
  - destruct (IH (lg ++ [("Processing " ++ name)%string; err])%list)
      as [parts [Hrest Hparts]].
    exists ([("Processing " ++ name)%string; err] :: parts).
    split; [|constructor; [reflexivity | exact Hparts]].
    cbn [List.concat]. rewrite app_assoc.
    eapply bsteps_head; [apply b_open_err | exact Hrest].
  - pose proof (processFile_starts httplimit maxChanCap lines
                  ltac:(lia)) as H0.
    destruct (steps_to_done lines _ _ ltac:(lia) H0 (steps_refl _ _ _ _))
      as [s' [Hs' Hm]]; [discriminate|].
    destruct (IH ((lg ++ [("Processing " ++ name)%string]) ++ logged s')%list)
      as [parts [Hrest Hparts]].
    exists ((("Processing " ++ name)%string :: logged s') :: parts).
    split.
    + cbn [List.concat].
      replace (lg ++ (("Processing " ++ name)%string :: logged s')
                 ++ List.concat parts)%list
        with (((lg ++ [("Processing " ++ name)%string]) ++ logged s')
                ++ List.concat parts)%list
        by (rewrite <- !app_assoc; reflexivity).
      eapply bsteps_head; [apply b_open, H0|].
      eapply bsteps_trans; [apply bsteps_lift, Hs'|].
      eapply bsteps_head; [apply b_return, Hm | exact Hrest].
    + constructor; [|exact Hparts].
      exists (logged s'). split; [reflexivity|].
      apply (steps_malformed_logged email httplimit Unmarshal);
        [exact Hs' | now right].
Qed.

End MorePipelineProperties.

(** ** The further statements at the sample input *)

Lemma worker_lookups_sequential_witness :
  exists n,
    [LAcquire]
    = (List.concat (repeat [LAcquire; LRelease] n) ++ [LAcquire])%list /\
    0%nat = (n + 0)%nat.
Proof.
  apply (worker_lookups_sequential "me@example.org" sampleUnmarshal sampleLine
           [LTau; LTau; LAcquire]
           (WGet {| Pub := samplePublication; APIResponses := [] |} []
              "10.1000/182")).
  econstructor; [apply w_unmarshal; reflexivity|].
  econstructor; [apply w_range_doi; reflexivity|].
  econstructor; [apply w_ticket|].
  apply wrun_nil.
Defined.

Lemma rows_come_from_lines_witness :
  Forall (fun row => List.length row = List.length header)
    [header;
     toCSVOutput sampleRecord false "missing" (doAPIRequest sampleResult)].
Proof.
  exact (proj2 (rows_come_from_lines "me@example.org" 5 sampleUnmarshal
                  sampleChanCap ["not json"; sampleLine] _ _ eq_refl sample_run)).
Defined.

Lemma malformed_lines_logged_witness :
  In "invalid character" ["invalid character"].
Proof.
  exact (malformed_lines_logged "me@example.org" 5 sampleUnmarshal
           sampleChanCap ["not json"; sampleLine] _ _ eq_refl sample_run
           (or_intror eq_refl) "not json" "invalid character"
           (or_introl eq_refl) eq_refl).
Defined.

Lemma run_can_complete_witness :
  exists s',
    steps "me@example.org" 5 sampleUnmarshal
      (St (MScan ["not json"; sampleLine]) 5 [] None false [] []) s' /\
    main s' = MDone /\
    forallb finished (workers s') = true /\ tickets s' = 5%Z.
Proof.
  apply (run_can_complete "me@example.org" 5 sampleUnmarshal sampleChanCap
           ["not json"; sampleLine]
           (St (MScan ["not json"; sampleLine]) 5 [] None false [] [])).
  - discriminate.
  - reflexivity.
  - apply steps_refl.
  - discriminate.
Defined.

Lemma batch_can_complete_witness :
  exists parts,
    bsteps "me@example.org" 5 sampleUnmarshal sampleChanCap
      (Batch None
         [File "a.json" (inr [sampleLine]);
          File "b.json" (inl "open b.json: no such file or directory");
          File "c.json" (inr ["not json"; "{}"])] [])
      (Batch None [] ([] ++ List.concat parts)%list) /\
    Forall2 (fileLog sampleUnmarshal)
      [File "a.json" (inr [sampleLine]);
       File "b.json" (inl "open b.json: no such file or directory");
       File "c.json" (inr ["not json"; "{}"])] parts.
Proof.
  apply (batch_can_complete "me@example.org" 5 sampleUnmarshal sampleChanCap
           [File "a.json" (inr [sampleLine]);
            File "b.json" (inl "open b.json: no such file or directory");
            File "c.json" (inr ["not json"; "{}"])] []).
  split; discriminate.
Defined.
